(** * smooth: Lie theory for robotics -- verification of selected properties

    A shallow embedding of the parts of the library whose source is
    available: the compile-time polynomial helpers ([monomial_integral],
    [bspline_basis], and further on the derivative, basis, Lagrange and
    integration helpers of the same header), the spline-interpolation
    helpers ([bspline_coefmat], [cspline_eval]), the Taylor-tail primitives
    ([cos_2], [sin_3], ...), the [SO3] constructors and [project_so2], and
    the version checks.

    Conventions.
    - The template parameter [Scalar] is kept generic through the class
      [ScalarOps]; exact rationals [Q] instantiate it for the examples and
      the real numbers [R] for the trigonometric code.  Rounding, overflow
      and underflow of [float] and [double] are outside that model: the
      statements made over [R] are statements in exact arithmetic.  Where
      [double] decides a property, the constructor of [SO3], the code is
      modelled a second time over binary64 numbers.
    - What the available headers use from headers that are not available
      is a parameter: the [StaticMatrix] constructor and operators
      ([StaticMatrixOps], [StaticMatrixTranspose]) and the Lie group
      implementation ([LieImpl]).
    - Loop counters and template sizes ([K], [P]) are natural numbers: the
      sizes are template parameters of stack-allocated matrices, far below
      the range of [unsigned] and [std::size_t].  The [std::size_t]
      accumulator [c] of [monomial_integral], which does overflow for
      moderate sizes, carries its wrap-around explicitly. *)

From Stdlib Require Import PrimFloat.
From Stdlib Require Import ZArith NArith QArith Reals Lra Lia String DecimalString.
From stdpp Require Import base list.

(** ** Scalars *)

(** The operations the templates use on [Scalar]: conversion from an
    integer ([Scalar(1)], [static_cast<Scalar>(n)]) and field arithmetic. *)
Class ScalarOps (S : Type) : Type := {
  cast : Z -> S;
  s_add : S -> S -> S;
  s_sub : S -> S -> S;
  s_mul : S -> S -> S;
  s_div : S -> S -> S;
  s_opp : S -> S
}.

(** Exact rationals, kept in lowest terms so that results compare with [=]. *)
#[export] Instance Q_scalar : ScalarOps Q := {
  cast z := inject_Z z;
  s_add a b := Qred (Qplus a b);
  s_sub a b := Qred (Qminus a b);
  s_mul a b := Qred (Qmult a b);
  s_div a b := Qred (Qdiv a b);
  s_opp a := Qred (Qopp a)
}.

#[export] Instance R_scalar : ScalarOps R := {
  cast z := IZR z;
  s_add := Rplus;
  s_sub := Rminus;
  s_mul := Rmult;
  s_div := Rdiv;
  s_opp := Ropp
}.

(** ** Counted loops *)

(** [for (i = lo; i != hi; ++i) body] (also [i < hi], with [lo <= hi]):
    the body transforms the loop-carried state. *)
Definition for_range {St : Type} (lo hi : nat) (body : nat -> St -> St) (s : St) : St :=
  foldl (fun acc i => body i acc) s (seq lo (hi - lo)).

(** Multiplication of [std::size_t] values: modulo [2^64]. *)
Definition size_t_mul (a b : N) : N := ((a * b) mod 2 ^ 64)%N.

(** ** StaticMatrix *)

Section Storage.
Context {S : Type} `{ScalarOps S}.

(** [StaticMatrix<Scalar, Rows, Cols>] is an array of [Rows] arrays of
    [Cols] scalars, indexed as [M[i][j]]. *)
Definition StaticMatrix : Type := list (list S).

(** Bounds-aware read of entry [(i, j)]. *)
Definition mlookup (M : StaticMatrix) (i j : nat) : option S :=
  M !! i ≫= (fun row => row !! j).

(** [M[i][j]] as an rvalue.  Every read in the modelled code is within
    bounds; outside the bounds (undefined behaviour in C++) the model
    reads zero. *)
Definition mget (M : StaticMatrix) (i j : nat) : S :=
  default (cast 0) (mlookup M i j).

(** [M[i][j] = v].  Every write in the modelled code is within bounds;
    outside the bounds the model leaves the matrix as it is. *)
Definition mset (M : StaticMatrix) (i j : nat) (v : S) : StaticMatrix :=
  alter (fun row => <[j := v]> row) i M.

(** [dims M r c]: [M] has [r] rows of [c] entries each. *)
Definition dims (M : StaticMatrix) (r c : nat) : Prop :=
  length M = r /\ Forall (fun row => length row = c) M.

End Storage.

(** The members of [StaticMatrix] that the polynomial and spline headers
    call but that are declared elsewhere (static_matrix.hpp, respectively
    internal/utils.hpp): the default constructor, [operator+] and
    [operator*].  They are parameters of the development.  All that is
    known of a default-constructed matrix from its type is its shape. *)
Class StaticMatrixOps (S : Type) : Type := {
  mnew : nat -> nat -> list (list S);
  mnew_dims : forall r c, dims (mnew r c) r c;
  madd : list (list S) -> list (list S) -> list (list S);
  mmul : nat -> nat -> nat -> list (list S) -> list (list S) -> list (list S)
}.

Section StandardMatrix.
Context {S : Type} `{ScalarOps S}.

(** The customary operations, used to run the code on examples: a
    zero-filling constructor, the entry-wise sum, and the product as the
    triple loop [ret[i][j] += a[i][k] * b[k][j]] over a zero matrix. *)
Definition mzero (rows cols : nat) : list (list S) :=
  replicate rows (replicate cols (cast 0)).

Definition entrywise_add (A B : list (list S)) : list (list S) :=
  zip_with (zip_with s_add) A B.

Definition triple_loop_mul (rows inner cols : nat) (A B : list (list S)) : list (list S) :=
  for_range 0 rows (fun i ret =>
    for_range 0 cols (fun j ret =>
      for_range 0 inner (fun k ret =>
        mset ret i j (s_add (mget ret i j) (s_mul (mget A i k) (mget B k j))))
      ret) ret)
    (mzero rows cols).

#[export] Instance standard_matrix : StaticMatrixOps S := {
  mnew := mzero;
  mnew_dims r c :=
    conj (length_replicate r (replicate c (cast 0)))
         (Forall_replicate (fun row : list S => length row = c) r
            (replicate c (cast 0)) (length_replicate c (cast 0)));
  madd := entrywise_add;
  mmul := triple_loop_mul
}.

End StandardMatrix.

Section Polynomial.
Context {S : Type} `{ScalarOps S} `{StaticMatrixOps S}.

(** *** polynomial.hpp: [monomial_integral] *)

(** The value the loop body stores at [(i, j)] for [i <= j]. *)
Definition monomial_integral_entry (P i j : nat) : S :=
  if (P <=? i) && (P <=? j) then
    let c := 1%N in
    let c := for_range (i - P + 1) (i + 1)
               (fun _i c => size_t_mul c (N.of_nat _i)) c in
    let c := for_range (j - P + 1) (j + 1)
               (fun _j c => size_t_mul c (N.of_nat _j)) c in
    s_div (cast (Z.of_N c)) (cast (Z.of_nat (i + j - 2 * P + 1)))
  else cast 0.

(** [monomial_integral<K, P, Scalar>()]. *)
Definition monomial_integral (K P : nat) : StaticMatrix :=
  for_range 0 (K + 1) (fun i ret =>
    for_range i (K + 1) (fun j ret =>
      let ret := mset ret i j (monomial_integral_entry P i j) in
      mset ret j i (mget ret i j))
    ret)
  (mnew (K + 1) (K + 1)).

(** *** polynomial.hpp: [detail::bspline_basis] *)

(** [bspline_basis<K, Scalar>()]: the recursion on the degree, with the
    two copy loops and the loop filling [left] and [right]. *)
Fixpoint bspline_basis (K : nat) : StaticMatrix :=
  match K with
  | 0 => mset (mnew 1 1) 0 0 (cast 1)
  | Datatypes.S Km1 =>
      let coeff_mat_km1 := bspline_basis Km1 in
      let '(low, high) :=
        for_range 0 K (fun i lh =>
          for_range 0 K (fun j lh =>
            (mset lh.1 i j (mget coeff_mat_km1 i j),
             mset lh.2 (i + 1) j (mget coeff_mat_km1 i j)))
          lh)
        (mnew (K + 1) K, mnew (K + 1) K) in
      let '(left_m, right_m) :=
        for_range 0 K (fun k lr =>
          let left_m := mset lr.1 k (k + 1)
                        (s_div (cast (Z.of_nat (K - (k + 1)))) (cast (Z.of_nat K))) in
          let left_m := mset left_m k k (s_sub (cast 1) (mget left_m k (k + 1))) in
          let right_m := mset lr.2 k (k + 1) (s_div (cast 1) (cast (Z.of_nat K))) in
          let right_m := mset right_m k k (s_opp (mget right_m k (k + 1))) in
          (left_m, right_m))
        (mnew K (K + 1), mnew K (K + 1)) in
      madd (mmul (K + 1) K (K + 1) low left_m) (mmul (K + 1) K (K + 1) high right_m)
  end.

(** *** interp/common.hpp: [detail::bspline_coefmat] *)

(** [bspline_coefmat<Scalar, K>()]: the copy of the recursion kept by the
    spline-interpolation header.  It names the matrix type
    [::smooth::utils::StaticMatrix]; one set of [StaticMatrixOps] stands
    for the matrix type of both headers. *)
Fixpoint bspline_coefmat (K : nat) : StaticMatrix :=
  match K with
  | 0 => mset (mnew 1 1) 0 0 (cast 1)
  | Datatypes.S Km1 =>
      let coeff_mat_km1 := bspline_coefmat Km1 in
      let '(low, high) :=
        for_range 0 K (fun i lh =>
          for_range 0 K (fun j lh =>
            (mset lh.1 i j (mget coeff_mat_km1 i j),
             mset lh.2 (i + 1) j (mget coeff_mat_km1 i j)))
          lh)
        (mnew (K + 1) K, mnew (K + 1) K) in
      let '(left_m, right_m) :=
        for_range 0 K (fun k lr =>
          let left_m := mset lr.1 k (k + 1)
                        (s_div (cast (Z.of_nat (K - (k + 1)))) (cast (Z.of_nat K))) in
          let left_m := mset left_m k k (s_sub (cast 1) (mget left_m k (k + 1))) in
          let right_m := mset lr.2 k (k + 1) (s_div (cast 1) (cast (Z.of_nat K))) in
          let right_m := mset right_m k k (s_opp (mget right_m k (k + 1))) in
          (left_m, right_m))
        (mnew K (K + 1), mnew K (K + 1)) in
      madd (mmul (K + 1) K (K + 1) low left_m) (mmul (K + 1) K (K + 1) high right_m)
  end.

End Polynomial.

(** ** Lie group implementation trait *)

(** [lie_traits<G>::Impl]: the static interface through which [cspline_eval]
    reaches the group.  The implementations live in headers of their own;
    the spline code is generic in them.  Coefficient vectors ([RepSize]
    scalars) and tangent vectors ([Dof] scalars) are lists, [Dof x Dof]
    matrices are lists of rows.  The C++ functions write their result to an
    output parameter; here they return it.  [rminus] is the group's
    [operator-], used by the control-point overload. *)
Class LieImpl (S : Type) : Type := {
  Dof : nat;
  RepSize : nat;
  Impl_setIdentity : list S;
  Impl_exp : list S -> list S;
  Impl_composition : list S -> list S -> list S;
  Impl_inverse : list S -> list S;
  Impl_Ad : list S -> list (list S);
  Impl_ad : list S -> list (list S);
  Impl_dr_exp : list S -> list (list S);
  Impl_dr_expinv : list S -> list (list S);
  rminus : list S -> list S -> list S
}.

(** ** interp/common.hpp: [cspline_eval] *)

(** The exceptions the function can raise: the explicit
    [std::runtime_error] of the size checks, and the
    [std::bad_optional_access] of [value()] on an empty optional. *)
Inductive exn : Type :=
  | runtime_error (what : string)
  | bad_optional_access.

(** [std::to_string] on a [std::size_t]. *)
Definition to_string (n : nat) : string := NilEmpty.string_of_uint (Nat.to_uint n).

Section CSpline.
Context {S : Type} `{ScalarOps S} `{LieImpl S}.

(** *** Dense linear algebra used by the function (Eigen expressions) *)

Definition vzero (n : nat) : list S := replicate n (cast 0).
Definition vget (v : list S) (k : nat) : S := default (cast 0) (v !! k).
Definition vadd (a b : list S) : list S := zip_with s_add a b.
Definition vscale (a : S) (v : list S) : list S := s_mul a <$> v.
Definition vneg (v : list S) : list S := s_opp <$> v.
Definition dot (a b : list S) : S := foldl s_add (cast 0) (zip_with s_mul a b).
Definition row (M : list (list S)) (j : nat) : list S := default [] (M !! j).
Definition mat_vec (A : list (list S)) (v : list S) : list S := (fun r => dot r v) <$> A.
Definition mscale (a : S) (A : list (list S)) : list (list S) := vscale a <$> A.
Definition mneg (A : list (list S)) : list (list S) := vneg <$> A.
Definition column (A : list (list S)) (c : nat) : list S := (fun r => vget r c) <$> A.
Definition msum (A B : list (list S)) : list (list S) := zip_with vadd A B.
Definition mprod (A B : list (list S)) : list (list S) :=
  (fun r => (fun c => dot r (column B c)) <$> seq 0 Dof) <$> A.

(** [D.block<Dof, Dof>(0, j * Dof) op= E]. *)
Definition block_update (op : S -> S -> S) (D : list (list S)) (j : nat)
    (E : list (list S)) : list (list S) :=
  for_range 0 Dof (fun r D =>
    for_range 0 Dof (fun c D =>
      mset D r (j * Dof + c) (op (mget D r (j * Dof + c)) (mget E r c)))
    D) D.

(** *** The optional output arguments *)

(** [vel], [acc] and [der] are optional references to storage of the
    caller: [None] when the argument is not supplied, otherwise the
    current content of the referenced storage. *)
Record Outputs : Type := mkOutputs {
  vel : option (list S);
  acc : option (list S);
  der : option (list (list S))
}.

(** Computations that read and write the outputs and may throw.  A thrown
    exception leaves the outputs as they were when it was raised. *)
Definition M (A : Type) : Type := Outputs -> (exn + A) * Outputs.

Definition throw {A : Type} (e : exn) : M A := fun o => (inl e, o).

#[global] Instance M_ret : MRet M := fun A a o => (inr a, o).
#[global] Instance M_bind : MBind M := fun A B k m o =>
  match m o with
  | (inr a, o') => k a o'
  | (inl e, o') => (inl e, o')
  end.

Definition vel_has_value : M bool := fun o => (inr (bool_decide (is_Some (vel o))), o).
Definition acc_has_value : M bool := fun o => (inr (bool_decide (is_Some (acc o))), o).
Definition der_has_value : M bool := fun o => (inr (bool_decide (is_Some (der o))), o).

(** [vel.value()] read, and [vel.value() = f(vel.value())]. *)
Definition vel_value : M (list S) :=
  fun o => match vel o with Some v => (inr v, o) | None => (inl bad_optional_access, o) end.
Definition vel_update (f : list S -> list S) : M unit :=
  fun o => match vel o with
           | Some v => (inr tt, mkOutputs (Some (f v)) (acc o) (der o))
           | None => (inl bad_optional_access, o)
           end.
Definition acc_update (f : list S -> list S) : M unit :=
  fun o => match acc o with
           | Some a => (inr tt, mkOutputs (vel o) (Some (f a)) (der o))
           | None => (inl bad_optional_access, o)
           end.
Definition der_update (f : list (list S) -> list (list S)) : M unit :=
  fun o => match der o with
           | Some d => (inr tt, mkOutputs (vel o) (acc o) (Some (f d)))
           | None => (inl bad_optional_access, o)
           end.

(** A loop over a list with a loop-carried local state. *)
Fixpoint for_each {A St : Type} (l : list A) (body : A -> St -> M St) (s : St) : M St :=
  match l with
  | [] => mret s
  | x :: l' => s' ← body x s; for_each l' body s'
  end.

Definition when (b : bool) (m : M unit) : M unit := if b then m else mret tt.

(** *** The overload taking the differences [v_i]

    [cspline_eval<K, G>(g_0, diff_points, cum_coef_mat, u, vel, acc, der)].
    The local row vectors [uvec], [duvec], [d2uvec] start out
    uninitialised in C++; the entries read are always written first, and
    the model starts them at zero. *)
Definition cspline_eval (K : nat) (g_0 : list S) (diff_points : list (list S))
    (cum_coef_mat : list (list S)) (u : S) : M (list S) :=
  if negb (length diff_points =? K) then
    throw (runtime_error
      ("cspline_eval: diff_points range must be size K=" ++ to_string K
       ++ ", got " ++ to_string (length diff_points))%string)
  else
    hv ← vel_has_value;
    ha ← acc_has_value;
    let '(uvec, duvec, d2uvec) :=
      for_range 1 (K + 1) (fun k w =>
        let uvec := <[k := s_mul u (vget w.1.1 (k - 1))]> w.1.1 in
        if hv || ha then
          let duvec := <[k := s_mul (cast (Z.of_nat k)) (vget uvec (k - 1))]> w.1.2 in
          if ha then
            (uvec, duvec, <[k := s_mul (cast (Z.of_nat k)) (vget duvec (k - 1))]> w.2)
          else (uvec, duvec, w.2)
        else (uvec, w.1.2, w.2))
      (<[0 := cast 1]> (vzero (K + 1)),
       <[0 := cast 0]> (vzero (K + 1)),
       <[0 := cast 0]> (vzero (K + 1))) in
    when (hv || ha)
      (vel_update (fun _ => vzero Dof);;
       when ha (acc_update (fun _ => vzero Dof)));;
    gj ← for_each diff_points (fun v gj =>
      let j := gj.2 in
      let Btilde := dot uvec (row cum_coef_mat j) in
      let tmp1 := Impl_exp (vscale Btilde v) in
      let tmp2 := Impl_composition gj.1 tmp1 in
      let g := tmp2 in
      hv ← vel_has_value;
      ha ← acc_has_value;
      when (hv || ha)
        (let dBtilde := dot duvec (row cum_coef_mat j) in
         let tmp2 := Impl_inverse tmp1 in
         let Ad := Impl_Ad tmp2 in
         vel_update (mat_vec Ad);;
         vel_update (fun x => vadd x (vscale dBtilde v));;
         when ha
           (let d2Btilde := dot d2uvec (row cum_coef_mat j) in
            acc_update (mat_vec Ad);;
            velv ← vel_value;
            let ad := Impl_ad velv in
            acc_update (fun a =>
              vadd a (vadd (mat_vec (mscale dBtilde ad) v) (vscale d2Btilde v)))));;
      mret (g, j + 1))
      (g_0, 1);
    let g := gj.1 in
    hd ← der_has_value;
    when hd
      (der_update (fun _ => mzero Dof (Dof * (K + 1)));;
       for_each (reverse (seq 0 (K + 1))) (fun j z2inv =>
         z2inv ← (if negb (j =? K) then
                    let Btilde_jp := dot uvec (row cum_coef_mat (j + 1)) in
                    let vjp := row diff_points j in
                    let sjp := vscale Btilde_jp vjp in
                    let z2inv_Ad := Impl_Ad z2inv in
                    let dr_exp_sjp := Impl_dr_exp sjp in
                    let ad_vjp := Impl_ad vjp in
                    let dr_expinv_vjp := Impl_dr_expinv vjp in
                    der_update (fun d => block_update s_sub d j
                      (mprod (mprod (mscale Btilde_jp z2inv_Ad) dr_exp_sjp)
                             (msum (mneg ad_vjp) dr_expinv_vjp)));;
                    let tmp1 := Impl_exp (vneg sjp) in
                    let tmp2 := Impl_composition z2inv tmp1 in
                    mret tmp2
                  else mret z2inv);
         let Btilde_j := dot uvec (row cum_coef_mat j) in
         (if negb (j =? 0) then
            let vj := row diff_points (j - 1) in
            let z2inv_Ad := Impl_Ad z2inv in
            let dr_exp_sj := Impl_dr_exp (vscale Btilde_j vj) in
            let dr_expinv_vj := Impl_dr_expinv vj in
            der_update (fun d => block_update s_add d j
              (mprod (mprod (mscale Btilde_j z2inv_Ad) dr_exp_sj) dr_expinv_vj))
          else
            let z2inv_Ad := Impl_Ad z2inv in
            der_update (fun d => block_update s_add d j (mscale Btilde_j z2inv_Ad)));;
         mret z2inv)
         Impl_setIdentity;;
       mret tt);;
    mret g.

(** *** The overload taking the control points

    [cspline_eval<K, G>(ctrl_points, cum_coef_mat, u, vel, acc, der)]:
    forms the [K] differences of consecutive control points and calls
    the overload above. *)
Definition cspline_eval_ctrl_points (K : nat) (ctrl_points : list (list S))
    (cum_coef_mat : list (list S)) (u : S) : M (list S) :=
  if negb (length ctrl_points =? K + 1) then
    throw (runtime_error
      ("cspline_eval: ctrl_points range must be size K+1=" ++ to_string (K + 1)
       ++ ", got " ++ to_string (length ctrl_points))%string)
  else
    let diff_pts :=
      for_range 0 K (fun i d =>
        <[i := rminus (row ctrl_points (i + 1)) (row ctrl_points i)]> d)
        (replicate K (vzero Dof)) in
    cspline_eval K (row ctrl_points 0) diff_pts cum_coef_mat u.

End CSpline.

(** The translation group of the line over the rationals: the simplest
    instance of the trait, used to run the spline code. *)
#[export] Instance T1_impl : LieImpl Q := {
  Dof := 1;
  RepSize := 1;
  Impl_setIdentity := [0%Q];
  Impl_exp v := v;
  Impl_composition a b := zip_with s_add a b;
  Impl_inverse a := s_opp <$> a;
  Impl_Ad _ := [[1%Q]];
  Impl_ad _ := [[0%Q]];
  Impl_dr_exp _ := [[1%Q]];
  Impl_dr_expinv _ := [[1%Q]];
  rminus a b := zip_with s_sub a b
}.


(** ** detail/tn.hpp: Taylor tails of sin and cos *)

(** Modelled from the spec: the threshold [eps2] is declared in the header
    common.hpp; the specification gives its value as about [1e-8], a fixed
    bound on the squared argument. *)
Definition eps2 : R := (1 / 100000000)%R.

Section Taylor.
Local Open Scope R_scope.

(** [cos_2(x2)]: [(cos(x) - 1) / x^2] with [x2 = x^2]. *)
Definition cos_2 (x2 : R) : R :=
  if Rlt_dec eps2 x2 then
    let x := sqrt x2 in
    (cos x - 1) / x2
  else - 1 / 2 + x2 / 24 - x2 * x2 / 720.

(** [sin_3(x2)]: [(sin(x) - x) / x^3]. *)
Definition sin_3 (x2 : R) : R :=
  if Rlt_dec eps2 x2 then
    let x := sqrt x2 in
    (sin x - x) / (x2 * x)
  else - 1 / 6 + x2 / 120 - x2 * x2 / 5040.

(** [cos_4(x2)]: [(cos(x) - 1 + x^2/2) / x^4]. *)
Definition cos_4 (x2 : R) : R :=
  if Rlt_dec eps2 x2 then
    let x := sqrt x2 in
    (cos x - 1 + x2 / 2) / (x2 * x2)
  else 1 / 24 - x2 / 720 + (x2 * x2) / 40320.

(** [sin_5(x2)]: [(sin(x) - x + x^3/6) / x^5]. *)
Definition sin_5 (x2 : R) : R :=
  if Rlt_dec eps2 x2 then
    let x := sqrt x2 in
    (sin x - x + x2 * x / 6) / (x2 * x2 * x)
  else 1 / 120 - x2 / 5040 + x2 * x2 / 362880.

(** [cos_6(x2)]: [(cos(x) - 1 + x^2/2 - x^4/24) / x^6]. *)
Definition cos_6 (x2 : R) : R :=
  let x4 := x2 * x2 in
  if Rlt_dec eps2 x2 then
    let x := sqrt x2 in
    (cos x - 1 + x2 / 2 - x4 / 24) / (x4 * x2)
  else - 1 / 720 + x2 / 40320 - x4 / 3628800.

End Taylor.

(** ** so3.hpp: the [SO3] constructors *)

Section SO3.
Local Open Scope R_scope.

(** The coefficient storage of [SO3]: [[q_x, q_y, q_z, q_w]], so that
    coefficient 3 is the scalar part. *)
Record Coeffs : Type := mkCoeffs { q_x : R; q_y : R; q_z : R; q_w : R }.

Definition coeffs_scale (a : R) (q : Coeffs) : Coeffs :=
  mkCoeffs (q_x q * a) (q_y q * a) (q_z q * a) (q_w q * a).

Definition squaredNorm (q : Coeffs) : R :=
  q_x q * q_x q + q_y q * q_y q + q_z q * q_z q + q_w q * q_w q.

(** Eigen's [normalized()]: divides by the norm when the squared norm is
    positive and returns the argument itself otherwise. *)
Definition normalized (q : Coeffs) : Coeffs :=
  let z := squaredNorm q in
  if Rlt_dec 0 z then
    mkCoeffs (q_x q / sqrt z) (q_y q / sqrt z) (q_z q / sqrt z) (q_w q / sqrt z)
  else q.

(** [SO3(const Eigen::QuaternionBase<Derived> & quat)]. *)
Definition SO3_of_quat (quat : Coeffs) : Coeffs :=
  let m_coeffs := normalized quat in
  if Rlt_dec (q_w m_coeffs) 0 then coeffs_scale (-1) m_coeffs else m_coeffs.

Definition rot_x (angle : R) : Coeffs :=
  let ret := mkCoeffs (sin (angle / 2)) 0 0 (cos (angle / 2)) in
  if Rlt_dec (q_w ret) 0 then coeffs_scale (-1) ret else ret.

Definition rot_y (angle : R) : Coeffs :=
  let ret := mkCoeffs 0 (sin (angle / 2)) 0 (cos (angle / 2)) in
  if Rlt_dec (q_w ret) 0 then coeffs_scale (-1) ret else ret.

Definition rot_z (angle : R) : Coeffs :=
  let ret := mkCoeffs 0 0 (sin (angle / 2)) (cos (angle / 2)) in
  if Rlt_dec (q_w ret) 0 then coeffs_scale (-1) ret else ret.

(** The constraint documented on [SO3Base]:
    [q_x^2 + q_y^2 + q_z^2 + q_w^2 = 1] and [q_w >= 0]. *)
Definition so3_constraint (q : Coeffs) : Prop :=
  squaredNorm q = 1 /\ 0 <= q_w q.

End SO3.

(** *** The constructor at [Scalar = double] *)

Section SO3Double.
Local Open Scope float_scope.

(** The coefficient storage of [SO3<double>], as [Coeffs] above. *)
Record CoeffsD : Type := mkCoeffsD { d_x : float; d_y : float; d_z : float; d_w : float }.

(** [squaredNorm()] in binary64 arithmetic.  The four products are summed
    from left to right; the inputs of the statements about it have squared
    norms that every order of summation computes alike. *)
Definition squaredNorm_double (q : CoeffsD) : float :=
  d_x q * d_x q + d_y q * d_y q + d_z q * d_z q + d_w q * d_w q.

(** Eigen's [normalized()]: [if (z > 0) return n / sqrt(z); else return n;]. *)
Definition normalized_double (q : CoeffsD) : CoeffsD :=
  let z := squaredNorm_double q in
  if PrimFloat.ltb 0 z then
    mkCoeffsD (d_x q / PrimFloat.sqrt z) (d_y q / PrimFloat.sqrt z)
              (d_z q / PrimFloat.sqrt z) (d_w q / PrimFloat.sqrt z)
  else q.

(** [SO3(const Eigen::QuaternionBase<Derived> & quat)] at [double]. *)
Definition SO3_of_quat_double (quat : CoeffsD) : CoeffsD :=
  let m_coeffs := normalized_double quat in
  if PrimFloat.ltb (d_w m_coeffs) 0 then
    mkCoeffsD (d_x m_coeffs * (-1)) (d_y m_coeffs * (-1))
              (d_z m_coeffs * (-1)) (d_w m_coeffs * (-1))
  else m_coeffs.

(** The group constraint up to a tolerance [tol] on the squared norm:
    [|q_x^2 + q_y^2 + q_z^2 + q_w^2 - 1| <= tol] and [q_w >= 0]. *)
Definition so3_constraint_double (tol : float) (q : CoeffsD) : bool :=
  PrimFloat.leb (PrimFloat.abs (squaredNorm_double q - 1)) tol
  && PrimFloat.leb 0 (d_w q).

End SO3Double.

(** ** config/version.hpp.in: version checks *)

Section Version.
Local Open Scope Z_scope.

(** The version triple that CMake substitutes for
    [SMOOTH_VERSION_MAJOR], [SMOOTH_VERSION_MINOR], [SMOOTH_VERSION_PATCH]. *)
Record Version : Type := mkVersion {
  SMOOTH_VERSION_MAJOR : Z;
  SMOOTH_VERSION_MINOR : Z;
  SMOOTH_VERSION_PATCH : Z
}.

(** [SMOOTH_VERSION_GTE(major, minor, patch)]: the chain of conditional
    expressions of the macro. *)
Definition SMOOTH_VERSION_GTE (v : Version) (major minor patch : Z) : bool :=
  if major <? SMOOTH_VERSION_MAJOR v then true
  else if major >? SMOOTH_VERSION_MAJOR v then false
  else if minor <? SMOOTH_VERSION_MINOR v then true
  else if minor >? SMOOTH_VERSION_MINOR v then false
  else if patch <? SMOOTH_VERSION_PATCH v then true
  else if patch >? SMOOTH_VERSION_PATCH v then false
  else true.

(** [SMOOTH_VERSION_EQ(major, minor, patch)]. *)
Definition SMOOTH_VERSION_EQ (v : Version) (major minor patch : Z) : bool :=
  if negb (major =? SMOOTH_VERSION_MAJOR v) then false
  else if negb (minor =? SMOOTH_VERSION_MINOR v) then false
  else if negb (patch =? SMOOTH_VERSION_PATCH v) then false
  else true.

End Version.

(** ** polynomial.hpp: the remaining compile-time helpers *)

(** Reference functions for the statements about [monomial_derivative]:
    the falling factorial [k (k-1) ... (k-p+1)], which is the factor of the
    [p]-th derivative of [u^k], and the power as the code forms it, by
    repeated multiplication on the right. *)
Fixpoint falling_factorial (k p : nat) : N :=
  match p with
  | 0 => 1%N
  | Datatypes.S p' => (N.of_nat k * falling_factorial (k - 1) p')%N
  end.

Section PolynomialMore.
Context {S : Type} `{ScalarOps S} `{StaticMatrixOps S}.

Definition scalar_pow (u : S) (n : nat) : S :=
  Nat.iter n (fun P1 => s_mul P1 u) (cast 1).

(** [monomial_derivative<K, Scalar>(u, p)]: [P1] is the power of [u] and
    [P2], a [std::size_t], the integer factor. *)
Definition monomial_derivative (K : nat) (u : S) (p : nat) : StaticMatrix :=
  let ret := mnew 1 (K + 1) in
  if K <? p then ret
  else
    let ret := for_range 0 p (fun i ret => mset ret 0 i (cast 0)) ret in
    let P1 := cast 1 in
    let P2 := for_range 2 (p + 1) (fun j P2 => size_t_mul P2 (N.of_nat j)) 1%N in
    let ret := mset ret 0 p (s_mul P1 (cast (Z.of_N P2))) in
    (for_range (p + 1) (K + 1) (fun i st =>
       let P1 := s_mul st.1.2 u in
       let P2 := size_t_mul st.2 (N.of_nat i) in
       let P2 := (P2 / N.of_nat (i - p))%N in
       (mset st.1.1 0 i (s_mul P1 (cast (Z.of_N P2))), P1, P2))
       (ret, P1, P2)).1.1.

(** [monomial_derivatives<K, P, Scalar>(u)]: row [p] is assigned row 0 of
    [monomial_derivative<K, Scalar>(u, p)]. *)
Definition monomial_derivatives (K P : nat) (u : S) : StaticMatrix :=
  for_range 0 (P + 1) (fun p ret =>
    <[p := default [] (monomial_derivative K u p !! 0)]> ret)
    (mnew (P + 1) (K + 1)).

(** [detail::bernstein_basis<K, Scalar>()]. *)
Fixpoint bernstein_basis (K : nat) : StaticMatrix :=
  match K with
  | 0 => mset (mnew 1 1) 0 0 (cast 1)
  | Datatypes.S Km1 =>
      let coeff_mat_km1 := bernstein_basis Km1 in
      let '(low, high) :=
        for_range 0 K (fun i lh =>
          for_range 0 K (fun j lh =>
            (mset lh.1 i j (mget coeff_mat_km1 i j),
             mset lh.2 (i + 1) j (mget coeff_mat_km1 i j)))
          lh)
        (mnew (K + 1) K, mnew (K + 1) K) in
      let '(left_m, right_m) :=
        for_range 0 K (fun k lr =>
          let left_m := mset lr.1 k k (cast 1) in
          let right_m := mset lr.2 k k (cast (-1)) in
          let right_m := mset right_m k (k + 1) (cast 1) in
          (left_m, right_m))
        (mnew K (K + 1), mnew K (K + 1)) in
      madd (mmul (K + 1) K (K + 1) low left_m) (mmul (K + 1) K (K + 1) high right_m)
  end.

(** [ret[i][j] += e] and [ret[i][j] -= e]. *)
Definition mset_add (M : StaticMatrix) (i j : nat) (e : S) : StaticMatrix :=
  mset M i j (s_add (mget M i j) e).
Definition mset_sub (M : StaticMatrix) (i j : nat) (e : S) : StaticMatrix :=
  mset M i j (s_sub (mget M i j) e).

(** [detail::hermite_basis<K, Scalar>()]. *)
Definition hermite_basis (K : nat) : StaticMatrix :=
  let ret := mnew (K + 1) (K + 1) in
  let ret := mset ret 0 0 (cast 1) in
  let ret := if 0 <? K then mset ret 1 1 (cast 2) else ret in
  if 1 <? K then
    for_range 2 (K + 1) (fun k ret =>
      let ret := for_range 0 k (fun i ret =>
                   mset_add ret (i + 1) k (s_mul (cast 2) (mget ret i (k - 1)))) ret in
      for_range 0 (k - 1) (fun i ret =>
        mset_sub ret i k (s_mul (cast (Z.of_nat (2 * (k - 1)))) (mget ret i (k - 2))))
        ret)
      ret
  else ret.

(** [detail::laguerre_basis<K, Scalar>()]. *)
Definition laguerre_basis (K : nat) : StaticMatrix :=
  let ret := mnew (K + 1) (K + 1) in
  let ret := mset ret 0 0 (cast 1) in
  let ret := if 0 <? K then mset (mset ret 0 1 (cast 1)) 1 1 (cast (-1)) else ret in
  if 1 <? K then
    for_range 2 (K + 1) (fun k ret =>
      let ret := for_range 0 k (fun i ret =>
                   let ret := mset_add ret i k
                     (s_div (s_mul (cast (Z.of_nat (2 * k - 1))) (mget ret i (k - 1)))
                            (cast (Z.of_nat k))) in
                   mset_sub ret (i + 1) k
                     (s_div (mget ret i (k - 1)) (cast (Z.of_nat k)))) ret in
      for_range 0 (k - 1) (fun i ret =>
        mset_sub ret i k
          (s_div (s_mul (cast (Z.of_nat (k - 1))) (mget ret i (k - 2)))
                 (cast (Z.of_nat k))))
        ret)
      ret
  else ret.

(** [detail::jacobi_basis<K, Scalar>(alpha, beta)].  The parameters and the
    coefficients [frac], [c1], [c2], [c3] are [double] in the source; the
    model computes them in the scalar type. *)
Definition jacobi_basis (K : nat) (alpha beta : S) : StaticMatrix :=
  let ret := mnew (K + 1) (K + 1) in
  let ret := mset ret 0 0 (cast 1) in
  let ret :=
    if 0 <? K then
      let ret := mset ret 0 1
        (s_sub (s_add alpha (cast 1))
               (s_div (s_add (s_add alpha beta) (cast 2)) (cast 2))) in
      mset ret 1 1 (s_div (s_add (s_add alpha beta) (cast 2)) (cast 2))
    else ret in
  if 1 <? K then
    for_range 2 (K + 1) (fun k ret =>
      let k2ab := s_add (s_add (cast (Z.of_nat (2 * k))) alpha) beta in
      let frac := s_div (cast 1)
        (s_mul (s_mul (cast (Z.of_nat (2 * k)))
                      (s_add (s_add (cast (Z.of_nat k)) alpha) beta))
               (s_sub k2ab (cast 2))) in
      let c1 := s_mul (s_sub k2ab (cast 1))
                      (s_sub (s_mul alpha alpha) (s_mul beta beta)) in
      let c2 := s_mul (s_mul (s_sub k2ab (cast 1)) k2ab) (s_sub k2ab (cast 2)) in
      let c3 := s_mul (s_mul (s_mul (cast 2)
                                (s_sub (s_add (cast (Z.of_nat k)) alpha) (cast 1)))
                             (s_sub (s_add (cast (Z.of_nat k)) beta) (cast 1)))
                      k2ab in
      let ret := for_range 0 k (fun i ret =>
                   let ret := mset_add ret i k
                     (s_mul (s_mul c1 (mget ret i (k - 1))) frac) in
                   mset_add ret (i + 1) k
                     (s_mul (s_mul c2 (mget ret i (k - 1))) frac)) ret in
      for_range 0 (k - 1) (fun i ret =>
        mset_sub ret i k (s_mul (s_mul c3 (mget ret i (k - 2))) frac))
        ret)
      ret
  else ret.

(** [enum class PolynomialBasis]. *)
Inductive PolynomialBasis : Type :=
  | Bernstein | Bspline | Chebyshev1st | Chebyshev2nd
  | Hermite | Laguerre | Legendre | Monomial.

(** [polynomial_basis<Basis, K, Scalar>()].  The literals [0.5] and [-0.5]
    are the quotients of [1] and [-1] by [2]. *)
Definition polynomial_basis (Basis : PolynomialBasis) (K : nat) : StaticMatrix :=
  match Basis with
  | Monomial =>
      for_range 0 (K + 1) (fun k ret => mset ret k k (cast 1)) (mnew (K + 1) (K + 1))
  | Bernstein => bernstein_basis K
  | Laguerre => laguerre_basis K
  | Hermite => hermite_basis K
  | Legendre => jacobi_basis K (cast 0) (cast 0)
  | Chebyshev1st =>
      let ret := jacobi_basis K (s_div (cast (-1)) (cast 2)) (s_div (cast (-1)) (cast 2)) in
      let fac := mmul 1 (K + 1) (K + 1) (monomial_derivative K (cast 1) 0) ret in
      for_range 0 (K + 1) (fun k ret =>
        for_range 0 (K + 1) (fun r ret =>
          mset ret r k (s_div (mget ret r k) (mget fac 0 k)))
        ret) ret
  | Chebyshev2nd =>
      let ret := jacobi_basis K (s_div (cast 1) (cast 2)) (s_div (cast 1) (cast 2)) in
      let fac := mmul 1 (K + 1) (K + 1) (monomial_derivative K (cast 1) 0) ret in
      for_range 0 (K + 1) (fun k ret =>
        for_range 0 (K + 1) (fun r ret =>
          mset ret r k
            (s_mul (mget ret r k) (s_div (cast (Z.of_nat (k + 1))) (mget fac 0 k))))
        ret) ret
  | Bspline => bspline_basis K
  end.

(** The loop shared by [polynomial_cumulative_basis] and [cum_coefmat]:
    [M[i][K - 1 - j] += M[i][K - j]] for every row [i] and [j < K]. *)
Definition cumulate_rows (K : nat) (M : StaticMatrix) : StaticMatrix :=
  for_range 0 (K + 1) (fun i M =>
    for_range 0 K (fun j M =>
      mset_add M i (K - 1 - j) (mget M i (K - j)))
    M) M.

(** [polynomial_cumulative_basis<Basis, K, Scalar>()]. *)
Definition polynomial_cumulative_basis (Basis : PolynomialBasis) (K : nat) : StaticMatrix :=
  cumulate_rows K (polynomial_basis Basis K).

(** *** interp/common.hpp: the coefficient matrices of the splines *)

(** [detail::bezier_coefmat<Scalar, N>()]. *)
Fixpoint bezier_coefmat (N : nat) : StaticMatrix :=
  match N with
  | 0 => mset (mnew 1 1) 0 0 (cast 1)
  | Datatypes.S Nm1 =>
      let coeff_mat_km1 := bezier_coefmat Nm1 in
      let '(low, high) :=
        for_range 0 N (fun i lh =>
          for_range 0 N (fun j lh =>
            (mset lh.1 i j (mget coeff_mat_km1 i j),
             mset lh.2 (i + 1) j (mget coeff_mat_km1 i j)))
          lh)
        (mnew (N + 1) N, mnew (N + 1) N) in
      let '(left_m, right_m) :=
        for_range 0 N (fun k lr =>
          let left_m := mset lr.1 k k (cast 1) in
          let right_m := mset lr.2 k k (cast (-1)) in
          let right_m := mset right_m k (k + 1) (cast 1) in
          (left_m, right_m))
        (mnew N (N + 1), mnew N (N + 1)) in
      madd (mmul (N + 1) N (N + 1) low left_m) (mmul (N + 1) N (N + 1) high right_m)
  end.

(** [enum class CSplineType]. *)
Inductive CSplineType : Type := BEZIER | BSPLINE.

(** [detail::cum_coefmat<Type, Scalar, K>()]: [M] is default-constructed and
    then assigned the coefficient matrix of the spline type.  The source
    instantiates that coefficient matrix at [double] and assigns it to a
    matrix of [Scalar]; the model has the one scalar type, as when [Scalar]
    is [double]. *)
Definition cum_coefmat (Type_ : CSplineType) (K : nat) : StaticMatrix :=
  let M := mnew (K + 1) (K + 1) in
  let M := match Type_ with BEZIER => bezier_coefmat K | BSPLINE => bspline_coefmat K end in
  cumulate_rows K M.

End PolynomialMore.

(** ** interp/common.hpp: the documented value of [cspline_eval] *)

Section CSplineValue.
Context {S : Type} `{ScalarOps S} `{LieImpl S}.

(** Which of the optional outputs were passed. *)
Definition presence (o : Outputs (S := S)) : bool * bool * bool :=
  (bool_decide (is_Some (vel o)), bool_decide (is_Some (acc o)),
   bool_decide (is_Some (der o))).

(** The row of powers [1, u, ..., u^K], built as [uvec(k) = u * uvec(k-1)]. *)
Definition upowers (K : nat) (u : S) : list S :=
  for_range 1 (K + 1) (fun k uvec => <[k := s_mul u (vget uvec (k - 1))]> uvec)
    (<[0 := cast 1]> (vzero (K + 1))).

(** The value the documentation of [cspline_eval] gives:
    [g = g_0 * exp(Btilde_1(u) v_1) * ... * exp(Btilde_K(u) v_K)], where
    [Btilde_j(u)] is the product of the row of powers with row [j] of the
    coefficient matrix. *)
Definition cspline_factor (uvec : list S) (cum_coef_mat : list (list S))
    (gj : list S * nat) (v : list S) : list S * nat :=
  (Impl_composition gj.1 (Impl_exp (vscale (dot uvec (row cum_coef_mat gj.2)) v)),
   gj.2 + 1).

Definition cspline_value (K : nat) (g_0 : list S) (diff_points : list (list S))
    (cum_coef_mat : list (list S)) (u : S) : list S :=
  (foldl (cspline_factor (upowers K u) cum_coef_mat) (g_0, 1) diff_points).1.

(** The differences of consecutive control points. *)
Definition ctrl_differences (K : nat) (ctrl_points : list (list S)) : list (list S) :=
  (fun i => rminus (row ctrl_points (i + 1)) (row ctrl_points i)) <$> seq 0 K.

End CSplineValue.

(** Reference function for the statement about [hermite_basis]: the
    three-term recurrence [H_k = 2 x H_(k-1) - 2 (k-1) H_(k-2)] of the
    Hermite polynomials, read on the coefficient of [x^i] in column [k] and
    written with the additions to the zero entry that the code performs. *)
Definition hermite_recurrence {S : Type} `{ScalarOps S}
    (M : list (list S)) (i k : nat) : S :=
  let up := if (0 <? i) && (i <=? k)
            then s_add (cast 0) (s_mul (cast 2) (mget M (i - 1) (k - 1)))
            else cast 0 in
  if i <? k - 1
  then s_sub up (s_mul (cast (Z.of_nat (2 * (k - 1)))) (mget M i (k - 2)))
  else up.

(** ** spline/fit.hpp: [spline_specs::MinDerivative] *)

(** The lambda that initialises [MinDerivative<G, K, O, P>::LeftDeg]: it
    fills an array of [P - 1] integers, whose initial content [uninit] is
    indeterminate. *)
Definition MinDerivative_LeftDeg (P : nat) (uninit : list Z) : list Z :=
  for_range 0 (P - 1) (fun i ret => <[i := Z.of_nat (i + 1)]> ret) uninit.

(** ** polynomial.hpp: [integrate_absolute_polynomial] *)

Section IntegrateAbsolute.
Local Open Scope R_scope.

(** [std::clamp(v, lo, hi)]: [(v < lo) ? lo : (hi < v) ? hi : v]. *)
Definition clamp (v lo hi : R) : R :=
  if Rlt_dec v lo then lo else if Rlt_dec hi v then hi else v.

(** The locations of the zeros start at
    [std::numeric_limits<double>::infinity()], here [None]; clamping
    infinity to [[lo, hi]] gives [hi]. *)
Definition clamp_inf (v : option R) (lo hi : R) : R :=
  match v with
  | Some x => clamp x lo hi
  | None => hi
  end.

(** The antiderivative [integ] of the function body. *)
Definition integ (A B C u : R) : R := A * u * u * u / 3 + B * u * u / 2 + C * u.

(** [integrate_absolute_polynomial(t0, t1, A, B, C)]. *)
Definition integrate_absolute_polynomial (t0 t1 A B C : R) : R :=
  let '(mid1, mid2) :=
    if sumbool_and _ _ _ _ (Rlt_dec (Rabs A) (1 / 1000000000))
                           (Rlt_dec (1 / 1000000000) (Rabs B)) then
      (Some (clamp (- C / B) t0 t1), None)
    else if Rlt_dec (1 / 1000000000) (Rabs A) then
      let res := B * B / (4 * A * A) - C / A in
      if Rlt_dec 0 res then
        (Some (- B / (2 * A) - sqrt res), Some (- B / (2 * A) + sqrt res))
      else (None, None)
    else (None, None) in
  let mid1cl := clamp_inf mid1 t0 t1 in
  let mid2cl := clamp_inf mid2 t0 t1 in
  Rabs (integ A B C t1 - integ A B C t0
        + 2 * integ A B C mid1cl - 2 * integ A B C mid2cl).

End IntegrateAbsolute.

(** Reference function for the statements about [laguerre_basis] and
    [jacobi_basis]: the entry [(i, k)] that a three-term recurrence gives
    from the columns [k - 1] and [k - 2], written with the operations on the
    zero entry that the code performs.  [g1] is the factor of the term that
    stays in row [i], [g2] that of the term shifted down from row [i - 1]
    (the multiplication by [x]), and [g3] that of the term from column
    [k - 2]. *)
Definition three_term_recurrence {S : Type} `{ScalarOps S}
    (op1 op2 op3 : S -> S -> S) (g1 g2 g3 : S -> S)
    (M : list (list S)) (i k : nat) : S :=
  let shifted := if 0 <? i then op2 (cast 0) (g2 (mget M (i - 1) (k - 1))) else cast 0 in
  let e := if i <? k then op1 shifted (g1 (mget M i (k - 1)))
           else if i =? k then shifted else cast 0 in
  if i <? k - 1 then op3 e (g3 (mget M i (k - 2))) else e.

(** [k L_k = (2k - 1 - x) L_(k-1) - (k - 1) L_(k-2)]. *)
Definition laguerre_recurrence {S : Type} `{ScalarOps S}
    (M : list (list S)) (i k : nat) : S :=
  three_term_recurrence s_add s_sub s_sub
    (fun x => s_div (s_mul (cast (Z.of_nat (2 * k - 1))) x) (cast (Z.of_nat k)))
    (fun x => s_div x (cast (Z.of_nat k)))
    (fun x => s_div (s_mul (cast (Z.of_nat (k - 1))) x) (cast (Z.of_nat k)))
    M i k.

(** The factors [frac], [c1], [c2], [c3] of [jacobi_basis] for column [k]. *)
Definition jacobi_frac {S : Type} `{ScalarOps S} (alpha beta : S) (k : nat) : S :=
  s_div (cast 1)
    (s_mul (s_mul (cast (Z.of_nat (2 * k)))
                  (s_add (s_add (cast (Z.of_nat k)) alpha) beta))
           (s_sub (s_add (s_add (cast (Z.of_nat (2 * k))) alpha) beta) (cast 2))).
Definition jacobi_c1 {S : Type} `{ScalarOps S} (alpha beta : S) (k : nat) : S :=
  s_mul (s_sub (s_add (s_add (cast (Z.of_nat (2 * k))) alpha) beta) (cast 1))
        (s_sub (s_mul alpha alpha) (s_mul beta beta)).
Definition jacobi_c2 {S : Type} `{ScalarOps S} (alpha beta : S) (k : nat) : S :=
  s_mul (s_mul (s_sub (s_add (s_add (cast (Z.of_nat (2 * k))) alpha) beta) (cast 1))
               (s_add (s_add (cast (Z.of_nat (2 * k))) alpha) beta))
        (s_sub (s_add (s_add (cast (Z.of_nat (2 * k))) alpha) beta) (cast 2)).
Definition jacobi_c3 {S : Type} `{ScalarOps S} (alpha beta : S) (k : nat) : S :=
  s_mul (s_mul (s_mul (cast 2) (s_sub (s_add (cast (Z.of_nat k)) alpha) (cast 1)))
               (s_sub (s_add (cast (Z.of_nat k)) beta) (cast 1)))
        (s_add (s_add (cast (Z.of_nat (2 * k))) alpha) beta).

(** [P_k = frac ((c1 + c2 x) P_(k-1) - c3 P_(k-2))]. *)
Definition jacobi_recurrence {S : Type} `{ScalarOps S}
    (alpha beta : S) (M : list (list S)) (i k : nat) : S :=
  three_term_recurrence s_add s_add s_sub
    (fun x => s_mul (s_mul (jacobi_c1 alpha beta k) x) (jacobi_frac alpha beta k))
    (fun x => s_mul (s_mul (jacobi_c2 alpha beta k) x) (jacobi_frac alpha beta k))
    (fun x => s_mul (s_mul (jacobi_c3 alpha beta k) x) (jacobi_frac alpha beta k))
    M i k.

(** *** polynomial.hpp: [lagrange_basis] *)

(** [StaticMatrix::transpose()] is declared in static_matrix.hpp as well:
    a parameter, given the numbers of rows and columns of its argument. *)
Class StaticMatrixTranspose (S : Type) : Type := {
  mtranspose : nat -> nat -> list (list S) -> list (list S)
}.

(** The customary transpose, used to run the code on examples. *)
Definition transposed {S : Type} `{ScalarOps S} (rows cols : nat) (M : list (list S))
    : list (list S) :=
  (fun j => (fun i => mget M i j) <$> seq 0 rows) <$> seq 0 cols.

#[export] Instance standard_transpose {S : Type} `{ScalarOps S} : StaticMatrixTranspose S := {
  mtranspose := transposed
}.

Section Lagrange.
Context {S : Type} `{ScalarOps S} `{StaticMatrixOps S} `{StaticMatrixTranspose S}.

(** [*(ts.begin() + i)] and [row_copy[i]].  Every read in the modelled code
    is within bounds when the range has [K + 1] elements; outside the
    bounds the model reads zero. *)
Definition range_at (ts : list S) (i : nat) : S := default (cast 0) (ts !! i).

(** [ret[row].fill(v)]. *)
Definition row_fill (M : StaticMatrix) (row : nat) (v : S) : StaticMatrix :=
  alter (fun r => replicate (length r) v) row M.

(** The matrix [ret] of [lagrange_basis<K>(ts)] before it is transposed:
    row [row] is built by multiplying in one factor per [col != row].  The
    code divides by the differences of the nodes: the model stands for it
    where the nodes differ from one another, which the statements about
    the function take as their hypothesis. *)
Definition lagrange_rows (K : nat) (ts : list S) : StaticMatrix :=
  let ret := mnew (K + 1) (K + 1) in
  for_range 0 (K + 1) (fun row ret =>
    let ret := mset ret row 0 (cast 1) in
    for_range 0 (K + 1) (fun col ret =>
      if negb (col =? row) then
        let row_copy := default [] (ret !! row) in
        let ret := row_fill ret row (cast 0) in
        for_range 0 (col - (if row <? col then 1 else 0) + 1) (fun i ret =>
          let ret := mset_add ret row (i + 1)
            (s_div (range_at row_copy i)
                   (s_sub (range_at ts row) (range_at ts col))) in
          mset_sub ret row i
            (s_div (s_mul (range_at ts col) (range_at row_copy i))
                   (s_sub (range_at ts row) (range_at ts col))))
          ret
      else ret)
      ret)
    ret.

(** [lagrange_basis<K>(ts)]. *)
Definition lagrange_basis (K : nat) (ts : list S) : StaticMatrix :=
  mtranspose (K + 1) (K + 1) (lagrange_rows K ts).

End Lagrange.

(** The polynomial [p_i] that column [i] of a basis matrix [B] stands for,
    as the headers document it: [(p_0(t) ... p_K(t)) = (1 t ... t^K) B]. *)
Definition basis_polynomial (B : list (list R)) (K i : nat) (t : R) : R :=
  sum_f_R0 (fun r => mget B r i * t ^ r)%R K.

(** The Lagrange polynomial of the documentation of [lagrange_basis]: the
    product of [(t - t_j) / (t_i - t_j)] over [j] in [[0, K]], [j <> i]. *)
Definition lagrange_polynomial (ts : list R) (K i : nat) (t : R) : R :=
  for_range 0 (K + 1) (fun j acc =>
    if j =? i then acc
    else (acc * ((t - range_at ts j) / (range_at ts i - range_at ts j)))%R) 1%R.

(** *** polynomial.hpp: [polynomial_basis_derivatives] *)

Section BasisDerivatives.
Context {S : Type} `{ScalarOps S} `{StaticMatrixOps S}.

(** [polynomial_basis_derivatives<K, N>(B, ts)]: the range-for loop carries
    the matrix and the column counter [j].  The assertion on the size of
    [ts] is a precondition of the statements below. *)
Definition polynomial_basis_derivatives (K N : nat) (B : StaticMatrix) (ts : list S)
    : StaticMatrix :=
  let ret := mnew (K + 1) N in
  (foldl (fun st t =>
     let U := monomial_derivative K t 1 in
     let U_B := mmul 1 (K + 1) (K + 1) U B in
     let ret := for_range 0 (K + 1) (fun i ret => mset ret i st.2 (mget U_B 0 i)) st.1 in
     (ret, st.2 + 1))
     (ret, 0) ts).1.

End BasisDerivatives.

(** *** so3.hpp: [project_so2] *)

Section ProjectSO2.
Local Open Scope R_scope.

(** [std::atan2] on the real numbers: the angle in [(-PI, PI]] of the point
    [(x, y)], and zero at the origin.  The real numbers have one zero: on
    the negative x axis, where [std::atan2] returns [PI] for [y = +0.0] and
    [-PI] for [y = -0.0], the model returns [PI], and the statements that
    reach this case are about the absolute value. *)
Definition atan2 (y x : R) : R :=
  if Rlt_dec 0 x then atan (y / x)
  else if Rlt_dec x 0 then
    if Rle_dec 0 y then atan (y / x) + PI else atan (y / x) - PI
  else if Rlt_dec 0 y then PI / 2
  else if Rlt_dec y 0 then - (PI / 2)
  else 0.

(** The angle [yaw] that [SO3Base::project_so2] computes from the
    quaternion and hands to the constructor of [SO2], which is declared in
    so2.hpp. *)
Definition project_so2_yaw (q : Coeffs) : R :=
  atan2 (2 * (q_w q * q_z q + q_x q * q_y q))
        (1 - 2 * (q_y q * q_y q + q_z q * q_z q)).

End ProjectSO2.

(** * Properties *)

(** ** Counted loops and matrices *)

Lemma for_range_ind {St : Type} (Inv : nat -> St -> Prop) (lo hi : nat)
    (body : nat -> St -> St) (s : St) :
  lo <= hi ->
  Inv lo s ->
  (forall i t, lo <= i < hi -> Inv i t -> Inv (Datatypes.S i) (body i t)) ->
  Inv hi (for_range lo hi body s).
Proof.
  intros Hle H0 Hstep. unfold for_range.
  replace hi with (lo + (hi - lo)) at 1 by lia.
  assert (Hn : hi - lo <= hi - lo) by lia.
  revert Hn. generalize (hi - lo) at 1 3 4 as n.
  induction n as [|n IH]; intros Hn.
  - simpl. by rewrite Nat.add_0_r.
  - rewrite seq_S, foldl_app. simpl.
    replace (lo + Datatypes.S n) with (Datatypes.S (lo + n)) by lia.
    apply Hstep; [lia|]. apply IH. lia.
Qed.

Section MatrixFacts.
Context {S : Type} `{ScalarOps S}.
Implicit Types M : list (list S).

Lemma dims_mzero r c : dims (mzero r c) r c.
Proof.
  split; [apply length_replicate|].
  apply Forall_replicate, length_replicate.
Qed.

Lemma dims_mset M r c i j v : dims M r c -> dims (mset M i j v) r c.
Proof.
  unfold dims, mset, StaticMatrix. intros [Hl Hr]. split.
  - by rewrite length_alter.
  - apply Forall_alter; [done|].
    intros row _ Hrow. by rewrite length_insert.
Qed.

Lemma mlookup_mset_eq M r c i j v :
  dims M r c -> i < r -> j < c -> mlookup (mset M i j v) i j = Some v.
Proof.
  unfold dims, mlookup, mset, StaticMatrix. intros [Hl Hr] Hi Hj.
  rewrite list_lookup_alter_eq.
  destruct (lookup_lt_is_Some_2 M i) as [row Hrow]; [lia|].
  rewrite Hrow. simpl.
  apply list_lookup_insert_eq.
  rewrite Forall_lookup in Hr. rewrite (Hr _ _ Hrow). done.
Qed.

Lemma mlookup_mset_ne M i j a b v :
  (a, b) <> (i, j) -> mlookup (mset M i j v) a b = mlookup M a b.
Proof.
  unfold mlookup, mset, StaticMatrix. intros Hne.
  destruct (decide (i = a)) as [->|Hia].
  - rewrite list_lookup_alter_eq.
    destruct (M !! a) as [row|]; simpl; [|done].
    apply list_lookup_insert_ne. congruence.
  - by rewrite list_lookup_alter_ne.
Qed.

Lemma mget_mset_eq M r c i j v :
  dims M r c -> i < r -> j < c -> mget (mset M i j v) i j = v.
Proof. intros. unfold mget. by erewrite mlookup_mset_eq. Qed.

End MatrixFacts.

(** ** [monomial_integral] *)

Section MonomialIntegralFacts.
Context {S : Type} `{ScalarOps S} `{StaticMatrixOps S}.

(** One pass of the inner loop: row and column [i] are filled from the
    diagonal on, and what was filled before stays as it was. *)
Lemma monomial_integral_inner_loop (K P i : nat) (M : list (list S)) :
  i <= K ->
  dims M (K + 1) (K + 1) ->
  (forall a b, a <= K -> b <= K -> a `min` b < i ->
     mlookup M a b = Some (monomial_integral_entry P (a `min` b) (a `max` b))) ->
  let M' := for_range i (K + 1) (fun j ret =>
              let ret := mset ret i j (monomial_integral_entry P i j) in
              mset ret j i (mget ret i j)) M in
  dims M' (K + 1) (K + 1) /\
  (forall a b, a <= K -> b <= K -> a `min` b < Datatypes.S i ->
     mlookup M' a b = Some (monomial_integral_entry P (a `min` b) (a `max` b))).
Proof.
  intros Hi Hd Hold M'.
  assert (Hinv : dims M' (K + 1) (K + 1) /\
    (forall a b, a <= K -> b <= K ->
       a `min` b < i \/ (a `min` b = i /\ a `max` b < K + 1) ->
       mlookup M' a b = Some (monomial_integral_entry P (a `min` b) (a `max` b)))).
  { subst M'.
    apply (for_range_ind (fun j (N : list (list S)) =>
      dims N (K + 1) (K + 1) /\
      (forall a b, a <= K -> b <= K ->
         a `min` b < i \/ (a `min` b = i /\ a `max` b < j) ->
         mlookup N a b = Some (monomial_integral_entry P (a `min` b) (a `max` b))))).
    - lia.
    - split; [done|]. intros a b Ha Hb [Hlt|[Hmin Hlt]]; [by apply Hold|lia].
    - intros j N Hj [HdN HN]. cbv beta zeta.
      assert (Hd1 : dims (mset N i j (monomial_integral_entry P i j)) (K + 1) (K + 1))
        by by apply dims_mset.
      rewrite (mget_mset_eq N (K + 1) (K + 1)) by (done || lia).
      split; [by apply dims_mset|].
      intros a b Ha Hb Hab.
      destruct (decide ((a, b) = (j, i))) as [Heq|Hne1].
      + injection Heq as -> ->.
        rewrite (mlookup_mset_eq _ (K + 1) (K + 1)) by (done || lia).
        f_equal. f_equal; lia.
      + rewrite mlookup_mset_ne by done.
        destruct (decide ((a, b) = (i, j))) as [Heq|Hne2].
        * injection Heq as -> ->.
          rewrite (mlookup_mset_eq _ (K + 1) (K + 1)) by (done || lia).
          f_equal. f_equal; lia.
        * rewrite mlookup_mset_ne by done.
          apply HN; [done..|].
          destruct Hab as [Hlt|[Hmin Hmax]]; [by left|right].
          split; [done|].
          assert (a `max` b <> j); [|lia].
          intros Hmj. destruct (Nat.le_ge_cases a b).
          -- apply Hne2. f_equal; lia.
          -- apply Hne1. f_equal; lia. }
  destruct Hinv as [Hd' Hall]. split; [done|].
  intros a b Ha Hb Hab. apply Hall; [done..|]. lia.
Qed.

(** Every entry of the result within the bounds is the value computed
    for its ordered index pair. *)
Lemma monomial_integral_lookup (K P a b : nat) :
  a <= K -> b <= K ->
  mlookup (monomial_integral K P) a b
  = Some (monomial_integral_entry P (a `min` b) (a `max` b)).
Proof.
  intros Ha Hb. unfold monomial_integral.
  assert (Hinv : dims (monomial_integral K P) (K + 1) (K + 1) /\
    (forall a b, a <= K -> b <= K -> a `min` b < K + 1 ->
       mlookup (monomial_integral K P) a b
       = Some (monomial_integral_entry P (a `min` b) (a `max` b)))).
  { unfold monomial_integral.
    apply (for_range_ind (fun i (N : list (list S)) =>
      dims N (K + 1) (K + 1) /\
      (forall a b, a <= K -> b <= K -> a `min` b < i ->
         mlookup N a b = Some (monomial_integral_entry P (a `min` b) (a `max` b))))).
    - lia.
    - split; [apply mnew_dims|]. intros; lia.
    - intros i N Hi [HdN HN].
      apply monomial_integral_inner_loop; [lia|done..]. }
  apply Hinv; [done..|lia].
Qed.

Lemma monomial_integral_entry_below (P i j : nat) :
  i < P \/ j < P -> monomial_integral_entry P i j = cast 0.
Proof.
  intros Hlt. unfold monomial_integral_entry.
  destruct (P <=? i) eqn:Hi; [|done].
  destruct (P <=? j) eqn:Hj; [|done].
  apply Nat.leb_le in Hi, Hj. lia.
Qed.

End MonomialIntegralFacts.

(** C9.  For every maximal degree [K] and differentiation order [P], the
    matrix returned by [monomial_integral] is symmetric: the entries
    [(i, j)] and [(j, i)] exist and are equal for all [i, j <= K]; and the
    entry [(i, j)] is zero whenever [i < P] or [j < P]. *)
Theorem monomial_integral_symmetric_zero
    {S : Type} `{ScalarOps S} `{StaticMatrixOps S} (K P i j : nat) :
  i <= K -> j <= K ->
  (exists v, mlookup (monomial_integral K P) i j = Some v /\
             mlookup (monomial_integral K P) j i = Some v) /\
  (i < P \/ j < P -> mlookup (monomial_integral K P) i j = Some (cast 0)).
Proof.
  intros Hi Hj. split.
  - exists (monomial_integral_entry P (i `min` j) (i `max` j)). split.
    + by apply monomial_integral_lookup.
    + rewrite monomial_integral_lookup by done.
      by rewrite Nat.min_comm, Nat.max_comm.
  - intros Hlt. rewrite monomial_integral_lookup by done.
    f_equal. apply monomial_integral_entry_below. lia.
Qed.

Lemma monomial_integral_symmetric_zero_witness :
  (exists v : Q, mlookup (monomial_integral 3 2) 1 3 = Some v /\
                 mlookup (monomial_integral 3 2) 3 1 = Some v) /\
  (1 < 2 \/ 3 < 2 -> mlookup (monomial_integral (S := Q) 3 2) 1 3 = Some (cast 0)).
Proof. apply (monomial_integral_symmetric_zero (S := Q) 3 2 1 3); lia. Defined.

Example monomial_integral_2_1 :
  monomial_integral (S := Q) 2 1 = [[0; 0; 0]; [0; 1; 1]; [0; 1; 4 # 3]]%Q.
Proof. vm_compute. reflexivity. Qed.

(** ** The two B-spline coefficient recursions *)

(** The cubic B-spline coefficient matrix, one sixth of
    [[1 4 1 0; -3 0 3 0; 3 -6 3 0; -1 3 -3 1]]. *)
Example bspline_basis_3 :
  bspline_basis (S := Q) 3
  = [[1 # 6; 2 # 3; 1 # 6; 0]; [-1 # 2; 0; 1 # 2; 0];
     [1 # 2; -1; 1 # 2; 0]; [-1 # 6; 1 # 2; -1 # 2; 1 # 6]]%Q.
Proof. vm_compute. reflexivity. Qed.

(** C10.  For every degree [K] and scalar type, the matrix computed by
    [detail::bspline_basis] of the polynomial header equals, entry by
    entry, the matrix computed by [detail::bspline_coefmat] of the
    spline-interpolation header. *)
Theorem bspline_basis_eq_bspline_coefmat
    {S : Type} `{ScalarOps S} `{StaticMatrixOps S} (K : nat) :
  bspline_basis K = bspline_coefmat K /\
  (forall i j, mlookup (bspline_basis K) i j = mlookup (bspline_coefmat K) i j).
Proof.
  assert (Heq : bspline_basis K = bspline_coefmat K).
  { induction K as [|K IH]; [reflexivity|].
    cbn [bspline_basis bspline_coefmat]. by rewrite IH. }
  split; [done|]. intros i j. by rewrite Heq.
Qed.

(** ** [cspline_eval]: the size checks *)

(** A quadratic cumulative B-spline on the line through the control points
    [0], [1], [3] at [u = 1/2]: value [9/8], velocity [3/2], acceleration
    [1], and the basis values [1/8, 3/4, 1/8] as derivatives with respect
    to the control points. *)
Example cspline_eval_line :
  cspline_eval_ctrl_points 2 [[0]; [1]; [3]]%Q
    [[1; 0; 0]; [1 # 2; 1; -1 # 2]; [0; 0; 1 # 2]]%Q (1 # 2)%Q
    (mkOutputs (Some [7]) (Some [7]) (Some [[7; 7; 7]]))%Q
  = (inr [9 # 8], mkOutputs (Some [3 # 2]) (Some [1]) (Some [[1 # 8; 3 # 4; 1 # 8]]))%Q.
Proof. vm_compute. reflexivity. Qed.

(** Asking for the acceleration without the velocity dereferences the
    empty [vel]. *)
Example cspline_eval_acc_without_vel :
  cspline_eval 1 [0]%Q [[1]]%Q [[1; 0]; [0; 1]]%Q (1 # 2)%Q (mkOutputs None (Some [7]) None)%Q
  = (inl bad_optional_access, mkOutputs None (Some [7]) None)%Q.
Proof. vm_compute. reflexivity. Qed.

(** C8.  Called with a [diff_points] range whose size differs from [K], or
    with a [ctrl_points] range whose size differs from [K + 1],
    [cspline_eval] throws the size error of the respective check, returns no
    group value, and leaves the outputs [vel], [acc] and [der] exactly as
    they were passed in. *)
Theorem cspline_eval_size_mismatch
    {S : Type} `{ScalarOps S} `{LieImpl S}
    (K : nat) (g_0 : list S) (diff_points ctrl_points cum_coef_mat : list (list S))
    (u : S) (o : Outputs) :
  (length diff_points <> K ->
   cspline_eval K g_0 diff_points cum_coef_mat u o
   = (inl (runtime_error
        ("cspline_eval: diff_points range must be size K=" ++ to_string K
         ++ ", got " ++ to_string (length diff_points))%string), o)) /\
  (length ctrl_points <> K + 1 ->
   cspline_eval_ctrl_points K ctrl_points cum_coef_mat u o
   = (inl (runtime_error
        ("cspline_eval: ctrl_points range must be size K+1=" ++ to_string (K + 1)
         ++ ", got " ++ to_string (length ctrl_points))%string), o)).
Proof.
  split; intros Hlen.
  - unfold cspline_eval.
    destruct (length diff_points =? K) eqn:E; [apply Nat.eqb_eq in E; done|].
    reflexivity.
  - unfold cspline_eval_ctrl_points.
    destruct (length ctrl_points =? K + 1) eqn:E; [apply Nat.eqb_eq in E; done|].
    reflexivity.
Qed.

Lemma cspline_eval_size_mismatch_witness :
  cspline_eval 2 [0%Q] [[1%Q]] [] (1 # 2)%Q
    (mkOutputs (Some [7%Q]) None (Some [[7%Q; 7%Q; 7%Q]]))
  = (inl (runtime_error "cspline_eval: diff_points range must be size K=2, got 1"),
     mkOutputs (Some [7%Q]) None (Some [[7%Q; 7%Q; 7%Q]])) /\
  cspline_eval_ctrl_points 2 [[0%Q]; [1%Q]] [] (1 # 2)%Q
    (mkOutputs (Some [7%Q]) None (Some [[7%Q; 7%Q; 7%Q]]))
  = (inl (runtime_error "cspline_eval: ctrl_points range must be size K+1=3, got 2"),
     mkOutputs (Some [7%Q]) None (Some [[7%Q; 7%Q; 7%Q]])).
Proof.
  destruct (cspline_eval_size_mismatch 2 [0%Q] [[1%Q]] [[0%Q]; [1%Q]] [] (1 # 2)%Q
              (mkOutputs (Some [7%Q]) None (Some [[7%Q; 7%Q; 7%Q]]))) as [Hd Hc].
  split; [apply Hd|apply Hc]; simpl; lia.
Defined.

(** ** Taylor tails: selection by the squared magnitude *)

Section TaylorFacts.
Local Open Scope R_scope.

Lemma sqrt_square_abs (x : R) : sqrt (x * x) = Rabs x.
Proof. apply sqrt_Rsqr_abs. Qed.

Lemma cos_Rabs (x : R) : cos (Rabs x) = cos x.
Proof.
  unfold Rabs. destruct (Rcase_abs x); [apply cos_neg|reflexivity].
Qed.

(** The odd quotients are the same at [x] and at [Rabs x]. *)
Lemma odd_quotient_Rabs (p q : R -> R) (x : R) :
  (forall y, p (- y) = - p y) -> (forall y, q (- y) = - q y) ->
  p (Rabs x) / q (Rabs x) = p x / q x.
Proof.
  intros Hp Hq. unfold Rabs. destruct (Rcase_abs x); [|reflexivity].
  rewrite Hp, Hq. unfold Rdiv.
  destruct (Req_dec (q x) 0) as [Hz|Hnz].
  - rewrite Hz, Ropp_0, Rinv_0. lra.
  - field. exact Hnz.
Qed.

End TaylorFacts.

(** C4.  For a squared argument [x2 >= 0] and any [x] of either sign with
    [x * x = x2], each Taylor-tail primitive returns the closed-form ratio
    at [x] when [x2 > eps2] and the truncated Taylor series in [x2] when
    [x2 <= eps2]: the choice depends on the magnitude of [x2] only. *)
Theorem taylor_tail_selection (x2 x : R) :
  (0 <= x2)%R -> (x * x = x2)%R ->
  ((eps2 < x2)%R ->
     cos_2 x2 = ((cos x - 1) / (x * x))%R /\
     sin_3 x2 = ((sin x - x) / (x * x * x))%R /\
     cos_4 x2 = ((cos x - 1 + x * x / 2) / (x * x * (x * x)))%R /\
     sin_5 x2 = ((sin x - x + x * x * x / 6) / (x * x * (x * x) * x))%R /\
     cos_6 x2 = ((cos x - 1 + x * x / 2 - x * x * (x * x) / 24)
                 / (x * x * (x * x) * (x * x)))%R) /\
  ((x2 <= eps2)%R ->
     cos_2 x2 = (- 1 / 2 + x2 / 24 - x2 * x2 / 720)%R /\
     sin_3 x2 = (- 1 / 6 + x2 / 120 - x2 * x2 / 5040)%R /\
     cos_4 x2 = (1 / 24 - x2 / 720 + x2 * x2 / 40320)%R /\
     sin_5 x2 = (1 / 120 - x2 / 5040 + x2 * x2 / 362880)%R /\
     cos_6 x2 = (- 1 / 720 + x2 / 40320 - x2 * x2 / 3628800)%R).
Proof.
  intros _ Hx. subst x2. split; intros Hcmp.
  - unfold cos_2, sin_3, cos_4, sin_5, cos_6.
    destruct (Rlt_dec eps2 (x * x)) as [_|Hn]; [|contradiction].
    cbv zeta. rewrite sqrt_square_abs, cos_Rabs.
    repeat split; try reflexivity.
    + apply (odd_quotient_Rabs (fun y => sin y - y) (fun y => x * x * y))%R;
        intros y; rewrite ?sin_neg; ring.
    + apply (odd_quotient_Rabs (fun y => sin y - y + x * x * y / 6)
                               (fun y => x * x * (x * x) * y))%R;
        intros y; rewrite ?sin_neg; field.
  - unfold cos_2, sin_3, cos_4, sin_5, cos_6.
    destruct (Rlt_dec eps2 (x * x)) as [Hlt|_]; [lra|].
    repeat split; reflexivity.
Qed.

Lemma taylor_tail_selection_witness :
  cos_2 4 = ((cos (- 2) - 1) / (- 2 * - 2))%R /\
  sin_3 4 = ((sin (- 2) - - 2) / (- 2 * - 2 * - 2))%R.
Proof.
  assert (H4 : (0 <= 4)%R) by lra.
  assert (Hsq : (- 2 * - 2 = 4)%R) by lra.
  assert (Hlt : (eps2 < 4)%R) by (unfold eps2; lra).
  destruct (proj1 (taylor_tail_selection 4 (- 2) H4 Hsq) Hlt) as (Hc & Hs & _).
  split; [exact Hc|exact Hs].
Defined.

(** ** The [SO3] constructors establish the group constraint *)

Section SO3Facts.
Local Open Scope R_scope.

Lemma squaredNorm_scale_m1 (q : Coeffs) :
  squaredNorm (coeffs_scale (-1) q) = squaredNorm q.
Proof. unfold squaredNorm, coeffs_scale. simpl. ring. Qed.

(** The sign fix-up of the constructors keeps the norm and makes the
    scalar part non-negative. *)
Lemma sign_fix_constraint (q : Coeffs) :
  squaredNorm q = 1 ->
  so3_constraint (if Rlt_dec (q_w q) 0 then coeffs_scale (-1) q else q).
Proof.
  intros Hn. unfold so3_constraint.
  destruct (Rlt_dec (q_w q) 0) as [Hneg|Hpos].
  - rewrite squaredNorm_scale_m1. split; [exact Hn|]. simpl. lra.
  - split; [exact Hn|]. lra.
Qed.

Lemma squaredNorm_pos (q : Coeffs) :
  q <> mkCoeffs 0 0 0 0 -> 0 < squaredNorm q.
Proof.
  intros Hq. destruct q as [x y z w]. unfold squaredNorm. simpl.
  assert (Hnn : 0 <= x * x + y * y + z * z + w * w) by nra.
  destruct (Req_dec (x * x + y * y + z * z + w * w) 0) as [Hz|Hnz]; [|lra].
  exfalso. apply Hq.
  assert (x = 0) by nra. assert (y = 0) by nra.
  assert (z = 0) by nra. assert (w = 0) by nra.
  congruence.
Qed.

Lemma squaredNorm_normalized (q : Coeffs) :
  0 < squaredNorm q -> squaredNorm (normalized q) = 1.
Proof.
  intros Hpos. unfold normalized.
  destruct (Rlt_dec 0 (squaredNorm q)) as [_|Hn]; [|contradiction].
  pose proof (sqrt_lt_R0 _ Hpos) as Hs.
  pose proof (sqrt_sqrt (squaredNorm q) (Rlt_le _ _ Hpos)) as Hss.
  unfold squaredNorm at 1. simpl.
  replace (q_x q / sqrt (squaredNorm q) * (q_x q / sqrt (squaredNorm q))
           + q_y q / sqrt (squaredNorm q) * (q_y q / sqrt (squaredNorm q))
           + q_z q / sqrt (squaredNorm q) * (q_z q / sqrt (squaredNorm q))
           + q_w q / sqrt (squaredNorm q) * (q_w q / sqrt (squaredNorm q)))
    with (squaredNorm q / (sqrt (squaredNorm q) * sqrt (squaredNorm q))).
  - rewrite Hss. field. lra.
  - unfold squaredNorm at 1. field. lra.
Qed.

Lemma squaredNorm_axis (s c : R) :
  s * s + c * c = 1 ->
  squaredNorm (mkCoeffs s 0 0 c) = 1 /\
  squaredNorm (mkCoeffs 0 s 0 c) = 1 /\
  squaredNorm (mkCoeffs 0 0 s c) = 1.
Proof. intros Hsc. unfold squaredNorm. simpl. repeat split; lra. Qed.

Lemma sin_cos_half (angle : R) :
  sin (angle / 2) * sin (angle / 2) + cos (angle / 2) * cos (angle / 2) = 1.
Proof. pose proof (sin2_cos2 (angle / 2)) as Hsc. unfold Rsqr in Hsc. exact Hsc. Qed.

End SO3Facts.



(** At [double] the constructor normalises in the ordinary range of
    magnitudes. *)
Example SO3_of_quat_double_ordinary :
  so3_constraint_double 0x1p-50 (SO3_of_quat_double (mkCoeffsD 1 2 0 (-3))) = true.
Proof. vm_compute. reflexivity. Qed.



(** * Further properties of the modelled code *)

(** ** Version checks *)

Ltac version_cases :=
  repeat match goal with
         | |- context [(?a =? ?b)%Z] => destruct (Z.eqb_spec a b)
         | |- context [(?a <? ?b)%Z] => destruct (Z.ltb_spec a b)
         | |- context [(?a >? ?b)%Z] => rewrite (Z.gtb_ltb a b); destruct (Z.ltb_spec b a)
         end.

(** The chain of conditionals of [SMOOTH_VERSION_GTE] as an order. *)
Lemma version_gte_lex_aux (v : Version) (major minor patch : Z) :
  SMOOTH_VERSION_GTE v major minor patch = true <->
  (major < SMOOTH_VERSION_MAJOR v \/
   (major = SMOOTH_VERSION_MAJOR v /\
    (minor < SMOOTH_VERSION_MINOR v \/
     (minor = SMOOTH_VERSION_MINOR v /\ patch <= SMOOTH_VERSION_PATCH v))))%Z.
Proof.
  unfold SMOOTH_VERSION_GTE.
  version_cases; split; (lia || discriminate || reflexivity).
Qed.

(** [SMOOTH_VERSION_GTE] holds exactly when the given triple is at most the
    library version in the lexicographic order of (major, minor, patch). *)
Theorem version_gte_lexicographic (v : Version) (major minor patch : Z) :
  SMOOTH_VERSION_GTE v major minor patch = true <->
  (major < SMOOTH_VERSION_MAJOR v \/
   (major = SMOOTH_VERSION_MAJOR v /\
    (minor < SMOOTH_VERSION_MINOR v \/
     (minor = SMOOTH_VERSION_MINOR v /\ patch <= SMOOTH_VERSION_PATCH v))))%Z.
Proof. apply version_gte_lex_aux. Qed.

Lemma version_gte_lexicographic_witness :
  SMOOTH_VERSION_GTE (mkVersion 0 6 1) 0 5 2 = true.
Proof.
  apply (proj2 (version_gte_lexicographic (mkVersion 0 6 1) 0 5 2)). simpl. lia.
Defined.

(** [SMOOTH_VERSION_EQ] holds exactly for the library's own triple, and
    exactly when [SMOOTH_VERSION_GTE] holds in both directions. *)
Theorem version_eq_iff (v : Version) (major minor patch : Z) :
  (SMOOTH_VERSION_EQ v major minor patch = true <-> mkVersion major minor patch = v) /\
  (SMOOTH_VERSION_EQ v major minor patch
   = SMOOTH_VERSION_GTE v major minor patch
     && SMOOTH_VERSION_GTE (mkVersion major minor patch)
          (SMOOTH_VERSION_MAJOR v) (SMOOTH_VERSION_MINOR v) (SMOOTH_VERSION_PATCH v)).
Proof.
  destruct v as [M m p]. unfold SMOOTH_VERSION_EQ, SMOOTH_VERSION_GTE. simpl. split.
  - version_cases; simpl; split; (congruence || discriminate).
  - version_cases; simpl; (reflexivity || lia).
Qed.

Lemma version_eq_iff_witness :
  SMOOTH_VERSION_EQ (mkVersion 0 6 1) 0 6 1 = true.
Proof.
  apply (proj2 (proj1 (version_eq_iff (mkVersion 0 6 1) 0 6 1))). reflexivity.
Defined.

(** A version check that passes against a library version keeps passing
    against every later library version. *)
Theorem version_gte_monotone (v v' : Version) (major minor patch : Z) :
  SMOOTH_VERSION_GTE v major minor patch = true ->
  SMOOTH_VERSION_GTE v' (SMOOTH_VERSION_MAJOR v) (SMOOTH_VERSION_MINOR v)
    (SMOOTH_VERSION_PATCH v) = true ->
  SMOOTH_VERSION_GTE v' major minor patch = true.
Proof.
  intros H1 H2.
  apply version_gte_lex_aux in H1. apply version_gte_lex_aux in H2.
  apply version_gte_lex_aux. lia.
Qed.

Lemma version_gte_monotone_witness :
  SMOOTH_VERSION_GTE (mkVersion 1 0 0) 0 5 2 = true.
Proof.
  apply (version_gte_monotone (mkVersion 0 6 1) (mkVersion 1 0 0) 0 5 2); reflexivity.
Defined.

(** ** The [SO3] constructors as a canonical form *)

Section SO3Canonical.
Local Open Scope R_scope.

Lemma coeffs_ext (p q : Coeffs) :
  q_x p = q_x q -> q_y p = q_y q -> q_z p = q_z q -> q_w p = q_w q -> p = q.
Proof. destruct p, q. simpl. intros -> -> -> ->. reflexivity. Qed.

Lemma normalized_unit (q : Coeffs) : squaredNorm q = 1 -> normalized q = q.
Proof.
  intros Hn. unfold normalized. rewrite Hn.
  destruct (Rlt_dec 0 1) as [_|Hno]; [|lra].
  rewrite sqrt_1. apply coeffs_ext; simpl; field.
Qed.

Lemma squaredNorm_scale (a : R) (q : Coeffs) :
  squaredNorm (coeffs_scale a q) = a * a * squaredNorm q.
Proof. unfold squaredNorm, coeffs_scale. simpl. ring. Qed.

Lemma squaredNorm_pos_w (q : Coeffs) : q_w q <> 0 -> 0 < squaredNorm q.
Proof. intros Hw. unfold squaredNorm. nra. Qed.

(** Scaling the argument by [a > 0] does not change its normalisation;
    scaling by [a < 0] negates it. *)
Lemma normalized_scale_pos (a : R) (q : Coeffs) :
  0 < a -> 0 < squaredNorm q -> normalized (coeffs_scale a q) = normalized q.
Proof.
  intros Ha Hs. unfold normalized. rewrite squaredNorm_scale.
  assert (Haa : 0 < a * a) by nra.
  pose proof (Rmult_lt_0_compat _ _ Haa Hs) as Hprod.
  destruct (Rlt_dec 0 (a * a * squaredNorm q)) as [_|Hno]; [|contradiction].
  destruct (Rlt_dec 0 (squaredNorm q)) as [_|Hno]; [|lra].
  rewrite sqrt_mult by nra. rewrite sqrt_square by lra.
  pose proof (sqrt_lt_R0 _ Hs).
  apply coeffs_ext; simpl; field; lra.
Qed.

Lemma normalized_scale_neg (a : R) (q : Coeffs) :
  a < 0 -> 0 < squaredNorm q ->
  normalized (coeffs_scale a q) = coeffs_scale (-1) (normalized q).
Proof.
  intros Ha Hs. unfold normalized. rewrite squaredNorm_scale.
  assert (Haa : 0 < a * a) by nra.
  pose proof (Rmult_lt_0_compat _ _ Haa Hs) as Hprod.
  destruct (Rlt_dec 0 (a * a * squaredNorm q)) as [_|Hno]; [|contradiction].
  destruct (Rlt_dec 0 (squaredNorm q)) as [_|Hno]; [|lra].
  replace (a * a) with (- a * - a) by ring.
  rewrite sqrt_mult by nra. rewrite sqrt_square by lra.
  pose proof (sqrt_lt_R0 _ Hs).
  apply coeffs_ext; simpl; field; lra.
Qed.

Lemma normalized_w_nonzero (q : Coeffs) :
  q_w q <> 0 -> q_w (normalized q) <> 0.
Proof.
  intros Hw. pose proof (squaredNorm_pos_w q Hw) as Hs.
  unfold normalized. destruct (Rlt_dec 0 (squaredNorm q)) as [_|Hno]; [|lra].
  simpl. pose proof (sqrt_lt_R0 _ Hs).
  intros Hz. apply Hw.
  apply (Rmult_eq_reg_r (/ sqrt (squaredNorm q))).
  - unfold Rdiv in Hz. rewrite Hz. ring.
  - apply Rinv_neq_0_compat. lra.
Qed.

Lemma sign_fix_neg (n : Coeffs) :
  q_w n <> 0 ->
  (if Rlt_dec (q_w (coeffs_scale (-1) n)) 0
   then coeffs_scale (-1) (coeffs_scale (-1) n) else coeffs_scale (-1) n)
  = (if Rlt_dec (q_w n) 0 then coeffs_scale (-1) n else n).
Proof.
  intros Hw. simpl.
  destruct (Rlt_dec (q_w n * -1) 0), (Rlt_dec (q_w n) 0); try lra.
  - apply coeffs_ext; simpl; ring.
  - reflexivity.
Qed.

(** With scalar part zero the constructor only normalises. *)
Lemma SO3_of_quat_zero_w (q : Coeffs) : q_w q = 0 -> SO3_of_quat q = normalized q.
Proof.
  intros Hw. unfold SO3_of_quat. cbv zeta.
  assert (Hn : q_w (normalized q) = 0).
  { unfold normalized. destruct (Rlt_dec 0 (squaredNorm q)); simpl; rewrite Hw;
      [unfold Rdiv; ring|reflexivity]. }
  rewrite Hn. destruct (Rlt_dec 0 0); [lra|reflexivity].
Qed.

Lemma squaredNorm_zero (q : Coeffs) : ~ 0 < squaredNorm q -> q = mkCoeffs 0 0 0 0.
Proof.
  intros Hs. unfold squaredNorm in Hs.
  apply coeffs_ext; simpl; nra.
Qed.

Lemma normalized_zero : normalized (mkCoeffs 0 0 0 0) = mkCoeffs 0 0 0 0.
Proof.
  unfold normalized, squaredNorm. simpl.
  destruct (Rlt_dec 0 _) as [Hpos|_]; [lra|reflexivity].
Qed.

Lemma SO3_of_quat_unit (q : Coeffs) : so3_constraint q -> SO3_of_quat q = q.
Proof.
  intros [Hn Hw]. unfold SO3_of_quat. cbv zeta.
  rewrite normalized_unit by exact Hn.
  destruct (Rlt_dec (q_w q) 0) as [Hneg|_]; [lra|reflexivity].
Qed.

End SO3Canonical.

(** Constructing an [SO3] from the coefficients of an element that already
    satisfies the group constraint returns these coefficients unchanged. *)
Theorem SO3_of_quat_fixes_valid (q : Coeffs) :
  so3_constraint q -> SO3_of_quat q = q.
Proof. apply SO3_of_quat_unit. Qed.

Lemma SO3_of_quat_fixes_valid_witness :
  SO3_of_quat (mkCoeffs 0 1 0 0) = mkCoeffs 0 1 0 0.
Proof.
  apply SO3_of_quat_fixes_valid. unfold so3_constraint, squaredNorm. simpl.
  split; lra.
Defined.

(** In exact real arithmetic.  A quaternion with non-zero scalar part and
    all its non-zero real multiples, the negative ones included, construct
    the same [SO3] element.  With scalar part zero the sign is left as
    given: the positive multiples construct the same element, the negative
    ones its negative. *)
Theorem SO3_of_quat_scale_invariant (a : R) (q : Coeffs) :
  a <> 0%R ->
  (q_w q <> 0%R -> SO3_of_quat (coeffs_scale a q) = SO3_of_quat q) /\
  (q_w q = 0%R ->
   SO3_of_quat (coeffs_scale a q)
   = if Rlt_dec 0 a then SO3_of_quat q else coeffs_scale (-1) (SO3_of_quat q)).
Proof.
  intros Ha. split.
  - intros Hw. pose proof (squaredNorm_pos_w q Hw) as Hs.
    unfold SO3_of_quat. cbv zeta.
    destruct (Rtotal_order a 0) as [Hneg|[Hz|Hpos]]; [|contradiction|].
    + rewrite normalized_scale_neg by assumption.
      apply sign_fix_neg, normalized_w_nonzero, Hw.
    + rewrite normalized_scale_pos by assumption. reflexivity.
  - intros Hw.
    assert (Hwa : q_w (coeffs_scale a q) = 0%R) by (simpl; rewrite Hw; ring).
    rewrite !SO3_of_quat_zero_w by assumption.
    destruct (Rlt_dec 0 (squaredNorm q)) as [Hs|Hs].
    + destruct (Rlt_dec 0 a) as [Hpos|Hneg].
      * by apply normalized_scale_pos.
      * apply normalized_scale_neg; [lra|exact Hs].
    + rewrite (squaredNorm_zero q Hs).
      assert (H0 : coeffs_scale a (mkCoeffs 0 0 0 0) = mkCoeffs 0 0 0 0)
        by (apply coeffs_ext; simpl; ring).
      rewrite H0, normalized_zero.
      destruct (Rlt_dec 0 a); [reflexivity|].
      apply coeffs_ext; simpl; ring.
Qed.

Lemma SO3_of_quat_scale_invariant_witness :
  (q_w (mkCoeffs 0 0 1 2) <> 0%R ->
   SO3_of_quat (coeffs_scale (-3) (mkCoeffs 0 0 1 2)) = SO3_of_quat (mkCoeffs 0 0 1 2)) /\
  (q_w (mkCoeffs 0 0 1 2) = 0%R ->
   SO3_of_quat (coeffs_scale (-3) (mkCoeffs 0 0 1 2))
   = if Rlt_dec 0 (-3) then SO3_of_quat (mkCoeffs 0 0 1 2)
     else coeffs_scale (-1) (SO3_of_quat (mkCoeffs 0 0 1 2))).
Proof. apply (SO3_of_quat_scale_invariant (-3) (mkCoeffs 0 0 1 2)). lra. Defined.

(** With scalar part zero the sign is not fixed: a quaternion and its
    negative construct different coefficient vectors. *)
Example SO3_of_quat_zero_scalar_part :
  SO3_of_quat (mkCoeffs 1 0 0 0) = mkCoeffs 1 0 0 0 /\
  SO3_of_quat (mkCoeffs (-1) 0 0 0) = mkCoeffs (-1) 0 0 0.
Proof.
  split; apply SO3_of_quat_unit; unfold so3_constraint, squaredNorm; simpl;
    split; lra.
Qed.



(** An axis rotation is the element constructed from the quaternion with
    the half-angle sine on the axis and the half-angle cosine as scalar
    part. *)
Theorem rot_as_SO3_of_quat (angle : R) :
  rot_x angle = SO3_of_quat (mkCoeffs (sin (angle / 2)) 0 0 (cos (angle / 2))) /\
  rot_y angle = SO3_of_quat (mkCoeffs 0 (sin (angle / 2)) 0 (cos (angle / 2))) /\
  rot_z angle = SO3_of_quat (mkCoeffs 0 0 (sin (angle / 2)) (cos (angle / 2))).
Proof.
  destruct (squaredNorm_axis _ _ (sin_cos_half angle)) as (Hx & Hy & Hz).
  unfold rot_x, rot_y, rot_z, SO3_of_quat. cbv zeta.
  rewrite !normalized_unit by assumption. repeat split.
Qed.

(** ** Taylor tails: accuracy of the series branch *)

Section TaylorAccuracy.
Local Open Scope R_scope.

Lemma INR_fact_step (n : nat) :
  INR (Factorial.fact (Datatypes.S n)) = (INR n + 1) * INR (Factorial.fact n).
Proof. rewrite fact_simpl, mult_INR, S_INR. reflexivity. Qed.

(** The partial sums of the cosine and sine series, written out. *)
Ltac approx_expand :=
  unfold cos_approx, sin_approx;
  repeat rewrite tech5;
  cbn [sum_f_R0];
  unfold cos_term, sin_term;
  cbn [Nat.mul Nat.add];
  repeat rewrite INR_fact_step;
  change (Factorial.fact 0) with 1%nat;
  cbn [INR].

Lemma cos_approx_3 (x : R) :
  cos_approx x 3 = 1 - x ^ 2 / 2 + x ^ 4 / 24 - x ^ 6 / 720.
Proof. approx_expand. field. Qed.

Lemma cos_approx_4 (x : R) :
  cos_approx x 4 = 1 - x ^ 2 / 2 + x ^ 4 / 24 - x ^ 6 / 720 + x ^ 8 / 40320.
Proof. approx_expand. field. Qed.

Lemma cos_approx_5 (x : R) :
  cos_approx x 5 = 1 - x ^ 2 / 2 + x ^ 4 / 24 - x ^ 6 / 720 + x ^ 8 / 40320
                   - x ^ 10 / 3628800.
Proof. approx_expand. field. Qed.

Lemma cos_approx_6 (x : R) :
  cos_approx x 6 = 1 - x ^ 2 / 2 + x ^ 4 / 24 - x ^ 6 / 720 + x ^ 8 / 40320
                   - x ^ 10 / 3628800 + x ^ 12 / 479001600.
Proof. approx_expand. field. Qed.

Lemma sin_approx_3 (x : R) :
  sin_approx x 3 = x - x ^ 3 / 6 + x ^ 5 / 120 - x ^ 7 / 5040.
Proof. approx_expand. field. Qed.

Lemma sin_approx_4 (x : R) :
  sin_approx x 4 = x - x ^ 3 / 6 + x ^ 5 / 120 - x ^ 7 / 5040 + x ^ 9 / 362880.
Proof. approx_expand. field. Qed.

Lemma sin_approx_5 (x : R) :
  sin_approx x 5 = x - x ^ 3 / 6 + x ^ 5 / 120 - x ^ 7 / 5040 + x ^ 9 / 362880
                   - x ^ 11 / 39916800.
Proof. approx_expand. field. Qed.

(** Below the threshold the unsquared argument is small. *)
Lemma small_argument (x2 : R) :
  0 < x2 -> x2 <= eps2 ->
  0 < sqrt x2 /\ sqrt x2 <= 1 /\ sqrt x2 * sqrt x2 = x2.
Proof.
  intros Hpos Hle. split; [by apply sqrt_lt_R0|]. split.
  - rewrite <- sqrt_1. apply sqrt_le_1_alt. unfold eps2 in Hle. lra.
  - apply sqrt_sqrt. lra.
Qed.

Lemma cos_series_bounds (x : R) :
  0 < x -> x <= 1 ->
  cos_approx x 3 <= cos x <= cos_approx x 4 /\
  cos_approx x 5 <= cos x <= cos_approx x 6.
Proof.
  intros H0 H1. pose proof PI2_1 as Hpi.
  split.
  - apply (cos_bound x 1); lra.
  - apply (cos_bound x 2); lra.
Qed.

Lemma sin_series_bounds (x : R) :
  0 < x -> x <= 1 ->
  sin_approx x 3 <= sin x <= sin_approx x 4 /\
  sin_approx x 5 <= sin x.
Proof.
  intros H0 H1. pose proof PI2_1 as Hpi.
  split.
  - apply (sin_bound x 1); lra.
  - apply (sin_bound x 2); lra.
Qed.

Lemma quotient_between (n d lo hi : R) :
  0 < d -> lo * d <= n -> n <= hi * d -> lo <= n / d <= hi.
Proof.
  intros Hd Hlo Hhi. split.
  - apply (Rmult_le_reg_r d); [exact Hd|].
    unfold Rdiv. rewrite Rmult_assoc, Rinv_l by lra. lra.
  - apply (Rmult_le_reg_r d); [exact Hd|].
    unfold Rdiv. rewrite Rmult_assoc, Rinv_l by lra. lra.
Qed.

End TaylorAccuracy.

(** In exact real arithmetic: the truncation error of the series branch.
    For a squared argument [0 < x2 <= eps2] the polynomial that the cosine
    tails evaluate differs from the exact ratio by at most the first
    omitted term of the series: the difference lies in [[0, x2^3/40320]]
    for [cos_2], in [[-x2^3/3628800, 0]] for [cos_4] and in
    [[0, x2^3/479001600]] for [cos_6].  The rounding of the evaluation in
    [double], which is larger than these bounds, is not part of the
    statement. *)
Theorem taylor_cos_tails_accuracy (x2 : R) :
  (0 < x2)%R -> (x2 <= eps2)%R ->
  let x := sqrt x2 in
  (cos_2 x2 <= (cos x - 1) / x2 <= cos_2 x2 + x2 ^ 3 / 40320)%R /\
  (cos_4 x2 - x2 ^ 3 / 3628800 <= (cos x - 1 + x2 / 2) / (x2 * x2) <= cos_4 x2)%R /\
  (cos_6 x2 <= (cos x - 1 + x2 / 2 - x2 * x2 / 24) / (x2 * x2 * x2)
            <= cos_6 x2 + x2 ^ 3 / 479001600)%R.
Proof.
  intros Hpos Hle x.
  destruct (small_argument x2 Hpos Hle) as (Hx0 & Hx1 & Hsq). fold x in Hx0, Hx1, Hsq.
  destruct (cos_series_bounds x Hx0 Hx1) as [[L3 U4] [L5 U6]].
  rewrite cos_approx_3 in L3. rewrite cos_approx_4 in U4.
  rewrite cos_approx_5 in L5. rewrite cos_approx_6 in U6.
  unfold cos_2, cos_4, cos_6.
  destruct (Rlt_dec eps2 x2) as [Hgt|_]; [lra|].
  clearbody x. subst x2.
  assert (Hx2 : (0 < x * x)%R) by nra.
  assert (Hx4 : (0 < x * x * (x * x))%R) by nra.
  assert (Hx6 : (0 < x * x * (x * x) * (x * x))%R) by nra.
  split; [|split]; apply quotient_between; try assumption; try nra;
    ring_simplify; lra.
Qed.

Lemma taylor_cos_tails_accuracy_witness :
  (cos_2 eps2 <= (cos (sqrt eps2) - 1) / eps2 <= cos_2 eps2 + eps2 ^ 3 / 40320)%R.
Proof.
  assert (Hpos : (0 < eps2)%R) by (unfold eps2; lra).
  assert (Hle : (eps2 <= eps2)%R) by lra.
  exact (proj1 (taylor_cos_tails_accuracy eps2 Hpos Hle)).
Defined.

(** In exact real arithmetic: the truncation error of the series branch.
    For a squared argument [0 < x2 <= eps2] the polynomial that the sine
    tails evaluate differs from the exact ratio by at most the first
    omitted term of the series: the difference lies in [[0, x2^3/362880]]
    for [sin_3] and in [[-x2^3/39916800, 0]] for [sin_5].  The rounding of
    the evaluation in [double], which is larger than these bounds, is not
    part of the statement. *)
Theorem taylor_sin_tails_accuracy (x2 : R) :
  (0 < x2)%R -> (x2 <= eps2)%R ->
  let x := sqrt x2 in
  (sin_3 x2 <= (sin x - x) / (x2 * x) <= sin_3 x2 + x2 ^ 3 / 362880)%R /\
  (sin_5 x2 - x2 ^ 3 / 39916800 <= (sin x - x + x2 * x / 6) / (x2 * x2 * x)
                                <= sin_5 x2)%R.
Proof.
  intros Hpos Hle x.
  destruct (small_argument x2 Hpos Hle) as (Hx0 & Hx1 & Hsq). fold x in Hx0, Hx1, Hsq.
  destruct (sin_series_bounds x Hx0 Hx1) as [[L3 U4] L5].
  rewrite sin_approx_3 in L3. rewrite sin_approx_4 in U4. rewrite sin_approx_5 in L5.
  unfold sin_3, sin_5.
  destruct (Rlt_dec eps2 x2) as [Hgt|_]; [lra|].
  clearbody x. subst x2.
  assert (Hx3 : (0 < x * x * x)%R) by nra.
  assert (Hx5 : (0 < x * x * (x * x) * x)%R) by nra.
  split; apply quotient_between; try assumption; ring_simplify; lra.
Qed.

Lemma taylor_sin_tails_accuracy_witness :
  (sin_3 eps2 <= (sin (sqrt eps2) - sqrt eps2) / (eps2 * sqrt eps2)
              <= sin_3 eps2 + eps2 ^ 3 / 362880)%R.
Proof.
  assert (Hpos : (0 < eps2)%R) by (unfold eps2; lra).
  assert (Hle : (eps2 <= eps2)%R) by lra.
  exact (proj1 (taylor_sin_tails_accuracy eps2 Hpos Hle)).
Defined.

(** Above the threshold each tail is obtained from the next one: removing
    the leading series coefficient and one factor [x2]. *)
Theorem taylor_tail_recurrence (x2 : R) :
  (eps2 < x2)%R ->
  cos_2 x2 = (- 1 / 2 + x2 * cos_4 x2)%R /\
  cos_4 x2 = (1 / 24 + x2 * cos_6 x2)%R /\
  sin_3 x2 = (- 1 / 6 + x2 * sin_5 x2)%R.
Proof.
  intros Hgt. unfold cos_2, cos_4, cos_6, sin_3, sin_5.
  destruct (Rlt_dec eps2 x2) as [_|Hn]; [|contradiction].
  assert (Hpos : (0 < x2)%R) by (unfold eps2 in Hgt; lra).
  pose proof (sqrt_lt_R0 _ Hpos) as Hs.
  cbv zeta. repeat split; field; lra.
Qed.

Lemma taylor_tail_recurrence_witness :
  cos_2 1 = (- 1 / 2 + 1 * cos_4 1)%R /\
  cos_4 1 = (1 / 24 + 1 * cos_6 1)%R /\
  sin_3 1 = (- 1 / 6 + 1 * sin_5 1)%R.
Proof. apply taylor_tail_recurrence. unfold eps2. lra. Defined.

(** ** [monomial_derivative] and [monomial_derivatives] *)

Section FallingFactorial.
Local Open Scope N_scope.

Lemma falling_factorial_S (k p : nat) :
  falling_factorial (Datatypes.S k) (Datatypes.S p)
  = N.of_nat (Datatypes.S k) * falling_factorial k p.
Proof. cbn [falling_factorial]. do 2 f_equal. lia. Qed.

Lemma falling_factorial_mono (p k k' : nat) :
  (k <= k')%nat -> falling_factorial k p <= falling_factorial k' p.
Proof.
  revert k k'. induction p as [|p IH]; intros k k' Hle; [done|].
  cbn [falling_factorial]. apply N.mul_le_mono; [lia|]. apply IH. lia.
Qed.

Lemma falling_factorial_diag_mono (j p : nat) :
  (j <= p)%nat -> falling_factorial j j <= falling_factorial p p.
Proof.
  induction 1 as [|p Hle IH]; [done|].
  rewrite falling_factorial_S. nia.
Qed.

(** The update [P2 *= i; P2 /= i - p] is exact. *)
Lemma falling_factorial_step (p i : nat) :
  (p < i)%nat ->
  falling_factorial (i - 1) p * N.of_nat i
  = falling_factorial i p * N.of_nat (i - p).
Proof.
  revert i. induction p as [|p IH]; intros i Hlt.
  - cbn [falling_factorial]. rewrite Nat.sub_0_r. lia.
  - cbn [falling_factorial].
    specialize (IH (i - 1)%nat ltac:(lia)).
    replace (i - 1 - 1)%nat with (i - 1 - 1)%nat in * by lia.
    replace (N.of_nat (i - Datatypes.S p)) with (N.of_nat (i - 1 - p)) by (f_equal; lia).
    rewrite <- !N.mul_assoc.
    rewrite (N.mul_comm (falling_factorial (i - 1 - 1) p) (N.of_nat i)).
    rewrite (N.mul_assoc (N.of_nat (i - 1)) (N.of_nat i)).
    rewrite (N.mul_comm (N.of_nat (i - 1)) (N.of_nat i)).
    rewrite <- (N.mul_assoc (N.of_nat i) (N.of_nat (i - 1))).
    f_equal.
    rewrite (N.mul_comm (N.of_nat (i - 1))). exact IH.
Qed.

End FallingFactorial.

Lemma for_range_preserves {St : Type} (Inv : St -> Prop) (lo hi : nat)
    (body : nat -> St -> St) (s : St) :
  Inv s -> (forall i t, Inv t -> Inv (body i t)) -> Inv (for_range lo hi body s).
Proof.
  intros H0 Hstep. unfold for_range.
  generalize (seq lo (hi - lo)) as l. intros l. revert s H0.
  induction l as [|i l IH]; intros s H0; [exact H0|].
  simpl. apply IH, Hstep, H0.
Qed.

Section MonomialDerivativeFacts.
Context {S : Type} `{ScalarOps S} `{StaticMatrixOps S}.

Lemma scalar_pow_S (u : S) (n : nat) :
  scalar_pow u (Datatypes.S n) = s_mul (scalar_pow u n) u.
Proof. reflexivity. Qed.

Lemma monomial_derivative_dims (K : nat) (u : S) (p : nat) :
  dims (monomial_derivative K u p) 1 (K + 1).
Proof.
  unfold monomial_derivative. cbv zeta.
  destruct (K <? p); [apply mnew_dims|].
  apply (for_range_preserves (fun st : list (list S) * S * N => dims st.1.1 1 (K + 1))).
  - simpl. apply dims_mset.
    apply (for_range_preserves (fun M : list (list S) => dims M 1 (K + 1)));
      [apply mnew_dims|].
    intros i M HM. by apply dims_mset.
  - intros i [[M P1] P2] HM. simpl in *. by apply dims_mset.
Qed.

(** The integer factor after the first loop is [p!]. *)
Lemma monomial_derivative_factorial (p : nat) :
  (falling_factorial p p < 2 ^ 64)%N ->
  for_range 2 (p + 1) (fun j P2 => size_t_mul P2 (N.of_nat j)) 1%N
  = falling_factorial p p.
Proof.
  intros Hfit.
  destruct p as [|p]; [reflexivity|].
  replace (falling_factorial (Datatypes.S p) (Datatypes.S p))
    with (falling_factorial (Datatypes.S p + 1 - 1) (Datatypes.S p + 1 - 1))
    by (f_equal; lia).
  apply (for_range_ind (fun j (P2 : N) => P2 = falling_factorial (j - 1) (j - 1))).
  - lia.
  - reflexivity.
  - intros j P2 Hj ->. unfold size_t_mul.
    replace (Datatypes.S j - 1) with (Datatypes.S (j - 1)) by lia.
    rewrite falling_factorial_S.
    replace (Datatypes.S (j - 1)) with j by lia.
    rewrite N.mul_comm. apply N.mod_small.
    pose proof (falling_factorial_diag_mono j (Datatypes.S p) ltac:(lia)) as Hmono.
    replace j with (Datatypes.S (j - 1)) in Hmono at 1 2 by lia.
    rewrite falling_factorial_S in Hmono.
    replace (Datatypes.S (j - 1)) with j in Hmono by lia. lia.
Qed.

Lemma monomial_derivative_lookup (K : nat) (u : S) (p k : nat) :
  p <= K -> k <= K ->
  (falling_factorial K p * N.max 1 (N.of_nat (K - p)) < 2 ^ 64)%N ->
  mlookup (monomial_derivative K u p) 0 k
  = Some (if k <? p then cast 0
          else s_mul (scalar_pow u (k - p)) (cast (Z.of_N (falling_factorial k p)))).
Proof.
  intros Hp Hk Hfit.
  assert (Hpp : (falling_factorial p p < 2 ^ 64)%N).
  { pose proof (falling_factorial_mono p p K Hp). nia. }
  unfold monomial_derivative. cbv zeta.
  destruct (Nat.ltb_spec K p) as [Hlt|_]; [lia|].
  rewrite monomial_derivative_factorial by exact Hpp.
  set (entry := fun k => if k <? p then cast 0
     else s_mul (scalar_pow u (k - p)) (cast (Z.of_N (falling_factorial k p)))).
  set (ret1 := for_range 0 p (fun i ret => mset ret 0 i (cast 0)) (mnew 1 (K + 1))).
  assert (H1 : dims ret1 1 (K + 1) /\
               forall k', k' < p -> mlookup ret1 0 k' = Some (entry k')).
  { subst ret1.
    apply (for_range_ind (fun i (M : list (list S)) =>
      dims M 1 (K + 1) /\ forall k', k' < i -> mlookup M 0 k' = Some (entry k'))).
    - lia.
    - split; [apply mnew_dims|]. intros; lia.
    - intros i M Hi [HdM HM]. split; [by apply dims_mset|].
      intros k' Hk'. destruct (decide (k' = i)) as [->|Hne].
      + rewrite (mlookup_mset_eq _ 1 (K + 1)) by (done || lia).
        unfold entry. destruct (Nat.ltb_spec i p); [done|lia].
      + rewrite mlookup_mset_ne by congruence. apply HM. lia. }
  destruct H1 as [Hd1 Hlow].
  assert (Hinv : forall st,
    st = for_range (p + 1) (K + 1) (fun i st =>
       let P1 := s_mul st.1.2 u in
       let P2 := size_t_mul st.2 (N.of_nat i) in
       let P2 := (P2 / N.of_nat (i - p))%N in
       (mset st.1.1 0 i (s_mul P1 (cast (Z.of_N P2))), P1, P2))
       (mset ret1 0 p (s_mul (cast 1) (cast (Z.of_N (falling_factorial p p)))),
        cast 1, falling_factorial p p) ->
    dims st.1.1 1 (K + 1) /\ st.1.2 = scalar_pow u (K - p) /\
    st.2 = falling_factorial K p /\
    forall k', k' < K + 1 -> mlookup st.1.1 0 k' = Some (entry k')).
  { intros st ->.
    replace (K - p) with (K + 1 - 1 - p) by lia.
    replace (falling_factorial K p) with (falling_factorial (K + 1 - 1) p)
      by (f_equal; lia).
    apply (for_range_ind (fun i (st : list (list S) * S * N) =>
      dims st.1.1 1 (K + 1) /\ st.1.2 = scalar_pow u (i - 1 - p) /\
      st.2 = falling_factorial (i - 1) p /\
      forall k', k' < i -> mlookup st.1.1 0 k' = Some (entry k'))).
    - lia.
    - simpl. split; [by apply dims_mset|].
      replace (p + 1 - 1 - p) with 0 by lia.
      replace (p + 1 - 1) with p by lia.
      split; [done|]. split; [done|].
      intros k' Hk'. destruct (decide (k' = p)) as [->|Hne].
      + rewrite (mlookup_mset_eq _ 1 (K + 1)) by (done || lia).
        unfold entry. destruct (Nat.ltb_spec p p); [lia|].
        by rewrite Nat.sub_diag.
      + rewrite mlookup_mset_ne by congruence. apply Hlow. lia.
    - intros i [[M P1] P2] Hi (HdM & HP1 & HP2 & HM). simpl in *. subst P1 P2.
      assert (HP2 : ((size_t_mul (falling_factorial (i - 1) p) (N.of_nat i)
                     / N.of_nat (i - p))%N = falling_factorial i p)).
      { unfold size_t_mul. rewrite falling_factorial_step by lia.
        rewrite N.mod_small.
        - apply N.div_mul. lia.
        - pose proof (falling_factorial_mono p i K ltac:(lia)).
          assert (N.of_nat (i - p) <= N.max 1 (N.of_nat (K - p)))%N by lia.
          nia. }
      rewrite HP2.
      replace (i - 0) with i by lia.
      assert (HP1 : s_mul (scalar_pow u (i - 1 - p)) u = scalar_pow u (i - p)).
      { replace (i - p) with (Datatypes.S (i - 1 - p)) by lia. reflexivity. }
      rewrite HP1.
      split; [by apply dims_mset|]. split; [done|]. split; [done|].
      intros k' Hk'. destruct (decide (k' = i)) as [->|Hne].
      + rewrite (mlookup_mset_eq _ 1 (K + 1)) by (done || lia).
        unfold entry. destruct (Nat.ltb_spec i p); [lia|done].
      + rewrite mlookup_mset_ne by congruence. apply HM. lia. }
  specialize (Hinv _ eq_refl). destruct Hinv as (_ & _ & _ & Hall).
  apply Hall. lia.
Qed.

Lemma monomial_derivatives_lookup (K P : nat) (u : S) (p : nat) :
  p <= P ->
  monomial_derivatives K P u !! p = monomial_derivative K u p !! 0 /\
  is_Some (monomial_derivative K u p !! 0).
Proof.
  intros Hp.
  assert (Hrow : forall q, is_Some (monomial_derivative K u q !! 0)).
  { intros q. destruct (monomial_derivative_dims K u q) as [Hlen _].
    apply lookup_lt_is_Some. unfold StaticMatrix in *. lia. }
  split; [|apply Hrow].
  unfold monomial_derivatives.
  assert (Hinv :
    length (monomial_derivatives K P u) = P + 1 /\
    forall q, q < P + 1 ->
      monomial_derivatives K P u !! q = monomial_derivative K u q !! 0).
  { unfold monomial_derivatives.
    apply (for_range_ind (fun i (M : list (list S)) =>
      length M = P + 1 /\
      forall q, q < i -> M !! q = monomial_derivative K u q !! 0)).
    - lia.
    - split; [apply mnew_dims|]. intros; lia.
    - intros i M Hi [Hlen HM]. split; [by rewrite length_insert|].
      intros q Hq. destruct (decide (q = i)) as [->|Hne].
      + rewrite list_lookup_insert_eq by lia.
        destruct (Hrow i) as [r Hr]. unfold StaticMatrix in *. by rewrite Hr.
      + rewrite list_lookup_insert_ne by done. apply HM. lia. }
  apply Hinv. lia.
Qed.

End MonomialDerivativeFacts.

(** For [p <= K], and as long as the [std::size_t] factor does not
    overflow, entry [k] of [monomial_derivative<K>(u, p)] is the [p]-th
    derivative of [u^k]: zero for [k < p], and [k (k-1) ... (k-p+1)] times
    [u^(k-p)] from [k = p] on. *)
Theorem monomial_derivative_entries
    {S : Type} `{ScalarOps S} `{StaticMatrixOps S} (K : nat) (u : S) (p k : nat) :
  p <= K -> k <= K ->
  (falling_factorial K p * N.max 1 (N.of_nat (K - p)) < 2 ^ 64)%N ->
  mlookup (monomial_derivative K u p) 0 k
  = Some (if k <? p then cast 0
          else s_mul (scalar_pow u (k - p)) (cast (Z.of_N (falling_factorial k p)))).
Proof. apply monomial_derivative_lookup. Qed.

Lemma monomial_derivative_entries_witness :
  mlookup (monomial_derivative (S := Q) 5 (2 # 1)%Q 2) 0 4
  = Some (s_mul (scalar_pow (2 # 1)%Q 2) (cast (Z.of_N (falling_factorial 4 2)))).
Proof.
  apply (monomial_derivative_entries (S := Q) 5 (2 # 1)%Q 2 4); [lia|lia|].
  vm_compute. reflexivity.
Defined.

(** With [K = 21] and [p = 20] the factor overflows: the last entry is not
    [21!] (51090942171709440000) but its product taken modulo [2^64]. *)
Example monomial_derivative_overflow :
  mlookup (monomial_derivative (S := Q) 21 1%Q 20) 0 21 = Some 14197454024290336768%Q.
Proof. vm_compute. reflexivity. Qed.

(** A derivative order above the degree returns the default-constructed
    row; with zero filling that is the zero row. *)
Example monomial_derivative_order_above_degree :
  monomial_derivative (S := Q) 2 (2 # 1)%Q 3 = [[0; 0; 0]]%Q.
Proof. vm_compute. reflexivity. Qed.

(** For [p <= P] and [p <= K], and as long as the [std::size_t] factor does
    not overflow, entry [(p, k)] of [monomial_derivatives<K, P>(u)] is the
    [p]-th derivative of [u^k], as documented. *)
Theorem monomial_derivatives_entries
    {S : Type} `{ScalarOps S} `{StaticMatrixOps S} (K P : nat) (u : S) (p k : nat) :
  p <= P -> p <= K -> k <= K ->
  (falling_factorial K p * N.max 1 (N.of_nat (K - p)) < 2 ^ 64)%N ->
  mlookup (monomial_derivatives K P u) p k
  = Some (if k <? p then cast 0
          else s_mul (scalar_pow u (k - p)) (cast (Z.of_N (falling_factorial k p)))).
Proof.
  intros HpP HpK Hk Hfit.
  destruct (monomial_derivatives_lookup K P u p HpP) as [Hrow _].
  rewrite <- (monomial_derivative_lookup K u p k HpK Hk Hfit).
  unfold mlookup, StaticMatrix in *. by rewrite Hrow.
Qed.

Lemma monomial_derivatives_entries_witness :
  mlookup (monomial_derivatives (S := Q) 3 2 (2 # 1)%Q) 2 3
  = Some (s_mul (scalar_pow (2 # 1)%Q 1) (cast (Z.of_N (falling_factorial 3 2)))).
Proof.
  apply (monomial_derivatives_entries (S := Q) 3 2 (2 # 1)%Q 2 3); [lia|lia|lia|].
  vm_compute. reflexivity.
Defined.

(** The derivatives of [1, u, u^2, u^3] up to order two at [u = 2]. *)
Example monomial_derivatives_3_2 :
  monomial_derivatives (S := Q) 3 2 (2 # 1)%Q
  = [[1; 2; 4; 8]; [0; 1; 4; 12]; [0; 0; 2; 12]]%Q.
Proof. vm_compute. reflexivity. Qed.

(** ** Cumulative coefficient matrices *)

Section CumulativeFacts.
Context {S : Type} `{ScalarOps S}.
Implicit Types M N : list (list S).

Lemma mget_mset_ne M i j a b v :
  (a, b) <> (i, j) -> mget (mset M i j v) a b = mget M a b.
Proof. intros Hne. unfold mget. by rewrite mlookup_mset_ne. Qed.

Lemma mlookup_mget M i j v : mlookup M i j = Some v -> mget M i j = v.
Proof. intros Hl. unfold mget. by rewrite Hl. Qed.

(** One row of the cumulation: the other rows stay, the last column of the
    row stays, and every other entry of the row becomes its old value plus
    the new value to its right. *)
Lemma cumulate_row (K i : nat) N :
  i <= K -> dims N (K + 1) (K + 1) ->
  let N' := for_range 0 K (fun j M =>
              mset_add M i (K - 1 - j) (mget M i (K - j))) N in
  dims N' (K + 1) (K + 1) /\
  (forall r c, r <> i -> mlookup N' r c = mlookup N r c) /\
  mlookup N' i K = mlookup N i K /\
  (forall c, c < K ->
     mlookup N' i c = Some (s_add (mget N i c) (mget N' i (c + 1)))).
Proof.
  intros Hi HdN N'.
  assert (Hinv : dims N' (K + 1) (K + 1) /\
    (forall r c, r <> i -> mlookup N' r c = mlookup N r c) /\
    mlookup N' i K = mlookup N i K /\
    (forall c, c < K - K -> mlookup N' i c = mlookup N i c) /\
    (forall c, K - K <= c -> c < K ->
       mlookup N' i c = Some (s_add (mget N i c) (mget N' i (c + 1))))).
  { subst N'.
    apply (for_range_ind (fun j M =>
      dims M (K + 1) (K + 1) /\
      (forall r c, r <> i -> mlookup M r c = mlookup N r c) /\
      mlookup M i K = mlookup N i K /\
      (forall c, c < K - j -> mlookup M i c = mlookup N i c) /\
      (forall c, K - j <= c -> c < K ->
         mlookup M i c = Some (s_add (mget N i c) (mget M i (c + 1)))))).
    - lia.
    - split; [exact HdN|]. repeat split; try done; intros; lia.
    - intros j M Hj (HdM & Hrows & Hlast & Hleft & Hright).
      unfold mset_add.
      split; [by apply dims_mset|]. split; [|split; [|split]].
      + intros r c Hr. rewrite mlookup_mset_ne by congruence. by apply Hrows.
      + rewrite mlookup_mset_ne by (intros [=]; lia). exact Hlast.
      + intros c Hc. rewrite mlookup_mset_ne by (intros [=]; lia).
        apply Hleft. lia.
      + intros c Hc1 Hc2.
        rewrite (mget_mset_ne _ _ _ i (c + 1)) by (intros [=]; lia).
        destruct (decide (c = K - 1 - j)) as [->|Hne].
        * rewrite (mlookup_mset_eq _ (K + 1) (K + 1)) by (done || lia).
          do 2 f_equal.
          -- unfold mget. rewrite Hleft by lia. reflexivity.
          -- f_equal. lia.
        * rewrite mlookup_mset_ne by congruence. apply Hright; lia. }
  destruct Hinv as (Hd & Hrows & Hlast & _ & Hright).
  split; [exact Hd|]. split; [exact Hrows|]. split; [exact Hlast|].
  intros c Hc. apply Hright; lia.
Qed.

Lemma cumulate_rows_spec (K : nat) M :
  dims M (K + 1) (K + 1) ->
  forall i, i <= K ->
    mlookup (cumulate_rows K M) i K = mlookup M i K /\
    (forall c, c < K ->
       mlookup (cumulate_rows K M) i c
       = Some (s_add (mget M i c) (mget (cumulate_rows K M) i (c + 1)))).
Proof.
  intros HdM.
  assert (Hinv : dims (cumulate_rows K M) (K + 1) (K + 1) /\
    (forall r c, K + 1 <= r -> mlookup (cumulate_rows K M) r c = mlookup M r c) /\
    (forall r, r < K + 1 ->
       mlookup (cumulate_rows K M) r K = mlookup M r K /\
       (forall c, c < K ->
          mlookup (cumulate_rows K M) r c
          = Some (s_add (mget M r c) (mget (cumulate_rows K M) r (c + 1)))))).
  { unfold cumulate_rows.
    apply (for_range_ind (fun i N =>
      dims N (K + 1) (K + 1) /\
      (forall r c, i <= r -> mlookup N r c = mlookup M r c) /\
      (forall r, r < i ->
         mlookup N r K = mlookup M r K /\
         (forall c, c < K ->
            mlookup N r c = Some (s_add (mget M r c) (mget N r (c + 1))))))).
    - lia.
    - split; [exact HdM|]. repeat split; try done; intros; lia.
    - intros i N Hi (HdN & Hrest & Hdone). cbv beta. unfold StaticMatrix.
      destruct (cumulate_row K i N ltac:(lia) HdN) as (Hd' & Hrows & Hlast & Hrec).
      split; [exact Hd'|]. split.
      + intros r c Hr. rewrite Hrows by lia. apply Hrest. lia.
      + intros r Hr. destruct (decide (r = i)) as [->|Hne].
        * split; [rewrite Hlast; apply Hrest; lia|].
          intros c Hc. rewrite Hrec by done. do 2 f_equal.
          unfold mget. rewrite Hrest by lia. reflexivity.
        * destruct (Hdone r ltac:(lia)) as [HK Hc]. split.
          -- rewrite Hrows by done. exact HK.
          -- intros c Hlt. rewrite Hrows by done. rewrite Hc by done.
             do 2 f_equal. unfold mget. by rewrite Hrows. }
  intros i Hi. apply Hinv. lia.
Qed.

End CumulativeFacts.

(** [polynomial_cumulative_basis] sums every row of the basis matrix from
    the right: the last column is kept, and every other entry is the entry
    of the basis matrix plus the cumulated entry to its right. *)
Theorem polynomial_cumulative_basis_suffix_sums
    {S : Type} `{ScalarOps S} `{StaticMatrixOps S}
    (Basis : PolynomialBasis) (K i : nat) :
  dims (polynomial_basis Basis K) (K + 1) (K + 1) -> i <= K ->
  mlookup (polynomial_cumulative_basis Basis K) i K
  = mlookup (polynomial_basis Basis K) i K /\
  (forall c, c < K ->
     mlookup (polynomial_cumulative_basis Basis K) i c
     = Some (s_add (mget (polynomial_basis Basis K) i c)
                   (mget (polynomial_cumulative_basis Basis K) i (c + 1)))).
Proof. intros Hd Hi. by apply cumulate_rows_spec. Qed.

Lemma polynomial_cumulative_basis_suffix_sums_witness :
  mlookup (polynomial_cumulative_basis (S := Q) Bspline 2) 1 2
  = mlookup (polynomial_basis (S := Q) Bspline 2) 1 2 /\
  (forall c, c < 2 ->
     mlookup (polynomial_cumulative_basis (S := Q) Bspline 2) 1 c
     = Some (s_add (mget (polynomial_basis (S := Q) Bspline 2) 1 c)
                   (mget (polynomial_cumulative_basis (S := Q) Bspline 2) 1 (c + 1)))).
Proof.
  apply (polynomial_cumulative_basis_suffix_sums (S := Q) Bspline 2 1); [|lia].
  split; [reflexivity|]. vm_compute. repeat constructor.
Defined.

(** ** Shape of the basis matrices *)

Section BasisDims.
Context {S : Type} `{ScalarOps S}.
Implicit Types A B M : list (list S).

Lemma dims_triple_loop_mul (rows inner cols : nat) A B :
  dims (triple_loop_mul rows inner cols A B) rows cols.
Proof.
  unfold triple_loop_mul.
  apply (for_range_preserves (fun M => dims M rows cols)); [apply dims_mzero|].
  intros i M HM.
  apply (for_range_preserves (fun M => dims M rows cols)); [exact HM|].
  clear M HM. intros j M HM.
  apply (for_range_preserves (fun M => dims M rows cols)); [exact HM|].
  clear M HM. intros k M HM. by apply dims_mset.
Qed.

Lemma dims_entrywise_add A B (r c : nat) :
  dims A r c -> dims B r c -> dims (entrywise_add A B) r c.
Proof.
  unfold dims, entrywise_add. intros [HlA HA] [HlB HB]. split.
  - rewrite length_zip_with. lia.
  - rewrite Forall_lookup in HA, HB. apply Forall_lookup. intros i row Hrow.
    apply lookup_zip_with_Some in Hrow as (ra & rb & -> & Ha & Hb).
    rewrite length_zip_with, (HA _ _ Ha), (HB _ _ Hb). lia.
Qed.

Lemma dims_mset_add M r c i j e : dims M r c -> dims (mset_add M i j e) r c.
Proof. apply dims_mset. Qed.

Lemma dims_mset_sub M r c i j e : dims M r c -> dims (mset_sub M i j e) r c.
Proof. apply dims_mset. Qed.

Lemma dims_hermite_basis `{StaticMatrixOps S} (K : nat) :
  dims (hermite_basis K) (K + 1) (K + 1).
Proof.
  unfold hermite_basis. cbv zeta.
  assert (H2 : dims (if 0 <? K then mset (mset (mnew (K + 1) (K + 1)) 0 0 (cast 1)) 1 1 (cast 2)
                     else mset (mnew (K + 1) (K + 1)) 0 0 (cast 1)) (K + 1) (K + 1)).
  { destruct (0 <? K); repeat apply dims_mset; apply mnew_dims. }
  destruct (1 <? K); [|exact H2].
  apply (for_range_preserves (fun M => dims M (K + 1) (K + 1))); [exact H2|].
  intros k M HM.
  apply (for_range_preserves (fun M => dims M (K + 1) (K + 1))).
  - apply (for_range_preserves (fun M => dims M (K + 1) (K + 1))); [exact HM|].
    intros i N HN. by apply dims_mset_add.
  - intros i N HN. by apply dims_mset_sub.
Qed.

Lemma dims_laguerre_basis `{StaticMatrixOps S} (K : nat) :
  dims (laguerre_basis K) (K + 1) (K + 1).
Proof.
  unfold laguerre_basis. cbv zeta.
  assert (H2 : dims (if 0 <? K
                     then mset (mset (mset (mnew (K + 1) (K + 1)) 0 0 (cast 1)) 0 1 (cast 1))
                            1 1 (cast (-1))
                     else mset (mnew (K + 1) (K + 1)) 0 0 (cast 1)) (K + 1) (K + 1)).
  { destruct (0 <? K); repeat apply dims_mset; apply mnew_dims. }
  destruct (1 <? K); [|exact H2].
  apply (for_range_preserves (fun M => dims M (K + 1) (K + 1))); [exact H2|].
  intros k M HM.
  apply (for_range_preserves (fun M => dims M (K + 1) (K + 1))).
  - apply (for_range_preserves (fun M => dims M (K + 1) (K + 1))); [exact HM|].
    intros i N HN. by apply dims_mset_sub, dims_mset_add.
  - intros i N HN. by apply dims_mset_sub.
Qed.

Lemma dims_jacobi_basis `{StaticMatrixOps S} (K : nat) (alpha beta : S) :
  dims (jacobi_basis K alpha beta) (K + 1) (K + 1).
Proof.
  unfold jacobi_basis. cbv zeta.
  match goal with
  | |- dims (if 1 <? K then for_range _ _ _ ?M0 else _) _ _ =>
      assert (H2 : dims M0 (K + 1) (K + 1))
  end.
  { destruct (0 <? K); repeat apply dims_mset; apply mnew_dims. }
  destruct (1 <? K); [|exact H2].
  apply (for_range_preserves (fun M => dims M (K + 1) (K + 1))); [exact H2|].
  intros k M HM.
  apply (for_range_preserves (fun M => dims M (K + 1) (K + 1))).
  - apply (for_range_preserves (fun M => dims M (K + 1) (K + 1))); [exact HM|].
    intros i N HN. by apply dims_mset_add, dims_mset_add.
  - intros i N HN. by apply dims_mset_sub.
Qed.

Lemma dims_bspline_basis (K : nat) : dims (bspline_basis K) (K + 1) (K + 1).
Proof.
  destruct K as [|K]; [apply dims_mset, dims_mzero|].
  cbn [bspline_basis].
  repeat match goal with
         | |- context [let '(_, _) := ?p in _] => destruct p
         end.
  apply dims_entrywise_add; apply dims_triple_loop_mul.
Qed.

Lemma dims_bernstein_basis (K : nat) : dims (bernstein_basis K) (K + 1) (K + 1).
Proof.
  destruct K as [|K]; [apply dims_mset, dims_mzero|].
  cbn [bernstein_basis].
  repeat match goal with
         | |- context [let '(_, _) := ?p in _] => destruct p
         end.
  apply dims_entrywise_add; apply dims_triple_loop_mul.
Qed.

Lemma dims_column_scaling `{StaticMatrixOps S} (K : nat) M
    (f : nat -> nat -> list (list S) -> S) :
  dims M (K + 1) (K + 1) ->
  dims (for_range 0 (K + 1) (fun k ret =>
          for_range 0 (K + 1) (fun r ret => mset ret r k (f r k ret)) ret) M)
       (K + 1) (K + 1).
Proof.
  intros HM.
  apply (for_range_preserves (fun M => dims M (K + 1) (K + 1))); [exact HM|].
  intros k N HN.
  apply (for_range_preserves (fun M => dims M (K + 1) (K + 1))); [exact HN|].
  intros r N' HN'. by apply dims_mset.
Qed.

End BasisDims.

(** With the zero-filling constructor, the entry-wise sum and the
    triple-loop product, the coefficient matrix of every basis has [K + 1]
    rows of [K + 1] entries. *)
Theorem polynomial_basis_dims {S : Type} `{ScalarOps S}
    (Basis : PolynomialBasis) (K : nat) :
  dims (polynomial_basis Basis K) (K + 1) (K + 1).
Proof.
  destruct Basis; unfold polynomial_basis; cbv zeta.
  - apply dims_bernstein_basis.
  - apply dims_bspline_basis.
  - apply (dims_column_scaling K _ (fun r k ret => s_div (mget ret r k) _)).
    apply dims_jacobi_basis.
  - apply (dims_column_scaling K _ (fun r k ret => s_mul (mget ret r k) _)).
    apply dims_jacobi_basis.
  - apply dims_hermite_basis.
  - apply dims_laguerre_basis.
  - apply dims_jacobi_basis.
  - apply (for_range_preserves (fun M => dims M (K + 1) (K + 1))); [apply dims_mzero|].
    intros k M HM. by apply dims_mset.
Qed.

(** ** [cspline_eval]: value, outputs and exceptions *)

Lemma for_range_proj {St T : Type} (proj : St -> T) (lo hi : nat)
    (body : nat -> St -> St) (body' : nat -> T -> T) (s : St) :
  (forall i t, proj (body i t) = body' i (proj t)) ->
  proj (for_range lo hi body s) = for_range lo hi body' (proj s).
Proof.
  intros Hstep. unfold for_range.
  generalize (seq lo (hi - lo)) as l. intros l. revert s.
  induction l as [|i l IH]; intros s; [reflexivity|].
  simpl. rewrite IH. by rewrite Hstep.
Qed.

Section CSplineFacts.
Context {S : Type} `{ScalarOps S} `{LieImpl S}.

Lemma run_bind_inr {A B : Type} (m : M A) (k : A -> M B) (o o' : Outputs (S := S)) (a : A) :
  m o = (inr a, o') -> (m ≫= k) o = k a o'.
Proof. intros Hrun. unfold mbind, M_bind. by rewrite Hrun. Qed.

Lemma run_bind_inl {A B : Type} (m : M A) (k : A -> M B) (o o' : Outputs (S := S)) (e : exn) :
  m o = (inl e, o') -> (m ≫= k) o = (inl e, o').
Proof. intros Hrun. unfold mbind, M_bind. by rewrite Hrun. Qed.

Lemma for_each_pure {A St : Type} (P : Outputs (S := S) -> Prop) (f : St -> A -> St)
    (body : A -> St -> M St) (l : list A) (s : St) (o : Outputs) :
  (forall x t o1, P o1 -> exists o2, body x t o1 = (inr (f t x), o2) /\ P o2) ->
  P o ->
  exists o', for_each l body s o = (inr (foldl f s l), o') /\ P o'.
Proof.
  intros Hbody. revert s o.
  induction l as [|x l IH]; intros s o Ho.
  - exists o. split; [reflexivity|exact Ho].
  - destruct (Hbody x s o Ho) as (o2 & Hrun & Ho2).
    destruct (IH (f s x) o2 Ho2) as (o' & Hrest & Ho').
    exists o'. split; [|exact Ho'].
    cbn [for_each]. unfold mbind, M_bind. rewrite Hrun. exact Hrest.
Qed.

Lemma for_each_succeeds {A St : Type} (P : Outputs (S := S) -> Prop)
    (body : A -> St -> M St) (l : list A) (s : St) (o : Outputs) :
  (forall x t o1, P o1 -> exists t' o2, body x t o1 = (inr t', o2) /\ P o2) ->
  P o ->
  exists s' o', for_each l body s o = (inr s', o') /\ P o'.
Proof.
  intros Hbody. revert s o.
  induction l as [|x l IH]; intros s o Ho.
  - exists s, o. split; [reflexivity|exact Ho].
  - destruct (Hbody x s o Ho) as (t' & o2 & Hrun & Ho2).
    destruct (IH t' o2 Ho2) as (s' & o' & Hrest & Ho').
    exists s', o'. split; [|exact Ho'].
    cbn [for_each]. unfold mbind, M_bind. rewrite Hrun. exact Hrest.
Qed.

End CSplineFacts.

Section CSplineMain.
Context {S : Type} `{ScalarOps S} `{LieImpl S}.

Lemma cspline_eval_acc_without_vel_throws (K : nat) (g_0 : list S)
    (diff_points cum_coef_mat : list (list S)) (u : S) (o : Outputs) :
  length diff_points = K -> vel o = None -> is_Some (acc o) ->
  cspline_eval K g_0 diff_points cum_coef_mat u o = (inl bad_optional_access, o).
Proof.
  intros Hlen Hv [a Ha]. destruct o as [v0 a0 d0]. simpl in Hv, Ha. subst v0 a0.
  unfold cspline_eval. rewrite Hlen, Nat.eqb_refl. cbn [negb].
  unfold mbind, M_bind, vel_has_value, acc_has_value. cbn [vel acc der].
  rewrite bool_decide_eq_false_2 by (intros [? ?]; discriminate).
  rewrite bool_decide_eq_true_2 by eauto.
  cbn [orb].
  destruct (for_range 1 (K + 1) _ _) as [[uvec duvec] d2uvec].
  reflexivity.
Qed.

(** The row of powers does not depend on the outputs requested. *)
Lemma uvec_is_upowers (K : nat) (u : S) (hv ha : bool) :
  (for_range 1 (K + 1) (fun k (w : list S * list S * list S) =>
     let uvec := <[k := s_mul u (vget w.1.1 (k - 1))]> w.1.1 in
     if hv || ha then
       let duvec := <[k := s_mul (cast (Z.of_nat k)) (vget uvec (k - 1))]> w.1.2 in
       if ha then
         (uvec, duvec, <[k := s_mul (cast (Z.of_nat k)) (vget duvec (k - 1))]> w.2)
       else (uvec, duvec, w.2)
     else (uvec, w.1.2, w.2))
     (<[0 := cast 1]> (vzero (K + 1)),
      <[0 := cast 0]> (vzero (K + 1)),
      <[0 := cast 0]> (vzero (K + 1)))).1.1
  = upowers K u.
Proof.
  unfold upowers.
  apply (for_range_proj (fun w : list S * list S * list S => w.1.1)).
  intros i w. destruct (hv || ha), ha; reflexivity.
Qed.

Lemma presence_ok_cases (o : Outputs (S := S)) :
  is_Some (vel o) \/ acc o = None ->
  (exists v a d, o = mkOutputs (Some v) a d) \/ (exists d, o = mkOutputs None None d).
Proof.
  destruct o as [[v|] [a|] d]; simpl; intros [Hv|Ha]; try discriminate;
    try (destruct Hv; discriminate); eauto.
Qed.

Lemma presence_vel_acc (o1 o : Outputs (S := S)) :
  presence o1 = presence o -> is_Some (vel o) \/ acc o = None ->
  is_Some (vel o1) \/ acc o1 = None.
Proof.
  unfold presence. intros Hp Hok.
  destruct o1 as [[v1|] [a1|] d1], o as [[v|] [a|] d]; simpl in *;
    try (left; eauto; fail); try (right; reflexivity);
    try discriminate; destruct Hok as [[? ?]|?]; discriminate.
Qed.

(** One factor of the product: the value part is [cspline_factor], and the
    outputs that are present are updated. *)
Lemma cspline_eval_factor (uvec duvec d2uvec : list S) (cum_coef_mat : list (list S))
    (o : Outputs (S := S)) (v : list S) (gj : list S * nat) (o1 : Outputs (S := S)) :
  is_Some (vel o) \/ acc o = None -> presence o1 = presence o ->
  exists o2,
    (let j := gj.2 in
     let Btilde := dot uvec (row cum_coef_mat j) in
     let tmp1 := Impl_exp (vscale Btilde v) in
     let tmp2 := Impl_composition gj.1 tmp1 in
     let g := tmp2 in
     hv ← vel_has_value;
     ha ← acc_has_value;
     when (hv || ha)
       (let dBtilde := dot duvec (row cum_coef_mat j) in
        let tmp2 := Impl_inverse tmp1 in
        let Ad := Impl_Ad tmp2 in
        vel_update (mat_vec Ad);;
        vel_update (fun x => vadd x (vscale dBtilde v));;
        when ha
          (let d2Btilde := dot d2uvec (row cum_coef_mat j) in
           acc_update (mat_vec Ad);;
           velv ← vel_value;
           let ad := Impl_ad velv in
           acc_update (fun a =>
             vadd a (vadd (mat_vec (mscale dBtilde ad) v) (vscale d2Btilde v)))));;
     mret (g, j + 1)) o1
    = (inr (cspline_factor uvec cum_coef_mat gj v), o2)
    /\ presence o2 = presence o.
Proof.
  intros Hok Hp. pose proof (presence_vel_acc o1 o Hp Hok) as Hok1.
  rewrite <- Hp. clear Hp Hok o.
  destruct o1 as [[v1|] [a1|] d1]; simpl in Hok1.
  - eexists. split; [lazy; reflexivity|reflexivity].
  - eexists. split; [lazy; reflexivity|reflexivity].
  - destruct Hok1 as [[? ?]|?]; discriminate.
  - eexists. split; [lazy; reflexivity|reflexivity].
Qed.

Lemma cspline_eval_main (K : nat) (g_0 : list S)
    (diff_points cum_coef_mat : list (list S)) (u : S) (o : Outputs) :
  length diff_points = K -> is_Some (vel o) \/ acc o = None ->
  exists o', cspline_eval K g_0 diff_points cum_coef_mat u o
             = (inr (cspline_value K g_0 diff_points cum_coef_mat u), o')
             /\ presence o' = presence o.
Proof.
  intros Hlen Hok.
  unfold cspline_eval. rewrite Hlen, Nat.eqb_refl. cbn [negb].
  unfold mbind at 1 2. unfold M_bind at 1 2.
  unfold vel_has_value at 1. unfold acc_has_value at 1.
  pose proof (uvec_is_upowers K u (bool_decide (is_Some (vel o)))
                (bool_decide (is_Some (acc o)))) as Hu.
  cbv zeta in Hu.
  destruct (for_range 1 (K + 1) _ _) as [[uvec duvec] d2uvec] eqn:Eloop.
  simpl in Hu. subst uvec. clear Eloop.
  (* the outputs are cleared *)
  assert (H1 : exists o1,
    when (bool_decide (is_Some (vel o)) || bool_decide (is_Some (acc o)))
      (vel_update (fun _ => vzero Dof);;
       when (bool_decide (is_Some (acc o))) (acc_update (fun _ => vzero Dof))) o
    = (inr tt, o1) /\ presence o1 = presence o).
  { destruct o as [[v1|] [a1|] d1]; simpl in Hok.
    - eexists. split; reflexivity.
    - eexists. split; reflexivity.
    - destruct Hok as [[? ?]|?]; discriminate.
    - eexists. split; reflexivity. }
  destruct H1 as (o1 & Hrun1 & Hp1).
  rewrite (run_bind_inr _ _ _ _ _ Hrun1).
  (* the product *)
  match goal with
  | |- context [for_each diff_points ?b (g_0, 1)] =>
      destruct (for_each_pure (fun o' => presence o' = presence o)
                  (cspline_factor (upowers K u) cum_coef_mat)
                  b diff_points (g_0, 1) o1) as (o2 & Hrun2 & Hp2);
        [intros v gj o' Hp;
         exact (cspline_eval_factor (upowers K u) duvec d2uvec
                  cum_coef_mat o v gj o' Hok Hp)
        |exact Hp1|]
  end.
  rewrite (run_bind_inr _ _ _ _ _ Hrun2).
  (* the derivatives with respect to the control points *)
  rewrite <- Hp2. clear Hrun1 Hp1 Hrun2 Hp2 Hok o o1.
  destruct o2 as [v2 a2 [d2|]].
  - rewrite (run_bind_inr _ _ _ _ _ (eq_refl : der_has_value (mkOutputs v2 a2 (Some d2)) = (inr true, mkOutputs v2 a2 (Some d2)))).
    cbn [when].
    match goal with
    | |- context [for_each (reverse (seq 0 (K + 1))) ?b Impl_setIdentity] =>
        destruct (for_each_succeeds
                    (fun o' => is_Some (der o') /\
                               presence o' = presence (mkOutputs v2 a2 (Some d2)))
                    b (reverse (seq 0 (K + 1))) Impl_setIdentity
                    (mkOutputs v2 a2 (Some (mzero Dof (Dof * (K + 1))))))
          as (s' & o3 & Hrun3 & _ & Hp3)
    end.
    + intros j z [v a [d|]] [[d' Hd] Hp]; [|discriminate].
      destruct (negb (j =? K)), (negb (j =? 0));
        eexists _, _;
        (split; [cbv [mbind M_bind mret M_ret der_update der vel acc]; reflexivity|]);
        (split; [cbn; eauto|exact Hp]).
    + split; [cbn; eauto|reflexivity].
    + exists o3. split; [|exact Hp3].
      rewrite (run_bind_inr _ (fun _ => mret _) (mkOutputs v2 a2 (Some d2)) o3 tt);
        [reflexivity|].
      rewrite (run_bind_inr (der_update (fun _ => mzero Dof (Dof * (K + 1)))) _
                 (mkOutputs v2 a2 (Some d2))
                 (mkOutputs v2 a2 (Some (mzero Dof (Dof * (K + 1))))) tt eq_refl).
      by rewrite (run_bind_inr _ _ _ _ _ Hrun3).
  - exists (mkOutputs v2 a2 None). split; reflexivity.
Qed.

Lemma insert_loop_is_map (K : nat) (f : nat -> list S) (x : list S) :
  for_range 0 K (fun i d => <[i := f i]> d) (replicate K x) = f <$> seq 0 K.
Proof.
  assert (Hinv : for_range 0 K (fun i d => <[i := f i]> d) (replicate K x)
                 = (f <$> seq 0 K) ++ replicate (K - K) x).
  { apply (for_range_ind (fun i (d : list (list S)) =>
      d = (f <$> seq 0 i) ++ replicate (K - i) x)).
    - lia.
    - simpl. by rewrite Nat.sub_0_r.
    - intros i d Hi ->.
      replace (K - i) with (Datatypes.S (K - Datatypes.S i)) by lia.
      rewrite seq_S, fmap_app. simpl.
      rewrite <- app_assoc. simpl.
      rewrite insert_app_r_alt by (rewrite length_fmap, length_seq; lia).
      rewrite length_fmap, length_seq, Nat.sub_diag. reflexivity. }
  rewrite Hinv, Nat.sub_diag. simpl. by rewrite app_nil_r.
Qed.

End CSplineMain.



Example cspline_value_line :
  cspline_value 2 [0%Q] [[1%Q]; [2%Q]]
    [[1; 0; 0]; [1 # 2; 1; -1 # 2]; [0; 0; 1 # 2]]%Q (1 # 2)%Q = [9 # 8]%Q.
Proof. vm_compute. reflexivity. Qed.

(** Requesting the acceleration without the velocity, with [K] differences,
    raises [std::bad_optional_access] from the access to the empty [vel],
    before anything is written. *)
Theorem cspline_eval_acc_requires_vel
    {S : Type} `{ScalarOps S} `{LieImpl S}
    (K : nat) (g_0 : list S) (diff_points cum_coef_mat : list (list S)) (u : S)
    (o : Outputs) :
  length diff_points = K -> vel o = None -> is_Some (acc o) ->
  cspline_eval K g_0 diff_points cum_coef_mat u o = (inl bad_optional_access, o).
Proof. apply cspline_eval_acc_without_vel_throws. Qed.

Lemma cspline_eval_acc_requires_vel_witness :
  cspline_eval 1 [0%Q] [[1%Q]] [[1; 0]; [0; 1]]%Q (1 # 2)%Q
    (mkOutputs None (Some [7%Q]) None)
  = (inl bad_optional_access, mkOutputs None (Some [7%Q]) None).
Proof.
  apply (cspline_eval_acc_requires_vel 1 [0%Q] [[1%Q]] [[1; 0]; [0; 1]]%Q (1 # 2)%Q
           (mkOutputs None (Some [7%Q]) None)).
  - reflexivity.
  - reflexivity.
  - simpl. eauto.
Defined.

(** Called with [K + 1] control points, the control-point overload is the
    difference overload on the base point [ctrl_points[0]] and the [K]
    differences of consecutive control points. *)
Theorem cspline_eval_ctrl_points_differences
    {S : Type} `{ScalarOps S} `{LieImpl S}
    (K : nat) (ctrl_points cum_coef_mat : list (list S)) (u : S) (o : Outputs) :
  length ctrl_points = K + 1 ->
  cspline_eval_ctrl_points K ctrl_points cum_coef_mat u o
  = cspline_eval K (row ctrl_points 0) (ctrl_differences K ctrl_points) cum_coef_mat u o
  /\ length (ctrl_differences K ctrl_points) = K.
Proof.
  intros Hlen. split.
  - unfold cspline_eval_ctrl_points. rewrite Hlen, Nat.eqb_refl. cbn [negb]. cbv zeta.
    unfold ctrl_differences.
    by rewrite (insert_loop_is_map K
                  (fun i => rminus (row ctrl_points (i + 1)) (row ctrl_points i))).
  - unfold ctrl_differences. by rewrite length_fmap, length_seq.
Qed.

Lemma cspline_eval_ctrl_points_differences_witness :
  cspline_eval_ctrl_points 2 [[0%Q]; [1%Q]; [3%Q]] [] (1 # 2)%Q
    (mkOutputs None None None)
  = cspline_eval 2 (row [[0%Q]; [1%Q]; [3%Q]] 0)
      (ctrl_differences 2 [[0%Q]; [1%Q]; [3%Q]]) [] (1 # 2)%Q (mkOutputs None None None)
  /\ length (ctrl_differences 2 [[0%Q]; [1%Q]; [3%Q]]) = 2.
Proof.
  apply (cspline_eval_ctrl_points_differences 2 [[0%Q]; [1%Q]; [3%Q]] [] (1 # 2)%Q
           (mkOutputs None None None)).
  reflexivity.
Defined.

(** ** [hermite_basis]: the recurrence of the Hermite polynomials *)

Section HermiteFacts.
Context {S : Type} `{ScalarOps S}.
Implicit Types M N : list (list S).

Lemma mlookup_mzero (r c i j : nat) :
  i < r -> j < c -> mlookup (mzero (S := S) r c) i j = Some (cast 0).
Proof.
  intros Hi Hj. unfold mlookup, mzero, StaticMatrix.
  rewrite lookup_replicate_2 by done. simpl. by apply lookup_replicate_2.
Qed.

Lemma mlookup_mset M r c i j a b v :
  dims M r c -> i < r -> j < c ->
  mlookup (mset M i j v) a b = if decide ((a, b) = (i, j)) then Some v else mlookup M a b.
Proof.
  intros Hd Hi Hj. destruct (decide ((a, b) = (i, j))) as [[= -> ->]|Hne].
  - by apply (mlookup_mset_eq _ r c).
  - by apply mlookup_mset_ne.
Qed.

(** The first inner loop: column [k] receives twice column [k - 1], shifted
    down by one row. *)
Lemma hermite_shift_loop (K k : nat) M :
  2 <= k <= K -> dims M (K + 1) (K + 1) ->
  (forall r, r <= K -> mlookup M r k = Some (cast 0)) ->
  let N := for_range 0 k (fun i ret =>
             mset_add ret (i + 1) k (s_mul (cast 2) (mget ret i (k - 1)))) M in
  dims N (K + 1) (K + 1) /\
  (forall r c, c <> k -> mlookup N r c = mlookup M r c) /\
  (forall r, r <= K ->
     mlookup N r k
     = Some (if (0 <? r) && (r <=? k)
             then s_add (cast 0) (s_mul (cast 2) (mget M (r - 1) (k - 1)))
             else cast 0)).
Proof.
  intros Hk HdM Hzero N.
  assert (Hinv : dims N (K + 1) (K + 1) /\
    (forall r c, c <> k -> mlookup N r c = mlookup M r c) /\
    (forall r, r <= K ->
       mlookup N r k
       = Some (if (0 <? r) && (r <=? k)
               then s_add (cast 0) (s_mul (cast 2) (mget M (r - 1) (k - 1)))
               else cast 0))).
  { subst N.
    apply (for_range_ind (fun i N =>
      dims N (K + 1) (K + 1) /\
      (forall r c, c <> k -> mlookup N r c = mlookup M r c) /\
      (forall r, r <= K ->
         mlookup N r k
         = Some (if (0 <? r) && (r <=? i)
                 then s_add (cast 0) (s_mul (cast 2) (mget M (r - 1) (k - 1)))
                 else cast 0)))).
    - lia.
    - split; [exact HdM|]. split; [done|].
      intros r Hr. rewrite Hzero by done.
      destruct (Nat.ltb_spec 0 r), (Nat.leb_spec r 0); simpl; try done; lia.
    - intros i N [_ Hi] (HdN & Hother & Hcol). unfold mset_add.
      split; [by apply dims_mset|]. split.
      + intros r c Hc. rewrite mlookup_mset_ne by congruence. by apply Hother.
      + intros r Hr.
        rewrite (mlookup_mset _ (K + 1) (K + 1)) by (done || lia).
        destruct (decide ((r, k) = (i + 1, k))) as [[= ->]|Hne].
        * destruct (Nat.ltb_spec 0 (i + 1)), (Nat.leb_spec (i + 1) (Datatypes.S i));
            simpl; try lia.
          do 2 f_equal.
          -- unfold mget. rewrite Hcol by lia.
             destruct (Nat.ltb_spec 0 (i + 1)), (Nat.leb_spec (i + 1) i);
               simpl; try lia; done.
          -- f_equal. unfold mget. rewrite Hother by lia.
             do 3 f_equal. lia.
        * rewrite Hcol by done.
          assert (r <> i + 1) by congruence.
          destruct (Nat.ltb_spec 0 r), (Nat.leb_spec r i),
            (Nat.leb_spec r (Datatypes.S i)); simpl; try lia; done. }
  exact Hinv.
Qed.

(** The second inner loop: [2 (k - 1)] times column [k - 2] is subtracted
    from the rows above the two last ones. *)
Lemma hermite_subtract_loop (K k : nat) M N :
  2 <= k <= K -> dims N (K + 1) (K + 1) ->
  (forall r c, c <> k -> mlookup N r c = mlookup M r c) ->
  let N' := for_range 0 (k - 1) (fun i ret =>
              mset_sub ret i k
                (s_mul (cast (Z.of_nat (2 * (k - 1)))) (mget ret i (k - 2)))) N in
  dims N' (K + 1) (K + 1) /\
  (forall r c, c <> k -> mlookup N' r c = mlookup M r c) /\
  (forall r, r <= K ->
     mlookup N' r k
     = if r <? k - 1
       then Some (s_sub (mget N r k)
                    (s_mul (cast (Z.of_nat (2 * (k - 1)))) (mget M r (k - 2))))
       else mlookup N r k).
Proof.
  intros Hk HdN Hsame N'. subst N'.
  apply (for_range_ind (fun i N' =>
    dims N' (K + 1) (K + 1) /\
    (forall r c, c <> k -> mlookup N' r c = mlookup M r c) /\
    (forall r, r <= K ->
       mlookup N' r k
       = if r <? i
         then Some (s_sub (mget N r k)
                      (s_mul (cast (Z.of_nat (2 * (k - 1)))) (mget M r (k - 2))))
         else mlookup N r k))).
  - lia.
  - split; [exact HdN|]. split; [exact Hsame|]. intros r Hr. reflexivity.
  - intros i N' [_ Hi] (HdN' & Hother & Hcol). unfold mset_sub.
    split; [by apply dims_mset|]. split.
    + intros r c Hc. rewrite mlookup_mset_ne by congruence. by apply Hother.
    + intros r Hr.
      rewrite (mlookup_mset _ (K + 1) (K + 1)) by (done || lia).
      destruct (decide ((r, k) = (i, k))) as [[= ->]|Hne].
      * destruct (Nat.ltb_spec i (Datatypes.S i)); [|lia].
        do 2 f_equal.
        -- unfold mget. rewrite Hcol by lia.
           destruct (Nat.ltb_spec i i); [lia|done].
        -- f_equal. unfold mget. by rewrite Hother by lia.
      * rewrite Hcol by done.
        assert (r <> i) by congruence.
        destruct (Nat.ltb_spec r i), (Nat.ltb_spec r (Datatypes.S i)); try lia; done.
Qed.

Lemma hermite_recurrence_ext M N (i k : nat) :
  2 <= k ->
  (forall r c, c < k -> mlookup N r c = mlookup M r c) ->
  hermite_recurrence N i k = hermite_recurrence M i k.
Proof.
  intros Hk Hsame. unfold hermite_recurrence, mget.
  rewrite !Hsame by lia. reflexivity.
Qed.

Lemma hermite_basis_invariant (K : nat) :
  dims (hermite_basis K) (K + 1) (K + 1) /\
  (forall r c, c < 2 ->
     mlookup (hermite_basis K) r c
     = mlookup (if 0 <? K then mset (mset (mzero (K + 1) (K + 1)) 0 0 (cast 1)) 1 1 (cast 2)
                else mset (mzero (K + 1) (K + 1)) 0 0 (cast 1)) r c) /\
  (forall r c, r <= K -> 2 <= c <= K ->
     mlookup (hermite_basis K) r c = Some (hermite_recurrence (hermite_basis K) r c)).
Proof.
  unfold hermite_basis. cbv zeta. cbn [mnew standard_matrix].
  set (M0 := if 0 <? K then mset (mset (mzero (K + 1) (K + 1)) 0 0 (cast 1)) 1 1 (cast 2)
             else mset (mzero (K + 1) (K + 1)) 0 0 (cast 1)).
  assert (Hd0 : dims M0 (K + 1) (K + 1)).
  { subst M0. destruct (0 <? K); repeat apply dims_mset; apply dims_mzero. }
  assert (Hz0 : forall r c, r <= K -> 2 <= c <= K -> mlookup M0 r c = Some (cast 0)).
  { intros r c Hr Hc. subst M0.
    destruct (0 <? K); rewrite !mlookup_mset_ne by (intros [=]; lia);
      apply mlookup_mzero; lia. }
  destruct (Nat.ltb_spec 1 K) as [HK|HK].
  - assert (Hinv :
      let R := for_range 2 (K + 1) (fun k ret =>
        let ret := for_range 0 k (fun i ret =>
                     mset_add ret (i + 1) k (s_mul (cast 2) (mget ret i (k - 1)))) ret in
        for_range 0 (k - 1) (fun i ret =>
          mset_sub ret i k (s_mul (cast (Z.of_nat (2 * (k - 1)))) (mget ret i (k - 2))))
          ret) M0 in
      dims R (K + 1) (K + 1) /\
      (forall r c, c < 2 -> mlookup R r c = mlookup M0 r c) /\
      (forall r c, r <= K -> K + 1 <= c <= K -> mlookup R r c = Some (cast 0)) /\
      (forall r c, r <= K -> 2 <= c < K + 1 ->
         mlookup R r c = Some (hermite_recurrence R r c))).
    { intros R. subst R.
      apply (for_range_ind (fun k (M : list (list S)) =>
        dims M (K + 1) (K + 1) /\
        (forall r c, c < 2 -> mlookup M r c = mlookup M0 r c) /\
        (forall r c, r <= K -> k <= c <= K -> mlookup M r c = Some (cast 0)) /\
        (forall r c, r <= K -> 2 <= c < k ->
           mlookup M r c = Some (hermite_recurrence M r c)))).
      - lia.
      - split; [exact Hd0|]. split; [done|]. split; [exact Hz0|]. intros; lia.
      - intros k M Hk (HdM & Hlow & Hzero & Hrec). cbv zeta.
        destruct (hermite_shift_loop K k M ltac:(lia) HdM
                    (fun r Hr => Hzero r k Hr ltac:(lia))) as (Hd1 & Hsame1 & Hcol1).
        destruct (hermite_subtract_loop K k M _ ltac:(lia) Hd1 Hsame1)
          as (Hd2 & Hsame2 & Hcol2).
        split; [exact Hd2|]. split; [|split].
        + intros r c Hc. rewrite Hsame2 by lia. by apply Hlow.
        + intros r c Hr Hc. rewrite Hsame2 by lia. apply Hzero; lia.
        + intros r c Hr Hc.
          rewrite (hermite_recurrence_ext M) by (lia || (intros; apply Hsame2; lia)).
          destruct (decide (c = k)) as [->|Hne].
          * rewrite Hcol2 by done. unfold hermite_recurrence.
            rewrite (mlookup_mget _ _ _ _ (Hcol1 r Hr)).
            destruct (r <? k - 1); [reflexivity|]. by apply Hcol1.
          * rewrite Hsame2 by done. apply Hrec; lia. }
    cbv zeta in Hinv. destruct Hinv as (Hd & Hlow & _ & Hrec).
    split; [exact Hd|]. split; [exact Hlow|].
    intros r c Hr Hc. apply Hrec; lia.
  - split; [exact Hd0|]. split; [done|]. intros; lia.
Qed.

End HermiteFacts.

(** With the zero-filling constructor, the columns of [hermite_basis<K>]
    hold the coefficients of the Hermite polynomials: column 0 is [1],
    column 1 is [2 x], and every column [k >= 2] is obtained from the two
    columns before it by [H_k = 2 x H_(k-1) - 2 (k-1) H_(k-2)]. *)
Theorem hermite_basis_columns {S : Type} `{ScalarOps S} (K i : nat) :
  i <= K ->
  mlookup (hermite_basis K) i 0 = Some (if i =? 0 then cast 1 else cast 0) /\
  (1 <= K -> mlookup (hermite_basis K) i 1 = Some (if i =? 1 then cast 2 else cast 0)) /\
  (forall k, 2 <= k <= K ->
     mlookup (hermite_basis K) i k = Some (hermite_recurrence (hermite_basis K) i k)).
Proof.
  intros Hi. destruct (hermite_basis_invariant K) as (Hd & Hlow & Hrec).
  split; [|split].
  - rewrite Hlow by lia.
    destruct (Nat.ltb_spec 0 K).
    + rewrite mlookup_mset_ne by (intros [=]).
      rewrite (mlookup_mset _ (K + 1) (K + 1)) by (apply dims_mzero || lia).
      destruct (decide ((i, 0) = (0, 0))) as [[= ->]|Hne]; [done|].
      destruct (Nat.eqb_spec i 0); [congruence|]. apply mlookup_mzero; lia.
    + rewrite (mlookup_mset _ (K + 1) (K + 1)) by (apply dims_mzero || lia).
      destruct (decide ((i, 0) = (0, 0))) as [[= ->]|Hne]; [done|].
      destruct (Nat.eqb_spec i 0); [congruence|]. apply mlookup_mzero; lia.
  - intros HK. rewrite Hlow by lia.
    destruct (Nat.ltb_spec 0 K); [|lia].
    rewrite (mlookup_mset _ (K + 1) (K + 1))
      by (apply dims_mset, dims_mzero || lia).
    destruct (decide ((i, 1) = (1, 1))) as [[= ->]|Hne]; [done|].
    destruct (Nat.eqb_spec i 1); [congruence|].
    rewrite mlookup_mset_ne by (intros [=]). apply mlookup_mzero; lia.
  - intros k Hk. by apply Hrec.
Qed.

Lemma hermite_basis_columns_witness :
  mlookup (hermite_basis (S := Q) 4) 2 0 = Some (cast 0) /\
  (1 <= 4 -> mlookup (hermite_basis (S := Q) 4) 2 1 = Some (cast 0)) /\
  (forall k, 2 <= k <= 4 ->
     mlookup (hermite_basis (S := Q) 4) 2 k
     = Some (hermite_recurrence (hermite_basis (S := Q) 4) 2 k)).
Proof. apply (hermite_basis_columns (S := Q) 4 2). lia. Defined.

(** The first five Hermite polynomials: [1], [2x], [4x^2 - 2],
    [8x^3 - 12x], [16x^4 - 48x^2 + 12]. *)
Example hermite_basis_4 :
  hermite_basis (S := Q) 4
  = [[1; 0; -2; 0; 12]; [0; 2; 0; -12; 0]; [0; 0; 4; 0; -48];
     [0; 0; 0; 8; 0]; [0; 0; 0; 0; 16]]%Q.
Proof. vm_compute. reflexivity. Qed.

(** ** [spline_specs::MinDerivative] *)

(** Whatever the array holds before, the initialiser of
    [MinDerivative::LeftDeg] assigns all its [P - 1] entries: the result is
    [1, 2, ..., P - 1], as documented. *)
Theorem MinDerivative_LeftDeg_values (P : nat) (uninit : list Z) :
  length uninit = P - 1 ->
  MinDerivative_LeftDeg P uninit = Z.of_nat <$> seq 1 (P - 1).
Proof.
  intros Hlen. unfold MinDerivative_LeftDeg.
  assert (Hinv : for_range 0 (P - 1) (fun i ret => <[i := Z.of_nat (i + 1)]> ret) uninit
                 = (Z.of_nat <$> seq 1 (P - 1)) ++ drop (P - 1) uninit).
  { apply (for_range_ind (fun i (ret : list Z) =>
      ret = (Z.of_nat <$> seq 1 i) ++ drop i uninit)).
    - lia.
    - simpl. by rewrite drop_0.
    - intros i ret Hi ->.
      destruct (lookup_lt_is_Some_2 uninit i ltac:(lia)) as [x Hx].
      rewrite (drop_S _ _ _ Hx).
      rewrite insert_app_r_alt by (rewrite length_fmap, length_seq; lia).
      rewrite length_fmap, length_seq, Nat.sub_diag.
      rewrite seq_S, fmap_app, <- app_assoc. cbn [list_insert insert fmap list_fmap app].
      do 3 f_equal. lia. }
  rewrite Hinv, drop_ge by lia. by rewrite app_nil_r.
Qed.

Lemma MinDerivative_LeftDeg_values_witness :
  MinDerivative_LeftDeg 3 [7; 7]%Z = Z.of_nat <$> seq 1 (3 - 1).
Proof. apply (MinDerivative_LeftDeg_values 3 [7; 7]%Z). reflexivity. Defined.

(** ** [integrate_absolute_polynomial] *)

Section IntegrateAbsoluteFacts.
Local Open Scope R_scope.

Lemma integ_derivable_pt_lim (A B C x : R) :
  derivable_pt_lim (integ A B C) x (A * x * x + B * x + C).
Proof.
  unfold integ.
  replace (A * x * x + B * x + C)
    with ((((A * 1 * x + A * x * 1) * x + A * x * x * 1) * / 3)
          + ((B * 1 * x + B * x * 1) * / 2) + C * 1) by field.
  unfold Rdiv.
  apply (derivable_pt_lim_plus
           (fun u => A * u * u * u * / 3 + B * u * u * / 2) (fun u => C * u)).
  - apply (derivable_pt_lim_plus
             (fun u => A * u * u * u * / 3) (fun u => B * u * u * / 2)).
    + apply (derivable_pt_lim_scal_right (fun u => A * u * u * u)).
      apply (derivable_pt_lim_mult (fun u => A * u * u) (fun u => u)).
      * apply (derivable_pt_lim_mult (fun u => A * u) (fun u => u)).
        -- apply (derivable_pt_lim_scal (fun u => u)). apply derivable_pt_lim_id.
        -- apply derivable_pt_lim_id.
      * apply derivable_pt_lim_id.
    + apply (derivable_pt_lim_scal_right (fun u => B * u * u)).
      apply (derivable_pt_lim_mult (fun u => B * u) (fun u => u)).
      * apply (derivable_pt_lim_scal (fun u => u)). apply derivable_pt_lim_id.
      * apply derivable_pt_lim_id.
  - apply (derivable_pt_lim_scal (fun u => u)). apply derivable_pt_lim_id.
Qed.

Lemma integ_derivable (A B C : R) : derivable (integ A B C).
Proof.
  intros x. exists (A * x * x + B * x + C). apply integ_derivable_pt_lim.
Qed.

Lemma integ_derive (A B C x : R) :
  derive (integ A B C) (integ_derivable A B C) x = A * x * x + B * x + C.
Proof. unfold derive. apply derive_pt_eq_0, integ_derivable_pt_lim. Qed.

Lemma quadratic_continuity (A B C : R) : continuity (fun t => A * t * t + B * t + C).
Proof. reg. Qed.

Lemma integ_derive_continuity (A B C : R) :
  continuity (derive (integ A B C) (integ_derivable A B C)).
Proof.
  intros x.
  apply (continuity_pt_locally_ext (fun t => A * t * t + B * t + C) _ 1);
    [lra| |apply quadratic_continuity].
  intros y _. symmetry. apply integ_derive.
Qed.

(** The integral of the polynomial is the difference of [integ]. *)
Lemma RiemannInt_quadratic (A B C a b : R)
    (pr : Riemann_integrable (fun t => A * t * t + B * t + C) a b) :
  a <= b -> RiemannInt pr = integ A B C b - integ A B C a.
Proof.
  intros Hab.
  set (F := mkC1 (integ_derive_continuity A B C)).
  change (RiemannInt pr = F b - F a).
  rewrite <- (@FTC_Riemann F a b (RiemannInt_P32 F a b)).
  apply RiemannInt_P18; [exact Hab|].
  intros x _. symmetry. apply integ_derive.
Qed.

Lemma quadratic_integrable (A B C a b : R) :
  a <= b -> Riemann_integrable (fun t => A * t * t + B * t + C) a b.
Proof.
  intros Hab. apply continuity_implies_RiemannInt; [exact Hab|].
  intros x _. apply quadratic_continuity.
Qed.

(** On an interval where the polynomial keeps the sign [sigma], the integral
    of its absolute value is [sigma] times the difference of [integ]. *)
Lemma RiemannInt_abs_piece (A B C a b sigma : R)
    (pr : Riemann_integrable (fun t => Rabs (A * t * t + B * t + C)) a b) :
  a <= b -> sigma = 1 \/ sigma = -1 ->
  (forall t, a < t < b -> 0 <= sigma * (A * t * t + B * t + C)) ->
  RiemannInt pr = sigma * (integ A B C b - integ A B C a).
Proof.
  intros Hab Hsigma Hsign.
  pose proof (quadratic_integrable A B C a b Hab) as prf.
  pose proof (RiemannInt_P14 a b 0) as pr0.
  pose proof (RiemannInt_P10 sigma pr0 prf) as prs.
  rewrite (RiemannInt_P18 pr prs Hab).
  - rewrite (RiemannInt_P12 pr0 prf prs Hab).
    rewrite RiemannInt_P15, (RiemannInt_quadratic A B C a b prf Hab). ring.
  - intros t Ht. specialize (Hsign t Ht). unfold fct_cte.
    destruct Hsigma as [-> | ->].
    + rewrite Rabs_right by lra. ring.
    + rewrite Rabs_left1 by lra. ring.
Qed.

Lemma abs_integrable (A B C a b : R) :
  a <= b -> Riemann_integrable (fun t => Rabs (A * t * t + B * t + C)) a b.
Proof. intros Hab. by apply RiemannInt_P16, quadratic_integrable. Qed.

(** Three consecutive intervals with the signs [sigma], [- sigma], [sigma]. *)
Lemma RiemannInt_abs_three_pieces (A B C t0 m1 m2 t1 sigma : R)
    (pr : Riemann_integrable (fun t => Rabs (A * t * t + B * t + C)) t0 t1) :
  t0 <= m1 -> m1 <= m2 -> m2 <= t1 -> sigma = 1 \/ sigma = -1 ->
  (forall t, t0 < t < m1 -> 0 <= sigma * (A * t * t + B * t + C)) ->
  (forall t, m1 < t < m2 -> sigma * (A * t * t + B * t + C) <= 0) ->
  (forall t, m2 < t < t1 -> 0 <= sigma * (A * t * t + B * t + C)) ->
  Rabs (integ A B C t1 - integ A B C t0 + 2 * integ A B C m1 - 2 * integ A B C m2)
  = RiemannInt pr.
Proof.
  intros H01 H12 H23 Hsigma Hs1 Hs2 Hs3.
  pose proof (abs_integrable A B C t0 m1 H01) as p1.
  pose proof (abs_integrable A B C m1 m2 H12) as p2.
  pose proof (abs_integrable A B C m2 t1 H23) as p3.
  pose proof (abs_integrable A B C t0 m2 ltac:(lra)) as p12.
  rewrite <- (RiemannInt_P26 p12 p3 pr), <- (RiemannInt_P26 p1 p2 p12).
  assert (Hneg : - sigma = 1 \/ - sigma = -1) by (destruct Hsigma; lra).
  rewrite (RiemannInt_abs_piece A B C t0 m1 sigma p1 H01 Hsigma Hs1).
  rewrite (RiemannInt_abs_piece A B C m1 m2 (- sigma) p2 H12 Hneg)
    by (intros t Ht; specialize (Hs2 t Ht); lra).
  rewrite (RiemannInt_abs_piece A B C m2 t1 sigma p3 H23 Hsigma Hs3).
  assert (Hpos : 0 <= sigma * (integ A B C m1 - integ A B C t0)
                      + - sigma * (integ A B C m2 - integ A B C m1)
                      + sigma * (integ A B C t1 - integ A B C m2)).
  { rewrite <- (RiemannInt_abs_piece A B C t0 m1 sigma p1 H01 Hsigma Hs1).
    rewrite <- (RiemannInt_abs_piece A B C m1 m2 (- sigma) p2 H12 Hneg)
      by (intros t Ht; specialize (Hs2 t Ht); lra).
    rewrite <- (RiemannInt_abs_piece A B C m2 t1 sigma p3 H23 Hsigma Hs3).
    pose proof (RiemannInt_P17 (quadratic_integrable A B C t0 m1 H01) p1 H01).
    pose proof (RiemannInt_P17 (quadratic_integrable A B C m1 m2 H12) p2 H12).
    pose proof (RiemannInt_P17 (quadratic_integrable A B C m2 t1 H23) p3 H23).
    pose proof (Rabs_pos (RiemannInt (quadratic_integrable A B C t0 m1 H01))).
    pose proof (Rabs_pos (RiemannInt (quadratic_integrable A B C m1 m2 H12))).
    pose proof (Rabs_pos (RiemannInt (quadratic_integrable A B C m2 t1 H23))).
    lra. }
  destruct Hsigma as [-> | ->].
  - rewrite Rabs_right by lra. ring.
  - rewrite Rabs_left1 by lra. ring.
Qed.

Lemma clamp_bounds (v lo hi : R) : lo <= hi -> lo <= clamp v lo hi <= hi.
Proof. intros Hle. unfold clamp. destruct (Rlt_dec v lo), (Rlt_dec hi v); lra. Qed.

Lemma clamp_idem (v lo hi : R) : lo <= hi -> clamp (clamp v lo hi) lo hi = clamp v lo hi.
Proof.
  intros Hle. pose proof (clamp_bounds v lo hi Hle).
  unfold clamp at 1.
  destruct (Rlt_dec (clamp v lo hi) lo), (Rlt_dec hi (clamp v lo hi)); lra.
Qed.

(** A quadratic with two real roots [r1 <= r2], cut at the clamped roots. *)
Lemma roots_sign_pieces (A t0 t1 r1 r2 : R) :
  t0 <= t1 -> r1 <= r2 -> A <> 0 ->
  let sigma := if Rlt_dec 0 A then 1 else -1 in
  let m1 := clamp r1 t0 t1 in
  let m2 := clamp r2 t0 t1 in
  t0 <= m1 /\ m1 <= m2 /\ m2 <= t1 /\ (sigma = 1 \/ sigma = -1) /\
  (forall t, t0 < t < m1 -> 0 <= sigma * (A * ((t - r1) * (t - r2)))) /\
  (forall t, m1 < t < m2 -> sigma * (A * ((t - r1) * (t - r2))) <= 0) /\
  (forall t, m2 < t < t1 -> 0 <= sigma * (A * ((t - r1) * (t - r2)))).
Proof.
  intros H01 Hr HA sigma m1 m2.
  assert (HsA : 0 < sigma * A).
  { subst sigma. destruct (Rlt_dec 0 A); lra. }
  assert (Hs : sigma = 1 \/ sigma = -1).
  { subst sigma. destruct (Rlt_dec 0 A); lra. }
  pose proof (clamp_bounds r1 t0 t1 H01) as Hb1.
  pose proof (clamp_bounds r2 t0 t1 H01) as Hb2.
  assert (Hm : m1 <= m2).
  { subst m1 m2. unfold clamp.
    destruct (Rlt_dec r1 t0), (Rlt_dec t1 r1), (Rlt_dec r2 t0), (Rlt_dec t1 r2); lra. }
  fold m1 in Hb1. fold m2 in Hb2.
  split; [lra|]. split; [exact Hm|]. split; [lra|]. split; [exact Hs|].
  split; [|split].
  - intros t Ht.
    assert (t <= r1).
    { subst m1. unfold clamp in Ht.
      destruct (Rlt_dec r1 t0), (Rlt_dec t1 r1); lra. }
    rewrite <- Rmult_assoc. apply Rmult_le_pos; [lra|].
    replace ((t - r1) * (t - r2)) with ((r1 - t) * (r2 - t)) by ring.
    apply Rmult_le_pos; lra.
  - intros t Ht.
    assert (r1 <= t <= r2).
    { subst m1 m2. unfold clamp in Ht.
      destruct (Rlt_dec r1 t0), (Rlt_dec t1 r1), (Rlt_dec r2 t0), (Rlt_dec t1 r2); lra. }
    rewrite <- Rmult_assoc.
    replace (sigma * A * ((t - r1) * (t - r2)))
      with (- (sigma * A * ((t - r1) * (r2 - t)))) by ring.
    assert (0 <= sigma * A * ((t - r1) * (r2 - t)));
      [apply Rmult_le_pos; [lra|apply Rmult_le_pos; lra]|lra].
  - intros t Ht.
    assert (r2 <= t).
    { subst m2. unfold clamp in Ht.
      destruct (Rlt_dec r2 t0), (Rlt_dec t1 r2); lra. }
    rewrite <- Rmult_assoc. apply Rmult_le_pos; [lra|].
    apply Rmult_le_pos; lra.
Qed.

Lemma integrate_absolute_polynomial_spec (t0 t1 A B C : R)
    (pr : Riemann_integrable (fun t => Rabs (A * t * t + B * t + C)) t0 t1) :
  t0 <= t1 ->
  1 / 1000000000 < Rabs A \/ (A = 0 /\ (1 / 1000000000 < Rabs B \/ B = 0)) ->
  integrate_absolute_polynomial t0 t1 A B C = RiemannInt pr.
Proof.
  intros H01 Hcase. unfold integrate_absolute_polynomial.
  destruct (sumbool_and _ _ _ _ (Rlt_dec (Rabs A) (1 / 1000000000))
              (Rlt_dec (1 / 1000000000) (Rabs B))) as [[HA HB]|Hnot].
  - (* linear *)
    destruct Hcase as [HA' | [-> HB']]; [lra|]. clear HB'.
    assert (HBne : B <> 0) by (intros ->; rewrite Rabs_R0 in HB; lra).
    cbn [clamp_inf]. rewrite clamp_idem by exact H01.
    pose proof (clamp_bounds (- C / B) t0 t1 H01) as Hb.
    assert (Hform : forall t, 0 * t * t + B * t + C = B * (t - - C / B))
      by (intros t; field; exact HBne).
    apply (RiemannInt_abs_three_pieces 0 B C t0 (clamp (- C / B) t0 t1) t1 t1
             (if Rlt_dec 0 B then -1 else 1)); try lra.
    + destruct (Rlt_dec 0 B); lra.
    + intros t Ht. rewrite Hform.
      assert (t <= - C / B).
      { unfold clamp in Ht.
        destruct (Rlt_dec (- C / B) t0), (Rlt_dec t1 (- C / B)); lra. }
      destruct (Rlt_dec 0 B).
      * replace (-1 * (B * (t - - C / B))) with (B * (- C / B - t)) by ring.
        apply Rmult_le_pos; lra.
      * replace (1 * (B * (t - - C / B))) with (- B * (- C / B - t)) by ring.
        apply Rmult_le_pos; lra.
    + intros t Ht. rewrite Hform.
      assert (- C / B <= t).
      { unfold clamp in Ht.
        destruct (Rlt_dec (- C / B) t0), (Rlt_dec t1 (- C / B)); lra. }
      destruct (Rlt_dec 0 B).
      * replace (-1 * (B * (t - - C / B))) with (- (B * (t - - C / B))) by ring.
        assert (0 <= B * (t - - C / B)); [apply Rmult_le_pos; lra|lra].
      * replace (1 * (B * (t - - C / B))) with (- (- B * (t - - C / B))) by ring.
        assert (0 <= - B * (t - - C / B)); [apply Rmult_le_pos; lra|lra].
    + intros t Ht. lra.
  - destruct (Rlt_dec (1 / 1000000000) (Rabs A)) as [HA|HA].
    + (* quadratic *)
      assert (HAne : A <> 0) by (intros ->; rewrite Rabs_R0 in HA; lra).
      destruct (Rlt_dec 0 (B * B / (4 * A * A) - C / A)) as [Hres|Hres].
      * set (res := B * B / (4 * A * A) - C / A) in *.
        cbn [clamp_inf].
        pose proof (sqrt_lt_R0 _ Hres) as Hsq.
        pose proof (sqrt_sqrt res (Rlt_le _ _ Hres)) as Hss.
        assert (Hform : forall t, A * t * t + B * t + C
          = A * ((t - (- B / (2 * A) - sqrt res)) * (t - (- B / (2 * A) + sqrt res)))).
        { intros t.
          replace ((t - (- B / (2 * A) - sqrt res)) * (t - (- B / (2 * A) + sqrt res)))
            with ((t + B / (2 * A)) * (t + B / (2 * A)) - sqrt res * sqrt res)
            by (field; exact HAne).
          rewrite Hss. subst res. field. exact HAne. }
        destruct (roots_sign_pieces A t0 t1 (- B / (2 * A) - sqrt res)
                    (- B / (2 * A) + sqrt res) H01 ltac:(lra) HAne)
          as (H1 & H2 & H3 & Hs & Hp1 & Hp2 & Hp3).
        apply (RiemannInt_abs_three_pieces A B C t0 _ _ t1
                 (if Rlt_dec 0 A then 1 else -1)); try assumption.
        -- intros t Ht. rewrite Hform. by apply Hp1.
        -- intros t Ht. rewrite Hform. by apply Hp2.
        -- intros t Ht. rewrite Hform. by apply Hp3.
      * cbn [clamp_inf].
        assert (Hform : forall t, A * t * t + B * t + C
          = A * ((t + B / (2 * A)) * (t + B / (2 * A))
                 - (B * B / (4 * A * A) - C / A)))
          by (intros t; field; exact HAne).
        apply (RiemannInt_abs_three_pieces A B C t0 t1 t1 t1
                 (if Rlt_dec 0 A then 1 else -1)); try lra.
        -- destruct (Rlt_dec 0 A); lra.
        -- intros t Ht. rewrite Hform.
           assert (0 <= (t + B / (2 * A)) * (t + B / (2 * A))
                        - (B * B / (4 * A * A) - C / A)).
           { pose proof (Rle_0_sqr (t + B / (2 * A))) as Hsqr.
             unfold Rsqr in Hsqr. lra. }
           destruct (Rlt_dec 0 A).
           ++ rewrite Rmult_1_l. apply Rmult_le_pos; lra.
           ++ replace (-1 * (A * ((t + B / (2 * A)) * (t + B / (2 * A))
                                  - (B * B / (4 * A * A) - C / A))))
                with (- A * ((t + B / (2 * A)) * (t + B / (2 * A))
                             - (B * B / (4 * A * A) - C / A))) by ring.
              apply Rmult_le_pos; lra.
        -- intros t Ht. lra.
        -- intros t Ht. lra.
    + (* constant *)
      destruct Hcase as [HA' | [-> [HB | ->]]]; [lra| |].
      * destruct Hnot as [Hn|Hn]; [|lra]. rewrite Rabs_R0 in Hn. lra.
      * cbn [clamp_inf].
        apply (RiemannInt_abs_three_pieces 0 0 C t0 t1 t1 t1
                 (if Rlt_dec C 0 then -1 else 1)); try lra.
        -- destruct (Rlt_dec C 0); lra.
        -- intros t Ht. destruct (Rlt_dec C 0); lra.
        -- intros t Ht. lra.
        -- intros t Ht. lra.
Qed.

End IntegrateAbsoluteFacts.

(** For [t0 <= t1], [integrate_absolute_polynomial] returns the Riemann
    integral of [|A t^2 + B t + C|] over [[t0, t1]], provided the polynomial
    is of the kind its thresholds assume: quadratic with [|A| > 1e-9],
    linear with [A = 0] and [|B| > 1e-9], or constant. *)
Theorem integrate_absolute_polynomial_is_integral (t0 t1 A B C : R)
    (pr : Riemann_integrable (fun t => Rabs (A * t * t + B * t + C)) t0 t1) :
  (t0 <= t1)%R ->
  (1 / 1000000000 < Rabs A \/ (A = 0 /\ (1 / 1000000000 < Rabs B \/ B = 0)))%R ->
  integrate_absolute_polynomial t0 t1 A B C = RiemannInt pr.
Proof. apply integrate_absolute_polynomial_spec. Qed.

Lemma integrate_absolute_polynomial_is_integral_witness :
  exists pr : Riemann_integrable (fun t => Rabs (1 * t * t + 0 * t + -1)) 0 2,
    integrate_absolute_polynomial 0 2 1 0 (-1) = RiemannInt pr.
Proof.
  assert (H02 : (0 <= 2)%R) by lra.
  exists (abs_integrable 1 0 (-1) 0 2 H02).
  apply integrate_absolute_polynomial_is_integral; [exact H02|].
  left. rewrite Rabs_R1. lra.
Defined.

(** The integral of [|t|] over [[-1, 1]] is [1]. *)
Example integrate_absolute_polynomial_abs_t :
  integrate_absolute_polynomial (-1) 1 0 1 0 = 1%R.
Proof.
  unfold integrate_absolute_polynomial.
  destruct (sumbool_and _ _ _ _ (Rlt_dec (Rabs 0) (1 / 1000000000))
              (Rlt_dec (1 / 1000000000) (Rabs 1))) as [_|[Hn|Hn]].
  - cbn [clamp_inf]. unfold clamp.
    replace (- 0 / 1)%R with 0%R by field.
    destruct (Rlt_dec 0 (-1)); [lra|]. destruct (Rlt_dec 1 0); [lra|].
    destruct (Rlt_dec 0 (-1)); [lra|]. destruct (Rlt_dec 1 0); [lra|].
    unfold integ.
    replace (0 * 1 * 1 * 1 / 3 + 1 * 1 * 1 / 2 + 0 * 1
             - (0 * -1 * -1 * -1 / 3 + 1 * -1 * -1 / 2 + 0 * -1)
             + 2 * (0 * 0 * 0 * 0 / 3 + 1 * 0 * 0 / 2 + 0 * 0)
             - 2 * (0 * 1 * 1 * 1 / 3 + 1 * 1 * 1 / 2 + 0 * 1))%R
      with (Ropp 1) by field.
    rewrite Rabs_Ropp. apply Rabs_R1.
  - rewrite Rabs_R0 in Hn. lra.
  - rewrite Rabs_R1 in Hn. lra.
Qed.

(** ** The basis matrices on examples *)

(** Bernstein polynomials of degree 2: [(1-x)^2], [2x(1-x)], [x^2]. *)
Example bernstein_basis_2 :
  bernstein_basis (S := Q) 2 = [[1; 0; 0]; [-2; 2; 0]; [1; -2; 1]]%Q.
Proof. vm_compute. reflexivity. Qed.

(** Laguerre polynomials up to [L_3 = 1 - 3x + 3x^2/2 - x^3/6]. *)
Example laguerre_basis_3 :
  laguerre_basis (S := Q) 3
  = [[1; 1; 1; 1]; [0; -1; -2; -3]; [0; 0; 1 # 2; 3 # 2]; [0; 0; 0; -1 # 6]]%Q.
Proof. vm_compute. reflexivity. Qed.

(** Legendre polynomials up to [P_3 = (5x^3 - 3x)/2]. *)
Example legendre_basis_3 :
  polynomial_basis (S := Q) Legendre 3
  = [[1; 0; -1 # 2; 0]; [0; 1; 0; -3 # 2]; [0; 0; 3 # 2; 0]; [0; 0; 0; 5 # 2]]%Q.
Proof. vm_compute. reflexivity. Qed.

(** Chebyshev polynomials of the first kind up to [T_4 = 8x^4 - 8x^2 + 1]. *)
Example chebyshev1st_basis_4 :
  polynomial_basis (S := Q) Chebyshev1st 4
  = [[1; 0; -1; 0; 1]; [0; 1; 0; -3; 0]; [0; 0; 2; 0; -8];
     [0; 0; 0; 4; 0]; [0; 0; 0; 0; 8]]%Q.
Proof. vm_compute. reflexivity. Qed.

(** Chebyshev polynomials of the second kind up to [U_3 = 8x^3 - 4x]. *)
Example chebyshev2nd_basis_3 :
  polynomial_basis (S := Q) Chebyshev2nd 3
  = [[1; 0; -1; 0]; [0; 2; 0; -4]; [0; 0; 4; 0]; [0; 0; 0; 8]]%Q.
Proof. vm_compute. reflexivity. Qed.

(** The cumulative quadratic B-spline matrix. *)
Example cum_coefmat_bspline_2 :
  cum_coefmat (S := Q) BSPLINE 2 = [[1; 1 # 2; 0]; [0; 1; 0]; [0; -1 # 2; 1 # 2]]%Q.
Proof. vm_compute. reflexivity. Qed.

(** ** [laguerre_basis] and [jacobi_basis]: three-term recurrences *)

Section ThreeTermFacts.
Context {S : Type} `{ScalarOps S}.
Implicit Types M N : list (list S).

(** The first inner loop of both functions: row [i] of column [k] takes the
    term from row [i] of column [k - 1], row [i + 1] the shifted term. *)
Lemma two_update_loop (K k : nat) M (op1 op2 : S -> S -> S) (g1 g2 : S -> S) :
  2 <= k <= K -> dims M (K + 1) (K + 1) ->
  (forall r, r <= K -> mlookup M r k = Some (cast 0)) ->
  let N := for_range 0 k (fun i ret =>
             let ret := mset ret i k (op1 (mget ret i k) (g1 (mget ret i (k - 1)))) in
             mset ret (i + 1) k (op2 (mget ret (i + 1) k) (g2 (mget ret i (k - 1)))))
             M in
  dims N (K + 1) (K + 1) /\
  (forall r c, c <> k -> mlookup N r c = mlookup M r c) /\
  (forall r, r <= K ->
     mlookup N r k
     = Some (let shifted := if 0 <? r then op2 (cast 0) (g2 (mget M (r - 1) (k - 1)))
                            else cast 0 in
             if r <? k then op1 shifted (g1 (mget M r (k - 1)))
             else if r =? k then shifted else cast 0)).
Proof.
  intros Hk HdM Hzero N. subst N.
  apply (for_range_ind (fun i N =>
    dims N (K + 1) (K + 1) /\
    (forall r c, c <> k -> mlookup N r c = mlookup M r c) /\
    (forall r, r <= K ->
       mlookup N r k
       = Some (let shifted := if 0 <? r then op2 (cast 0) (g2 (mget M (r - 1) (k - 1)))
                              else cast 0 in
               if r <? i then op1 shifted (g1 (mget M r (k - 1)))
               else if r =? i then shifted else cast 0)))).
  - lia.
  - split; [exact HdM|]. split; [done|].
    intros r Hr. rewrite Hzero by done. cbv zeta.
    destruct (Nat.ltb_spec r 0); [lia|].
    destruct (Nat.eqb_spec r 0) as [->|Hne]; [|done].
    destruct (Nat.ltb_spec 0 0); [lia|done].
  - intros i N [_ Hi] (HdN & Hother & Hcol). cbv zeta.
    assert (Hd1 : dims (mset N i k (op1 (mget N i k) (g1 (mget N i (k - 1)))))
                    (K + 1) (K + 1)) by by apply dims_mset.
    split; [by apply dims_mset|]. split.
    + intros r c Hc. rewrite !mlookup_mset_ne by congruence. by apply Hother.
    + intros r Hr.
      rewrite (mlookup_mset _ (K + 1) (K + 1)) by (done || lia).
      rewrite (mget_mset_ne _ _ _ (i + 1) k) by (intros [=]; lia).
      rewrite (mget_mset_ne _ _ _ i (k - 1)) by (intros [=]; lia).
      assert (Hx : forall q, mget N q (k - 1) = mget M q (k - 1)).
      { intros q. unfold mget. by rewrite Hother by lia. }
      destruct (decide ((r, k) = (i + 1, k))) as [[= ->]|Hne1].
      * rewrite (mlookup_mget _ _ _ _ (Hcol (i + 1) Hr)). rewrite Hx. cbv zeta.
        destruct (Nat.ltb_spec (i + 1) i); [lia|].
        destruct (Nat.eqb_spec (i + 1) i); [lia|].
        destruct (Nat.ltb_spec (i + 1) (Datatypes.S i)); [lia|].
        destruct (Nat.eqb_spec (i + 1) (Datatypes.S i)); [|lia].
        destruct (Nat.ltb_spec 0 (i + 1)); [|lia].
        do 3 f_equal. f_equal. lia.
      * assert (r <> i + 1) by congruence.
        rewrite (mlookup_mset _ (K + 1) (K + 1)) by (done || lia).
        destruct (decide ((r, k) = (i, k))) as [[= ->]|Hne2].
        -- rewrite (mlookup_mget _ _ _ _ (Hcol i Hr)). rewrite Hx. cbv zeta.
           destruct (Nat.ltb_spec i i); [lia|].
           destruct (Nat.eqb_spec i i); [|lia].
           destruct (Nat.ltb_spec i (Datatypes.S i)); [|lia]. reflexivity.
        -- assert (r <> i) by congruence.
           rewrite Hcol by done. cbv zeta.
           destruct (Nat.ltb_spec r i), (Nat.ltb_spec r (Datatypes.S i)); try lia.
           ++ reflexivity.
           ++ destruct (Nat.eqb_spec r i); [lia|].
              destruct (Nat.eqb_spec r (Datatypes.S i)); [lia|]. reflexivity.
Qed.

(** The second inner loop: the term from column [k - 2]. *)
Lemma third_term_loop (K k : nat) M N (op3 : S -> S -> S) (g3 : S -> S) :
  2 <= k <= K -> dims N (K + 1) (K + 1) ->
  (forall r c, c <> k -> mlookup N r c = mlookup M r c) ->
  let N' := for_range 0 (k - 1) (fun i ret =>
              mset ret i k (op3 (mget ret i k) (g3 (mget ret i (k - 2))))) N in
  dims N' (K + 1) (K + 1) /\
  (forall r c, c <> k -> mlookup N' r c = mlookup M r c) /\
  (forall r, r <= K ->
     mlookup N' r k
     = if r <? k - 1 then Some (op3 (mget N r k) (g3 (mget M r (k - 2))))
       else mlookup N r k).
Proof.
  intros Hk HdN Hsame N'. subst N'.
  apply (for_range_ind (fun i N' =>
    dims N' (K + 1) (K + 1) /\
    (forall r c, c <> k -> mlookup N' r c = mlookup M r c) /\
    (forall r, r <= K ->
       mlookup N' r k
       = if r <? i then Some (op3 (mget N r k) (g3 (mget M r (k - 2))))
         else mlookup N r k))).
  - lia.
  - split; [exact HdN|]. split; [exact Hsame|]. intros r Hr. reflexivity.
  - intros i N' [_ Hi] (HdN' & Hother & Hcol).
    split; [by apply dims_mset|]. split.
    + intros r c Hc. rewrite mlookup_mset_ne by congruence. by apply Hother.
    + intros r Hr.
      rewrite (mlookup_mset _ (K + 1) (K + 1)) by (done || lia).
      destruct (decide ((r, k) = (i, k))) as [[= ->]|Hne].
      * destruct (Nat.ltb_spec i (Datatypes.S i)); [|lia].
        do 2 f_equal.
        -- unfold mget. rewrite Hcol by lia.
           destruct (Nat.ltb_spec i i); [lia|done].
        -- f_equal. unfold mget. by rewrite Hother by lia.
      * rewrite Hcol by done.
        assert (r <> i) by congruence.
        destruct (Nat.ltb_spec r i), (Nat.ltb_spec r (Datatypes.S i)); try lia; done.
Qed.

Lemma three_term_recurrence_ext (op1 op2 op3 : S -> S -> S) (g1 g2 g3 : S -> S)
    M N (i k : nat) :
  2 <= k ->
  (forall r c, c < k -> mlookup N r c = mlookup M r c) ->
  three_term_recurrence op1 op2 op3 g1 g2 g3 N i k
  = three_term_recurrence op1 op2 op3 g1 g2 g3 M i k.
Proof.
  intros Hk Hsame. unfold three_term_recurrence, mget.
  rewrite !Hsame by lia. reflexivity.
Qed.

(** The outer loop over the columns, for operations and factors that may
    depend on the column. *)
Lemma three_term_columns (K : nat) M0
    (op1 op2 op3 : S -> S -> S) (g1 g2 g3 : nat -> S -> S) :
  dims M0 (K + 1) (K + 1) ->
  (forall r c, r <= K -> 2 <= c <= K -> mlookup M0 r c = Some (cast 0)) ->
  let R := for_range 2 (K + 1) (fun k ret =>
    let ret := for_range 0 k (fun i ret =>
      let ret := mset ret i k (op1 (mget ret i k) (g1 k (mget ret i (k - 1)))) in
      mset ret (i + 1) k (op2 (mget ret (i + 1) k) (g2 k (mget ret i (k - 1))))) ret in
    for_range 0 (k - 1) (fun i ret =>
      mset ret i k (op3 (mget ret i k) (g3 k (mget ret i (k - 2))))) ret) M0 in
  1 < K ->
  dims R (K + 1) (K + 1) /\
  (forall r c, c < 2 -> mlookup R r c = mlookup M0 r c) /\
  (forall r c, r <= K -> 2 <= c <= K ->
     mlookup R r c
     = Some (three_term_recurrence op1 op2 op3 (g1 c) (g2 c) (g3 c) R r c)).
Proof.
  intros Hd0 Hz0 R HK.
  assert (Hinv : dims R (K + 1) (K + 1) /\
    (forall r c, c < 2 -> mlookup R r c = mlookup M0 r c) /\
    (forall r c, r <= K -> K + 1 <= c <= K -> mlookup R r c = Some (cast 0)) /\
    (forall r c, r <= K -> 2 <= c < K + 1 ->
       mlookup R r c
       = Some (three_term_recurrence op1 op2 op3 (g1 c) (g2 c) (g3 c) R r c))).
  { subst R.
    apply (for_range_ind (fun k M =>
      dims M (K + 1) (K + 1) /\
      (forall r c, c < 2 -> mlookup M r c = mlookup M0 r c) /\
      (forall r c, r <= K -> k <= c <= K -> mlookup M r c = Some (cast 0)) /\
      (forall r c, r <= K -> 2 <= c < k ->
         mlookup M r c
         = Some (three_term_recurrence op1 op2 op3 (g1 c) (g2 c) (g3 c) M r c)))).
    - lia.
    - split; [exact Hd0|]. split; [done|]. split; [exact Hz0|]. intros; lia.
    - intros k M Hk (HdM & Hlow & Hzero & Hrec). cbv zeta.
      destruct (two_update_loop K k M op1 op2 (g1 k) (g2 k) ltac:(lia) HdM
                  (fun r Hr => Hzero r k Hr ltac:(lia))) as (Hd1 & Hsame1 & Hcol1).
      destruct (third_term_loop K k M _ op3 (g3 k) ltac:(lia) Hd1 Hsame1)
        as (Hd2 & Hsame2 & Hcol2).
      split; [exact Hd2|]. split; [|split].
      + intros r c Hc. rewrite Hsame2 by lia. by apply Hlow.
      + intros r c Hr Hc. rewrite Hsame2 by lia. apply Hzero; lia.
      + intros r c Hr Hc.
        rewrite (three_term_recurrence_ext _ _ _ _ _ _ M)
          by (lia || (intros; apply Hsame2; lia)).
        destruct (decide (c = k)) as [->|Hne].
        * rewrite Hcol2 by done. unfold three_term_recurrence.
          rewrite (mlookup_mget _ _ _ _ (Hcol1 r Hr)). cbv zeta.
          destruct (r <? k - 1); [reflexivity|]. by apply Hcol1.
        * rewrite Hsame2 by done. apply Hrec; lia. }
  destruct Hinv as (Hd & Hlow & _ & Hrec).
  split; [exact Hd|]. split; [exact Hlow|].
  intros r c Hr Hc. apply Hrec; lia.
Qed.

End ThreeTermFacts.

Section LaguerreJacobiFacts.
Context {S : Type} `{ScalarOps S}.
Implicit Types M N : list (list S).

Lemma laguerre_basis_invariant (K : nat) :
  dims (laguerre_basis K) (K + 1) (K + 1) /\
  (forall r c, c < 2 ->
     mlookup (laguerre_basis K) r c
     = mlookup (if 0 <? K
                then mset (mset (mset (mzero (K + 1) (K + 1)) 0 0 (cast 1)) 0 1 (cast 1))
                          1 1 (cast (-1))
                else mset (mzero (K + 1) (K + 1)) 0 0 (cast 1)) r c) /\
  (forall r c, r <= K -> 2 <= c <= K ->
     mlookup (laguerre_basis K) r c = Some (laguerre_recurrence (laguerre_basis K) r c)).
Proof.
  unfold laguerre_basis. cbv zeta. cbn [mnew standard_matrix].
  set (M0 := if 0 <? K
             then mset (mset (mset (mzero (K + 1) (K + 1)) 0 0 (cast 1)) 0 1 (cast 1))
                       1 1 (cast (-1))
             else mset (mzero (K + 1) (K + 1)) 0 0 (cast 1)).
  assert (Hd0 : dims M0 (K + 1) (K + 1)).
  { subst M0. destruct (0 <? K); repeat apply dims_mset; apply dims_mzero. }
  assert (Hz0 : forall r c, r <= K -> 2 <= c <= K -> mlookup M0 r c = Some (cast 0)).
  { intros r c Hr Hc. subst M0.
    destruct (0 <? K); rewrite !mlookup_mset_ne by (intros [=]; lia);
      apply mlookup_mzero; lia. }
  destruct (Nat.ltb_spec 1 K) as [HK|HK].
  - exact (three_term_columns K M0 s_add s_sub s_sub
      (fun k x => s_div (s_mul (cast (Z.of_nat (2 * k - 1))) x) (cast (Z.of_nat k)))
      (fun k x => s_div x (cast (Z.of_nat k)))
      (fun k x => s_div (s_mul (cast (Z.of_nat (k - 1))) x) (cast (Z.of_nat k)))
      Hd0 Hz0 HK).
  - split; [exact Hd0|]. split; [done|]. intros; lia.
Qed.

Lemma jacobi_basis_invariant (K : nat) (alpha beta : S) :
  dims (jacobi_basis K alpha beta) (K + 1) (K + 1) /\
  (forall r c, c < 2 ->
     mlookup (jacobi_basis K alpha beta) r c
     = mlookup (if 0 <? K
                then mset (mset (mset (mzero (K + 1) (K + 1)) 0 0 (cast 1)) 0 1
                                (s_sub (s_add alpha (cast 1))
                                       (s_div (s_add (s_add alpha beta) (cast 2)) (cast 2))))
                          1 1 (s_div (s_add (s_add alpha beta) (cast 2)) (cast 2))
                else mset (mzero (K + 1) (K + 1)) 0 0 (cast 1)) r c) /\
  (forall r c, r <= K -> 2 <= c <= K ->
     mlookup (jacobi_basis K alpha beta) r c
     = Some (jacobi_recurrence alpha beta (jacobi_basis K alpha beta) r c)).
Proof.
  unfold jacobi_basis. cbv zeta. cbn [mnew standard_matrix].
  set (M0 := if 0 <? K
             then mset (mset (mset (mzero (K + 1) (K + 1)) 0 0 (cast 1)) 0 1
                             (s_sub (s_add alpha (cast 1))
                                    (s_div (s_add (s_add alpha beta) (cast 2)) (cast 2))))
                       1 1 (s_div (s_add (s_add alpha beta) (cast 2)) (cast 2))
             else mset (mzero (K + 1) (K + 1)) 0 0 (cast 1)).
  assert (Hd0 : dims M0 (K + 1) (K + 1)).
  { subst M0. destruct (0 <? K); repeat apply dims_mset; apply dims_mzero. }
  assert (Hz0 : forall r c, r <= K -> 2 <= c <= K -> mlookup M0 r c = Some (cast 0)).
  { intros r c Hr Hc. subst M0.
    destruct (0 <? K); rewrite !mlookup_mset_ne by (intros [=]; lia);
      apply mlookup_mzero; lia. }
  destruct (Nat.ltb_spec 1 K) as [HK|HK].
  - exact (three_term_columns K M0 s_add s_add s_sub
      (fun k x => s_mul (s_mul (jacobi_c1 alpha beta k) x) (jacobi_frac alpha beta k))
      (fun k x => s_mul (s_mul (jacobi_c2 alpha beta k) x) (jacobi_frac alpha beta k))
      (fun k x => s_mul (s_mul (jacobi_c3 alpha beta k) x) (jacobi_frac alpha beta k))
      Hd0 Hz0 HK).
  - split; [exact Hd0|]. split; [done|]. intros; lia.
Qed.

Lemma mlookup_unit_column (K i : nat) (v : S) :
  i <= K ->
  mlookup (mset (mzero (K + 1) (K + 1)) 0 0 v) i 0
  = Some (if i =? 0 then v else cast 0).
Proof.
  intros Hi.
  rewrite (mlookup_mset _ (K + 1) (K + 1)) by (apply dims_mzero || lia).
  destruct (decide ((i, 0) = (0, 0))) as [[= ->]|Hne]; [done|].
  destruct (Nat.eqb_spec i 0); [congruence|]. apply mlookup_mzero; lia.
Qed.

Lemma mlookup_linear_column (K i : nat) (u v w : S) :
  i <= K -> 1 <= K ->
  mlookup (mset (mset (mset (mzero (K + 1) (K + 1)) 0 0 u) 0 1 v) 1 1 w) i 1
  = Some (if i =? 0 then v else if i =? 1 then w else cast 0).
Proof.
  intros Hi HK.
  rewrite (mlookup_mset _ (K + 1) (K + 1))
    by (repeat apply dims_mset; apply dims_mzero || lia).
  destruct (decide ((i, 1) = (1, 1))) as [[= ->]|Hne1]; [done|].
  rewrite (mlookup_mset _ (K + 1) (K + 1))
    by (repeat apply dims_mset; apply dims_mzero || lia).
  destruct (decide ((i, 1) = (0, 1))) as [[= ->]|Hne0]; [done|].
  destruct (Nat.eqb_spec i 0); [congruence|].
  destruct (Nat.eqb_spec i 1); [congruence|].
  rewrite mlookup_mset_ne by (intros [=]). apply mlookup_mzero; lia.
Qed.

End LaguerreJacobiFacts.

(** With the zero-filling constructor, the columns of [laguerre_basis<K>]
    hold the coefficients of the Laguerre polynomials: column 0 is [1],
    column 1 is [1 - x], and every column [k >= 2] is obtained from the two
    columns before it by [k L_k = (2k - 1 - x) L_(k-1) - (k - 1) L_(k-2)]. *)
Theorem laguerre_basis_columns {S : Type} `{ScalarOps S} (K i : nat) :
  i <= K ->
  mlookup (laguerre_basis K) i 0 = Some (if i =? 0 then cast 1 else cast 0) /\
  (1 <= K ->
   mlookup (laguerre_basis K) i 1
   = Some (if i =? 0 then cast 1 else if i =? 1 then cast (-1) else cast 0)) /\
  (forall k, 2 <= k <= K ->
     mlookup (laguerre_basis K) i k = Some (laguerre_recurrence (laguerre_basis K) i k)).
Proof.
  intros Hi. destruct (laguerre_basis_invariant K) as (Hd & Hlow & Hrec).
  split; [|split].
  - rewrite Hlow by lia.
    destruct (Nat.ltb_spec 0 K).
    + rewrite !mlookup_mset_ne by (intros [=]). by apply mlookup_unit_column.
    + by apply mlookup_unit_column.
  - intros HK. rewrite Hlow by lia.
    destruct (Nat.ltb_spec 0 K); [|lia]. by apply mlookup_linear_column.
  - intros k Hk. by apply Hrec.
Qed.

Lemma laguerre_basis_columns_witness :
  mlookup (laguerre_basis (S := Q) 4) 1 0 = Some (cast 0) /\
  (1 <= 4 -> mlookup (laguerre_basis (S := Q) 4) 1 1 = Some (cast (-1))) /\
  (forall k, 2 <= k <= 4 ->
     mlookup (laguerre_basis (S := Q) 4) 1 k
     = Some (laguerre_recurrence (laguerre_basis (S := Q) 4) 1 k)).
Proof. apply (laguerre_basis_columns (S := Q) 4 1). lia. Defined.

(** With the zero-filling constructor, the columns of
    [jacobi_basis<K>(alpha, beta)] hold the coefficients of the Jacobi
    polynomials: column 0 is [1], column 1 is
    [alpha + 1 - (alpha + beta + 2)/2 + (alpha + beta + 2)/2 x], and every
    column [k >= 2] is obtained from the two columns before it by
    [2k (k + a + b) (2k + a + b - 2) P_k
     = (2k + a + b - 1) ((2k + a + b) (2k + a + b - 2) x + a^2 - b^2) P_(k-1)
       - 2 (k + a - 1) (k + b - 1) (2k + a + b) P_(k-2)]. *)
Theorem jacobi_basis_columns {S : Type} `{ScalarOps S} (K i : nat) (alpha beta : S) :
  i <= K ->
  mlookup (jacobi_basis K alpha beta) i 0 = Some (if i =? 0 then cast 1 else cast 0) /\
  (1 <= K ->
   mlookup (jacobi_basis K alpha beta) i 1
   = Some (if i =? 0
           then s_sub (s_add alpha (cast 1))
                      (s_div (s_add (s_add alpha beta) (cast 2)) (cast 2))
           else if i =? 1 then s_div (s_add (s_add alpha beta) (cast 2)) (cast 2)
           else cast 0)) /\
  (forall k, 2 <= k <= K ->
     mlookup (jacobi_basis K alpha beta) i k
     = Some (jacobi_recurrence alpha beta (jacobi_basis K alpha beta) i k)).
Proof.
  intros Hi. destruct (jacobi_basis_invariant K alpha beta) as (Hd & Hlow & Hrec).
  split; [|split].
  - rewrite Hlow by lia.
    destruct (Nat.ltb_spec 0 K).
    + rewrite !mlookup_mset_ne by (intros [=]). by apply mlookup_unit_column.
    + by apply mlookup_unit_column.
  - intros HK. rewrite Hlow by lia.
    destruct (Nat.ltb_spec 0 K); [|lia]. by apply mlookup_linear_column.
  - intros k Hk. by apply Hrec.
Qed.

Lemma jacobi_basis_columns_witness :
  mlookup (jacobi_basis (S := Q) 3 (1 # 2) (1 # 2))%Q 0 0 = Some (cast 1) /\
  (1 <= 3 ->
   mlookup (jacobi_basis (S := Q) 3 (1 # 2) (1 # 2))%Q 0 1
   = Some (s_sub (s_add (1 # 2)%Q (cast 1))
                 (s_div (s_add (s_add (1 # 2)%Q (1 # 2)%Q) (cast 2)) (cast 2)))) /\
  (forall k, 2 <= k <= 3 ->
     mlookup (jacobi_basis (S := Q) 3 (1 # 2) (1 # 2))%Q 0 k
     = Some (jacobi_recurrence (1 # 2)%Q (1 # 2)%Q
               (jacobi_basis (S := Q) 3 (1 # 2) (1 # 2))%Q 0 k)).
Proof. apply (jacobi_basis_columns (S := Q) 3 0 (1 # 2)%Q (1 # 2)%Q). lia. Defined.

(** The recurrence on a concrete column: the coefficient of [x] in the
    Legendre polynomial [P_3] is [-3/2]. *)
Example jacobi_recurrence_legendre_3 :
  jacobi_recurrence (S := Q) 0%Q 0%Q (jacobi_basis (S := Q) 3 0%Q 0%Q) 1 3 = (-3 # 2)%Q.
Proof. vm_compute. reflexivity. Qed.

(** The recurrence on a concrete column: [L_3] has the coefficient [3/2]
    at [x^2]. *)
Example laguerre_recurrence_3 :
  laguerre_recurrence (S := Q) (laguerre_basis (S := Q) 3) 2 3 = (3 # 2)%Q.
Proof. vm_compute. reflexivity. Qed.

(** ** [lagrange_basis] *)

Lemma for_range_succ {St : Type} (lo hi : nat) (body : nat -> St -> St) (s : St) :
  lo <= hi ->
  for_range lo (Datatypes.S hi) body s = body hi (for_range lo hi body s).
Proof.
  intros Hle. unfold for_range.
  replace (Datatypes.S hi - lo) with (Datatypes.S (hi - lo)) by lia.
  rewrite seq_S, foldl_app. simpl. do 2 f_equal. lia.
Qed.

Section TransposeFacts.
Context {S : Type} `{ScalarOps S}.
Implicit Types M : list (list S).

Lemma mlookup_transposed (r c : nat) M (a b : nat) :
  dims M r c -> mlookup (transposed r c M) a b = mlookup M b a.
Proof.
  intros [Hlen Hrows].
  assert (Hlhs : mlookup (transposed r c M) a b
                 = if decide (a < c /\ b < r) then Some (mget M b a) else None).
  { unfold mlookup, transposed.
    rewrite (list_lookup_fmap (fun j => (fun i => mget M i j) <$> seq 0 r) (seq 0 c) a).
    destruct (decide (a < c)) as [Ha|Ha].
    - rewrite lookup_seq_lt by done. simpl.
      rewrite (list_lookup_fmap (fun i => mget M i a) (seq 0 r) b).
      destruct (decide (b < r)) as [Hb|Hb].
      + rewrite lookup_seq_lt by done. simpl.
        destruct (decide (a < c /\ b < r)); [done|tauto].
      + rewrite lookup_seq_ge by lia. simpl.
        destruct (decide (a < c /\ b < r)); [tauto|done].
    - rewrite lookup_seq_ge by lia. simpl.
      destruct (decide (a < c /\ b < r)); [tauto|done]. }
  rewrite Hlhs. unfold mget, mlookup, StaticMatrix.
  destruct (M !! b) as [row|] eqn:Hrow.
  - simpl.
    assert (Hl : length row = c)
      by exact (proj1 (Forall_lookup _ _) Hrows b row Hrow).
    assert (Hb : b < r) by (rewrite <- Hlen; by apply (lookup_lt_Some M b row)).
    destruct (decide (a < c /\ b < r)) as [[Ha _]|Hn].
    + destruct (lookup_lt_is_Some_2 row a ltac:(lia)) as [v Hv]. by rewrite Hv.
    + symmetry. apply lookup_ge_None_2. lia.
  - simpl. assert (Hb : r <= b) by (rewrite <- Hlen; by apply lookup_ge_None_1).
    destruct (decide (a < c /\ b < r)); [lia|done].
Qed.

End TransposeFacts.

Section LagrangeLoop.
Context {S : Type} `{ScalarOps S}.
Implicit Types M N : list (list S).

Lemma dims_row_fill M r c row v : dims M r c -> dims (row_fill M row v) r c.
Proof.
  unfold dims, row_fill, StaticMatrix. intros [Hl Hr]. split.
  - by rewrite length_alter.
  - apply Forall_alter; [done|].
    intros x _ Hx. by rewrite length_replicate.
Qed.

Lemma mlookup_row_fill_ne M q r row v :
  q <> row -> mlookup (row_fill M row v) q r = mlookup M q r.
Proof.
  intros Hne. unfold mlookup, row_fill, StaticMatrix.
  by rewrite list_lookup_alter_ne.
Qed.

Lemma mlookup_row_fill_eq M rows cols r row v :
  dims M rows cols -> row < rows -> r < cols ->
  mlookup (row_fill M row v) row r = Some v.
Proof.
  intros [Hl Hr] Hrow Hc. unfold mlookup, row_fill, StaticMatrix.
  rewrite list_lookup_alter_eq.
  destruct (lookup_lt_is_Some_2 M row ltac:(lia)) as [x Hx].
  rewrite Hx. simpl.
  assert (Hlx : length x = cols) by exact (proj1 (Forall_lookup _ _) Hr row x Hx).
  apply lookup_replicate_2. lia.
Qed.

Lemma range_at_row M row r : range_at (default [] (M !! row)) r = mget M row r.
Proof.
  unfold range_at, mget, mlookup, StaticMatrix. by destruct (M !! row).
Qed.

(** The innermost loop: the cleared row receives the coefficients of the
    copied row, shifted up by one place and divided by [den], minus [a]
    times the copied row divided by [den]. *)
Lemma lagrange_shift_loop (K row d : nat) N (c : list S) (a den : S) :
  row <= K -> d + 1 <= K -> dims N (K + 1) (K + 1) ->
  (forall r, r <= K -> mlookup N row r = Some (cast 0)) ->
  let N' := for_range 0 (d + 1) (fun i ret =>
              let ret := mset_add ret row (i + 1) (s_div (range_at c i) den) in
              mset_sub ret row i (s_div (s_mul a (range_at c i)) den)) N in
  dims N' (K + 1) (K + 1) /\
  (forall q r, q <> row -> mlookup N' q r = mlookup N q r) /\
  (forall r, r <= K ->
     mlookup N' row r
     = Some (let shifted := if (0 <? r) && (r <=? d + 1)
                            then s_add (cast 0) (s_div (range_at c (r - 1)) den)
                            else cast 0 in
             if r <=? d then s_sub shifted (s_div (s_mul a (range_at c r)) den)
             else shifted)).
Proof.
  intros Hrow Hd HdN Hzero N'. subst N'.
  assert (Hinv :
    let N' := for_range 0 (d + 1) (fun i ret =>
                let ret := mset_add ret row (i + 1) (s_div (range_at c i) den) in
                mset_sub ret row i (s_div (s_mul a (range_at c i)) den)) N in
    dims N' (K + 1) (K + 1) /\
    (forall q r, q <> row -> mlookup N' q r = mlookup N q r) /\
    (forall r, r <= K ->
       mlookup N' row r
       = Some (let shifted := if (0 <? r) && (r <=? d + 1)
                              then s_add (cast 0) (s_div (range_at c (r - 1)) den)
                              else cast 0 in
               if r <? d + 1 then s_sub shifted (s_div (s_mul a (range_at c r)) den)
               else shifted))).
  { apply (for_range_ind (fun i N' =>
      dims N' (K + 1) (K + 1) /\
      (forall q r, q <> row -> mlookup N' q r = mlookup N q r) /\
      (forall r, r <= K ->
         mlookup N' row r
         = Some (let shifted := if (0 <? r) && (r <=? i)
                                then s_add (cast 0) (s_div (range_at c (r - 1)) den)
                                else cast 0 in
                 if r <? i then s_sub shifted (s_div (s_mul a (range_at c r)) den)
                 else shifted)))).
    - lia.
    - split; [exact HdN|]. split; [done|].
      intros r Hr. rewrite Hzero by done. cbv zeta.
      destruct (Nat.ltb_spec r 0); [lia|].
      destruct (Nat.ltb_spec 0 r), (Nat.leb_spec r 0); simpl; try done; lia.
    - intros i N' [_ Hi] (HdN' & Hother & Hcur). cbv zeta. unfold mset_add, mset_sub.
      assert (Hd1 : dims (mset N' row (i + 1)
                            (s_add (mget N' row (i + 1)) (s_div (range_at c i) den)))
                      (K + 1) (K + 1)) by by apply dims_mset.
      split; [by apply dims_mset|]. split.
      + intros q r Hq. rewrite !mlookup_mset_ne by congruence. by apply Hother.
      + intros r Hr.
        rewrite (mlookup_mset _ (K + 1) (K + 1)) by (done || lia).
        rewrite (mget_mset_ne _ _ _ row i) by (intros [=]; lia).
        destruct (decide ((row, r) = (row, i))) as [[= ->]|Hne1].
        * rewrite (mlookup_mget _ _ _ _ (Hcur i Hr)). cbv zeta.
          destruct (Nat.ltb_spec i i); [lia|].
          destruct (Nat.ltb_spec i (Datatypes.S i)); [|lia].
          destruct (Nat.ltb_spec 0 i), (Nat.leb_spec i i),
            (Nat.leb_spec i (Datatypes.S i)); simpl; try lia; reflexivity.
        * assert (r <> i) by congruence.
          rewrite (mlookup_mset _ (K + 1) (K + 1)) by (done || lia).
          destruct (decide ((row, r) = (row, i + 1))) as [[= ->]|Hne2].
          -- rewrite (mlookup_mget _ _ _ _ (Hcur (i + 1) Hr)). cbv zeta.
             destruct (Nat.ltb_spec (i + 1) i); [lia|].
             destruct (Nat.ltb_spec (i + 1) (Datatypes.S i)); [lia|].
             destruct (Nat.ltb_spec 0 (i + 1)); [|lia].
             destruct (Nat.leb_spec (i + 1) i); [lia|].
             destruct (Nat.leb_spec (i + 1) (Datatypes.S i)); [|lia]. simpl.
             do 4 f_equal. lia.
          -- assert (r <> i + 1) by congruence.
             rewrite Hcur by done. cbv zeta.
             destruct (Nat.ltb_spec r i), (Nat.ltb_spec r (Datatypes.S i)); try lia.
             ++ destruct (Nat.ltb_spec 0 r), (Nat.leb_spec r i),
                  (Nat.leb_spec r (Datatypes.S i)); simpl; try lia; reflexivity.
             ++ destruct (Nat.ltb_spec 0 r), (Nat.leb_spec r i),
                  (Nat.leb_spec r (Datatypes.S i)); simpl; try lia; reflexivity. }
  cbv zeta in Hinv. destruct Hinv as (Hd' & Hother & Hcur).
  split; [exact Hd'|]. split; [exact Hother|].
  intros r Hr. rewrite Hcur by done. cbv zeta.
  destruct (Nat.ltb_spec r (d + 1)), (Nat.leb_spec r d); try lia; reflexivity.
Qed.

End LagrangeLoop.

Section LagrangeReal.
Context `{!StaticMatrixOps R} `{!StaticMatrixTranspose R}.
Implicit Types M N : list (list R).

(** In terms of polynomials, the innermost loop multiplies by
    [(t - a) / den]. *)
Lemma lagrange_shift_sum (f : nat -> R) (a den t : R) (d : nat) :
  sum_f_R0 (fun r =>
    Rmult
      (let shifted := if (0 <? r) && (r <=? d + 1)
                      then s_add (cast 0) (s_div (f (r - 1)) den)
                      else cast 0 in
       if r <=? d then s_sub shifted (s_div (s_mul a (f r)) den) else shifted)
      (t ^ r)%R) (d + 1)
  = ((t - a) / den * sum_f_R0 (fun r => f r * t ^ r) d)%R.
Proof.
  cbn [s_add s_sub s_mul s_div cast R_scalar].
  transitivity
    (sum_f_R0 (fun r => ((if (0 <? r)%nat then f (r - 1)%nat else 0) * t ^ r * / den
                         - (if (r <=? d)%nat then f r else 0) * t ^ r * (a * / den))%R)
       (d + 1)).
  { apply sum_eq. intros r Hr.
    destruct (Nat.ltb_spec 0 r), (Nat.leb_spec r (d + 1)), (Nat.leb_spec r d);
      simpl; try lia; unfold Rdiv; ring. }
  rewrite minus_sum, <- !scal_sum.
  assert (H1 : sum_f_R0 (fun r => ((if (0 <? r)%nat then f (r - 1)%nat else 0) * t ^ r)%R)
                 (d + 1)
               = (t * sum_f_R0 (fun r => f r * t ^ r) d)%R).
  { replace (d + 1) with (Datatypes.S d) by lia.
    rewrite decomp_sum by lia. simpl pred.
    rewrite scal_sum.
    destruct (Nat.ltb_spec 0 0); [lia|].
    rewrite Rmult_0_l, Rplus_0_l.
    apply sum_eq. intros r Hr.
    destruct (Nat.ltb_spec 0 (Datatypes.S r)); [|lia].
    replace (Datatypes.S r - 1) with r by lia. simpl. ring. }
  assert (H2 : sum_f_R0 (fun r => ((if (r <=? d)%nat then f r else 0) * t ^ r)%R) (d + 1)
               = sum_f_R0 (fun r => f r * t ^ r)%R d).
  { replace (d + 1) with (Datatypes.S d) by lia.
    cbn [sum_f_R0].
    destruct (Nat.leb_spec (Datatypes.S d) d); [lia|].
    rewrite Rmult_0_l, Rplus_0_r.
    apply sum_eq. intros r Hr.
    destruct (Nat.leb_spec r d); [reflexivity|lia]. }
  rewrite H1, H2. unfold Rdiv. ring.
Qed.

(** The loop over [col] for one row: the row ends up holding the
    coefficients of the Lagrange polynomial of that row; the other rows are
    left alone. *)
Lemma lagrange_row_loop (K row : nat) (ts : list R) M :
  row <= K -> dims M (K + 1) (K + 1) ->
  let N := for_range 0 (K + 1) (fun col ret =>
      if negb (col =? row) then
        let row_copy := default [] (ret !! row) in
        let ret := row_fill ret row (cast 0) in
        for_range 0 (col - (if row <? col then 1 else 0) + 1) (fun i ret =>
          let ret := mset_add ret row (i + 1)
            (s_div (range_at row_copy i)
                   (s_sub (range_at ts row) (range_at ts col))) in
          mset_sub ret row i
            (s_div (s_mul (range_at ts col) (range_at row_copy i))
                   (s_sub (range_at ts row) (range_at ts col))))
          ret
      else ret)
      (mset M row 0 (cast 1)) in
  dims N (K + 1) (K + 1) /\
  (forall q r, q <> row -> mlookup N q r = mlookup M q r) /\
  (forall t, sum_f_R0 (fun r => mget N row r * t ^ r)%R K
             = lagrange_polynomial ts K row t).
Proof.
  intros Hrow HdM N.
  assert (Hinv : dims N (K + 1) (K + 1) /\
    (forall q r, q <> row -> mlookup N q r = mlookup M q r) /\
    (forall t, sum_f_R0 (fun r => mget N row r * t ^ r)%R
                 (K + 1 - (if row <? K + 1 then 1 else 0))
               = for_range 0 (K + 1) (fun j acc =>
                   if j =? row then acc
                   else (acc * ((t - range_at ts j)
                                / (range_at ts row - range_at ts j)))%R) 1%R)).
  { subst N.
    apply (for_range_ind (fun col N =>
      dims N (K + 1) (K + 1) /\
      (forall q r, q <> row -> mlookup N q r = mlookup M q r) /\
      (forall t, sum_f_R0 (fun r => mget N row r * t ^ r)%R
                   (col - (if row <? col then 1 else 0))
                 = for_range 0 col (fun j acc =>
                     if j =? row then acc
                     else (acc * ((t - range_at ts j)
                                  / (range_at ts row - range_at ts j)))%R) 1%R))).
    - lia.
    - split; [by apply dims_mset|]. split.
      + intros q r Hq. apply mlookup_mset_ne. congruence.
      + intros t. simpl.
        rewrite (mget_mset_eq _ (K + 1) (K + 1)) by (done || lia).
        cbn [cast R_scalar]. unfold for_range. simpl. ring.
    - intros col N' [_ Hcol] (HdN' & Hother & Hsum).
      cbv zeta.
      destruct (Nat.eqb_spec col row) as [->|Hne]; simpl negb; cbv iota.
      + split; [exact HdN'|]. split; [exact Hother|].
        intros t. rewrite (for_range_succ 0 row) by lia.
        destruct (Nat.eqb_spec row row); [|lia]. rewrite <- Hsum.
        destruct (Nat.ltb_spec row (Datatypes.S row)); [|lia].
        destruct (Nat.ltb_spec row row); [lia|].
        replace (Datatypes.S row - 1) with (row - 0) by lia. reflexivity.
      + set (d := col - (if row <? col then 1 else 0)).
        assert (Hd : d + 1 <= K).
        { subst d. destruct (Nat.ltb_spec row col); lia. }
        assert (Hfill : forall r, r <= K ->
                  mlookup (row_fill N' row (cast 0)) row r = Some (cast 0)).
        { intros r Hr. apply (mlookup_row_fill_eq _ (K + 1) (K + 1)); [done|lia|lia]. }
        destruct (lagrange_shift_loop K row d (row_fill N' row (cast 0))
                    (default [] (N' !! row)) (range_at ts col)
                    (s_sub (range_at ts row) (range_at ts col))
                    Hrow Hd (dims_row_fill _ _ _ _ _ HdN') Hfill)
          as (Hd2 & Hother2 & Hrow2).
        split; [exact Hd2|]. split.
        * intros q r Hq. rewrite Hother2 by done.
          rewrite mlookup_row_fill_ne by done. by apply Hother.
        * intros t.
          replace (Datatypes.S col - (if row <? Datatypes.S col then 1 else 0))
            with (d + 1)
            by (subst d; destruct (Nat.ltb_spec row col),
                  (Nat.ltb_spec row (Datatypes.S col)); lia).
          transitivity
            ((t - range_at ts col) / s_sub (range_at ts row) (range_at ts col)
             * sum_f_R0 (fun r => mget N' row r * t ^ r) d)%R.
          { rewrite <- (lagrange_shift_sum (fun r => mget N' row r)).
            apply sum_eq. intros r Hr.
            f_equal. apply mlookup_mget. rewrite <- !range_at_row.
            exact (Hrow2 r ltac:(lia)). }
          rewrite (for_range_succ 0 col) by lia.
          destruct (Nat.eqb_spec col row); [lia|].
          fold d in Hsum. rewrite Hsum.
          cbn [s_sub R_scalar]. ring. }
  destruct Hinv as (Hd & Hother & Hsum).
  split; [exact Hd|]. split; [exact Hother|].
  intros t. unfold lagrange_polynomial. rewrite <- Hsum.
  destruct (Nat.ltb_spec row (K + 1)); [|lia]. f_equal. lia.
Qed.

(** Every row of the matrix before the transposition holds a Lagrange
    polynomial. *)
Lemma lagrange_rows_polynomials (K : nat) (ts : list R) :
  dims (lagrange_rows K ts) (K + 1) (K + 1) /\
  (forall i t, i <= K ->
     sum_f_R0 (fun r => mget (lagrange_rows K ts) i r * t ^ r)%R K
     = lagrange_polynomial ts K i t).
Proof.
  unfold lagrange_rows. cbv zeta.
  assert (Hinv :
    let R := for_range 0 (K + 1) (fun row ret =>
      for_range 0 (K + 1) (fun col ret =>
        if negb (col =? row) then
          for_range 0 (col - (if row <? col then 1 else 0) + 1) (fun i ret0 =>
            mset_sub
              (mset_add ret0 row (i + 1)
                 (s_div (range_at (default [] (ret !! row)) i)
                        (s_sub (range_at ts row) (range_at ts col))))
              row i
              (s_div (s_mul (range_at ts col) (range_at (default [] (ret !! row)) i))
                     (s_sub (range_at ts row) (range_at ts col))))
            (row_fill ret row (cast 0))
        else ret)
        (mset ret row 0 (cast 1)))
      (mnew (K + 1) (K + 1)) in
    dims R (K + 1) (K + 1) /\
    (forall i t, i < K + 1 ->
       sum_f_R0 (fun r => mget R i r * t ^ r)%R K = lagrange_polynomial ts K i t)).
  { intros R0. subst R0.
    apply (for_range_ind (fun row (M : list (list R)) =>
      dims M (K + 1) (K + 1) /\
      (forall i t, i < row ->
         sum_f_R0 (fun r => mget M i r * t ^ r)%R K = lagrange_polynomial ts K i t))).
    - lia.
    - split; [apply mnew_dims|]. intros; lia.
    - intros row M [_ Hrow] (HdM & Hdone).
      destruct (lagrange_row_loop K row ts M ltac:(lia) HdM) as (HdN & Hother & Hnew).
      split; [exact HdN|].
      intros i t Hi. destruct (decide (i = row)) as [->|Hne].
      + apply Hnew.
      + rewrite <- (Hdone i t) by lia.
        apply sum_eq. intros r Hr. unfold mget.
        match goal with |- (default _ ?a * _ = default _ ?b * _)%R =>
          replace a with b; [reflexivity|] end.
        symmetry. by apply Hother. }
  cbv zeta in Hinv. destruct Hinv as [Hd Hall].
  split; [exact Hd|]. intros i t Hi. apply Hall. lia.
Qed.

Lemma lagrange_basis_product (K : nat) (ts : list R) (i : nat) (t : R) :
  (forall M a b, dims M (K + 1) (K + 1) ->
     mlookup (mtranspose (K + 1) (K + 1) M) a b = mlookup M b a) ->
  i <= K ->
  basis_polynomial (lagrange_basis K ts) K i t = lagrange_polynomial ts K i t.
Proof.
  intros Htr Hi. destruct (lagrange_rows_polynomials K ts) as [Hd Hall].
  rewrite <- (Hall i t Hi). unfold basis_polynomial, lagrange_basis.
  apply sum_eq. intros r Hr. unfold mget. by rewrite Htr.
Qed.

(** The Lagrange polynomial of node [i] is one at node [i] and zero at the
    other nodes, when the nodes differ from one another. *)
Lemma lagrange_polynomial_nodes (K : nat) (ts : list R) (i j : nat) :
  (forall a b, a <= K -> b <= K -> a <> b -> range_at ts a <> range_at ts b) ->
  i <= K -> j <= K ->
  lagrange_polynomial ts K i (range_at ts j) = if i =? j then 1%R else 0%R.
Proof.
  intros Hdistinct Hi Hj. unfold lagrange_polynomial.
  destruct (Nat.eqb_spec i j) as [<-|Hne].
  - apply (for_range_ind (fun _ acc => acc = 1%R)); [lia|reflexivity|].
    intros col acc [_ Hcol] ->.
    destruct (Nat.eqb_spec col i); [reflexivity|].
    assert (range_at ts i <> range_at ts col) by (apply Hdistinct; lia).
    field. lra.
  - assert (Hinv : j < K + 1 ->
      for_range 0 (K + 1) (fun col acc =>
        if col =? i then acc
        else (acc * ((range_at ts j - range_at ts col)
                     / (range_at ts i - range_at ts col)))%R) 1%R = 0%R).
    { apply (for_range_ind (fun col acc => j < col -> acc = 0%R)); [lia|lia|].
      intros col acc [_ Hcol] IH Hjc.
      destruct (Nat.eqb_spec col i) as [->|Hci].
      - apply IH. lia.
      - destruct (decide (j = col)) as [->|Hjne].
        + unfold Rdiv. ring.
        + rewrite IH by lia. ring. }
    apply Hinv. lia.
Qed.

End LagrangeReal.

(** In real arithmetic, for a [transpose()] that exchanges the indices and
    [K + 1] nodes that differ from one another, column [i] of
    [lagrange_basis<K>(ts)] holds the coefficients of the documented
    polynomial: [sum_r t^r B[r][i]] is the product of
    [(t - t_j) / (t_i - t_j)] over the nodes [j <> i].  The content of the
    default-constructed matrix does not matter. *)
Theorem lagrange_basis_polynomials `{!StaticMatrixOps R} `{!StaticMatrixTranspose R}
    (K : nat) (ts : list R) (i : nat) (t : R) :
  (forall M a b, dims M (K + 1) (K + 1) ->
     mlookup (mtranspose (K + 1) (K + 1) M) a b = mlookup M b a) ->
  length ts = K + 1 ->
  (forall a b, a <= K -> b <= K -> a <> b -> range_at ts a <> range_at ts b) ->
  i <= K ->
  basis_polynomial (lagrange_basis K ts) K i t = lagrange_polynomial ts K i t.
Proof. intros Htr _ _ Hi. by apply lagrange_basis_product. Qed.

Lemma lagrange_nodes_distinct_012 (a b : nat) :
  a <= 2 -> b <= 2 -> a <> b -> range_at [0; 1; 2]%R a <> range_at [0; 1; 2]%R b.
Proof.
  intros Ha Hb Hab.
  destruct a as [|[|[|a]]], b as [|[|[|b]]]; try lia;
    unfold range_at; simpl; lra.
Qed.

Lemma lagrange_basis_polynomials_witness :
  basis_polynomial (lagrange_basis (S := R) 2 [0; 1; 2]%R) 2 1 3%R
  = lagrange_polynomial [0; 1; 2]%R 2 1 3%R.
Proof.
  apply (lagrange_basis_polynomials 2 [0; 1; 2]%R 1 3%R).
  - intros M a b Hd. by apply mlookup_transposed.
  - reflexivity.
  - apply lagrange_nodes_distinct_012.
  - lia.
Defined.

(** In real arithmetic, for a [transpose()] that exchanges the indices and
    [K + 1] nodes that differ from one another, the polynomials of
    [lagrange_basis<K>(ts)] interpolate: [p_i(t_j)] is one for [i = j] and
    zero otherwise. *)
Theorem lagrange_basis_interpolates `{!StaticMatrixOps R} `{!StaticMatrixTranspose R}
    (K : nat) (ts : list R) (i j : nat) :
  (forall M a b, dims M (K + 1) (K + 1) ->
     mlookup (mtranspose (K + 1) (K + 1) M) a b = mlookup M b a) ->
  length ts = K + 1 ->
  (forall a b, a <= K -> b <= K -> a <> b -> range_at ts a <> range_at ts b) ->
  i <= K -> j <= K ->
  basis_polynomial (lagrange_basis K ts) K i (range_at ts j)
  = if i =? j then 1%R else 0%R.
Proof.
  intros Htr _ Hdistinct Hi Hj.
  rewrite lagrange_basis_product by done.
  by apply lagrange_polynomial_nodes.
Qed.

Lemma lagrange_basis_interpolates_witness :
  basis_polynomial (lagrange_basis (S := R) 2 [0; 1; 2]%R) 2 1 (range_at [0; 1; 2]%R 2)
  = 0%R.
Proof.
  apply (lagrange_basis_interpolates 2 [0; 1; 2]%R 1 2).
  - intros M a b Hd. by apply mlookup_transposed.
  - reflexivity.
  - apply lagrange_nodes_distinct_012.
  - lia.
  - lia.
Defined.

(** The quadratic Lagrange basis on the nodes 0, 1, 2:
    [(t - 1)(t - 2)/2], [-t (t - 2)], [t (t - 1)/2]. *)
Example lagrange_basis_012 :
  lagrange_basis (S := Q) 2 [0; 1; 2]%Q
  = [[1; 0; 0]; [-3 # 2; 2; -1 # 2]; [1 # 2; -1; 1 # 2]]%Q.
Proof. vm_compute. reflexivity. Qed.

(** ** [polynomial_basis_derivatives] *)

Section BasisDerivativesLoop.
Context {S : Type} `{ScalarOps S} `{StaticMatrixOps S}.
Implicit Types M N : list (list S).

(** The loop over [i] writes column [j]. *)
Lemma column_write_loop (rows cols j : nat) (f : nat -> S) M :
  dims M rows cols -> j < cols ->
  let M' := for_range 0 rows (fun i ret => mset ret i j (f i)) M in
  dims M' rows cols /\
  (forall a b, b <> j -> mlookup M' a b = mlookup M a b) /\
  (forall a, a < rows -> mlookup M' a j = Some (f a)).
Proof.
  intros HdM Hj M'. subst M'.
  assert (Hinv :
    let M' := for_range 0 rows (fun i ret => mset ret i j (f i)) M in
    dims M' rows cols /\
    (forall a b, b <> j -> mlookup M' a b = mlookup M a b) /\
    (forall a, a < rows -> mlookup M' a j = Some (f a))).
  { apply (for_range_ind (fun i M' =>
      dims M' rows cols /\
      (forall a b, b <> j -> mlookup M' a b = mlookup M a b) /\
      (forall a, a < i -> mlookup M' a j = Some (f a)))).
    - lia.
    - split; [exact HdM|]. split; [done|]. intros; lia.
    - intros i M' [_ Hi] (Hd & Hother & Hdone).
      split; [by apply dims_mset|]. split.
      + intros a b Hb. rewrite mlookup_mset_ne by congruence. by apply Hother.
      + intros a Ha. rewrite (mlookup_mset _ rows cols) by done.
        destruct (decide ((a, j) = (i, j))) as [[= ->]|Hne]; [done|].
        apply Hdone. assert (a <> i) by congruence. lia. }
  exact Hinv.
Qed.

(** The range-for loop: column [j] holds row 0 of [U * B] for the [j]-th
    element of [ts]. *)
Lemma polynomial_basis_derivatives_lookup (K N : nat) (B : list (list S))
    (ts : list S) (i j : nat) :
  length ts = N -> i <= K -> j < N ->
  mlookup (polynomial_basis_derivatives K N B ts) i j
  = Some (mget (mmul 1 (K + 1) (K + 1) (monomial_derivative K (range_at ts j) 1) B) 0 i).
Proof.
  intros Hlen Hi Hj. unfold polynomial_basis_derivatives. cbv zeta.
  set (body := fun (st : list (list S) * nat) (t : S) =>
         (for_range 0 (K + 1) (fun i0 ret =>
            mset ret i0 st.2
              (mget (mmul 1 (K + 1) (K + 1) (monomial_derivative K t 1) B) 0 i0)) st.1,
          st.2 + 1)).
  assert (Hgen : forall (l : list S) M j0,
    dims M (K + 1) N -> j0 + length l <= N ->
    dims (foldl body (M, j0) l).1 (K + 1) N /\
    (forall a b, b < j0 -> mlookup (foldl body (M, j0) l).1 a b = mlookup M a b) /\
    (forall a b, a <= K -> j0 <= b < j0 + length l ->
       mlookup (foldl body (M, j0) l).1 a b
       = Some (mget (mmul 1 (K + 1) (K + 1)
                       (monomial_derivative K (range_at l (b - j0)) 1) B) 0 a))).
  { induction l as [|t l IH]; intros M j0 HdM Hfit.
    - simpl. split; [exact HdM|]. split; [done|]. simpl in *. intros; lia.
    - simpl in Hfit. simpl foldl. unfold body at 2. cbn [fst snd].
      destruct (column_write_loop (K + 1) N j0
                  (fun i0 => mget (mmul 1 (K + 1) (K + 1) (monomial_derivative K t 1) B) 0 i0)
                  M HdM ltac:(lia)) as (Hd1 & Hother1 & Hcol1).
      destruct (IH _ (j0 + 1) Hd1 ltac:(lia)) as (Hd2 & Hlow2 & Hnew2).
      split; [exact Hd2|]. split.
      + intros a b Hb. rewrite Hlow2 by lia. apply Hother1. lia.
      + intros a b Ha Hb. destruct (decide (b = j0)) as [->|Hne].
        * rewrite Hlow2 by lia. rewrite Hcol1 by lia.
          replace (j0 - j0) with 0 by lia. reflexivity.
        * simpl in Hb. rewrite Hnew2 by lia.
          replace (b - j0) with (Datatypes.S (b - (j0 + 1))) by lia. reflexivity. }
  destruct (Hgen ts (mnew (K + 1) N) 0 (mnew_dims _ _) ltac:(lia)) as (_ & _ & Hnew).
  rewrite Hnew by lia. by rewrite Nat.sub_0_r.
Qed.

End BasisDerivativesLoop.

Section BasisDerivativesReal.
Context `{!StaticMatrixOps R}.
Implicit Types M N B : list (list R).

Lemma scalar_pow_real (t : R) (n : nat) : scalar_pow t n = (t ^ n)%R.
Proof.
  induction n as [|n IH]; [reflexivity|].
  rewrite scalar_pow_S, IH. cbn [s_mul R_scalar]. simpl. ring.
Qed.

(** The first derivative of a polynomial given by its coefficients. *)
Lemma polynomial_derivative (b : nat -> R) (K : nat) (x : R) :
  derivable_pt_lim (fun t => sum_f_R0 (fun r => b r * t ^ r)%R K) x
    (sum_f_R0 (fun r => (INR r * x ^ (r - 1)) * b r)%R K).
Proof.
  assert (Hterm : forall r,
    derivable_pt_lim (fun t => b r * t ^ r)%R x ((INR r * x ^ (r - 1)) * b r)%R).
  { intros r.
    replace ((INR r * x ^ (r - 1)) * b r)%R with (b r * (INR r * x ^ pred r))%R
      by (replace (pred r) with (r - 1) by lia; ring).
    apply (derivable_pt_lim_scal (fun y => y ^ r)%R (b r) x).
    apply derivable_pt_lim_pow. }
  induction K as [|K IH].
  - simpl sum_f_R0. apply Hterm.
  - cbn [sum_f_R0].
    apply (derivable_pt_lim_plus
             (fun t => sum_f_R0 (fun r => b r * t ^ r)%R K)
             (fun t => b (Datatypes.S K) * t ^ Datatypes.S K)%R x _ _ IH (Hterm _)).
Qed.

Lemma polynomial_basis_derivatives_derive (K N : nat) B (ts : list R) (i j : nat) :
  (forall U k, dims U 1 (K + 1) -> k <= K ->
     mlookup (mmul 1 (K + 1) (K + 1) U B) 0 k
     = Some (sum_f_R0 (fun r => mget U 0 r * mget B r k)%R K)) ->
  1 <= K -> (N.of_nat K * N.of_nat K < 2 ^ 64)%N ->
  length ts = N -> i <= K -> j < N ->
  exists d,
    mlookup (polynomial_basis_derivatives K N B ts) i j = Some d /\
    derivable_pt_lim (basis_polynomial B K i) (range_at ts j) d.
Proof.
  intros Hmul HK Hfit Hlen Hi Hj.
  eexists. split.
  - rewrite polynomial_basis_derivatives_lookup by done.
    rewrite (mlookup_mget _ _ _ _
               (Hmul _ i (monomial_derivative_dims K (range_at ts j) 1) Hi)).
    reflexivity.
  - unfold basis_polynomial.
    erewrite sum_eq; [apply (polynomial_derivative (fun r => mget B r i))|].
    intros r Hr. cbv beta. f_equal.
    apply mlookup_mget.
    rewrite monomial_derivative_lookup; [|lia|lia|].
    + destruct (Nat.ltb_spec r 1) as [Hr0|Hr1].
      * replace r with 0 by lia. cbn [cast R_scalar]. f_equal. simpl. ring.
      * rewrite scalar_pow_real. cbn [s_mul cast R_scalar falling_factorial].
        f_equal. rewrite N.mul_1_r, nat_N_Z, <- INR_IZR_INZ. ring.
    + cbn [falling_factorial]. lia.
Qed.

(** The triple loop of the customary product, for a one-row left factor. *)
Lemma triple_loop_mul_row (K : nat) (U B : list (list R)) (k : nat) :
  k <= K ->
  mlookup (triple_loop_mul 1 (K + 1) (K + 1) U B) 0 k
  = Some (sum_f_R0 (fun r => mget U 0 r * mget B r k)%R K).
Proof.
  intros Hk. unfold triple_loop_mul.
  assert (Hinner : forall (M : list (list R)) j, dims M 1 (K + 1) -> j <= K ->
    let M' := for_range 0 (K + 1) (fun r ret =>
                mset ret 0 j (s_add (mget ret 0 j) (s_mul (mget U 0 r) (mget B r j)))) M in
    dims M' 1 (K + 1) /\
    (forall b, b <> j -> mlookup M' 0 b = mlookup M 0 b) /\
    mlookup M' 0 j
    = Some (mget M 0 j + sum_f_R0 (fun r => mget U 0 r * mget B r j) K)%R).
  { intros M j HdM Hj M'. subst M'.
    assert (Hinv :
      let M' := for_range 0 (K + 1) (fun r ret =>
                  mset ret 0 j (s_add (mget ret 0 j) (s_mul (mget U 0 r) (mget B r j)))) M in
      dims M' 1 (K + 1) /\
      (forall b, b <> j -> mlookup M' 0 b = mlookup M 0 b) /\
      mlookup M' 0 j
      = Some (if K + 1 =? 0 then mget M 0 j
              else mget M 0 j
                   + sum_f_R0 (fun r => mget U 0 r * mget B r j) (K + 1 - 1))%R).
    { apply (for_range_ind (fun n (M' : list (list R)) =>
        dims M' 1 (K + 1) /\
        (forall b, b <> j -> mlookup M' 0 b = mlookup M 0 b) /\
        mlookup M' 0 j
        = Some (if n =? 0 then mget M 0 j
                else mget M 0 j + sum_f_R0 (fun r => mget U 0 r * mget B r j) (n - 1))%R)).
      - lia.
      - split; [exact HdM|]. split; [done|]. simpl.
        destruct HdM as [Hl Hr]. unfold mget, mlookup, StaticMatrix in *.
        destruct M as [|row M]; [done|]. simpl.
        assert (Hrow : length row = K + 1) by (by inversion Hr).
        destruct (lookup_lt_is_Some_2 row j ltac:(lia)) as [v Hv].
        change ((row :: M) !! 0) with (Some row). simpl. by rewrite Hv.
      - intros n M' [_ Hn] (Hd & Hother & Hcur).
        split; [by apply dims_mset|]. split.
        + intros b Hb. rewrite mlookup_mset_ne by congruence. by apply Hother.
        + rewrite (mlookup_mset_eq _ 1 (K + 1)) by (done || lia).
          rewrite (mlookup_mget _ _ _ _ Hcur). cbn [s_add s_mul R_scalar].
          f_equal. destruct n as [|n]; simpl.
          * ring.
          * rewrite Nat.sub_0_r. ring. }
    cbv zeta in Hinv. destruct Hinv as (Hd & Hother & Hcur).
    split; [exact Hd|]. split; [exact Hother|].
    rewrite Hcur. destruct (Nat.eqb_spec (K + 1) 0); [lia|].
    replace (K + 1 - 1) with K by lia. reflexivity. }
  assert (Hcols :
    let M' := for_range 0 (K + 1) (fun j ret =>
                for_range 0 (K + 1) (fun r ret0 =>
                  mset ret0 0 j
                    (s_add (mget ret0 0 j) (s_mul (mget U 0 r) (mget B r j)))) ret)
                (mzero 1 (K + 1)) in
    dims M' 1 (K + 1) /\
    (forall b, K + 1 <= b <= K -> mlookup M' 0 b = Some 0%R) /\
    (forall b, b < K + 1 ->
       mlookup M' 0 b = Some (0 + sum_f_R0 (fun r => mget U 0 r * mget B r b) K)%R)).
  { apply (for_range_ind (fun j (M' : list (list R)) =>
      dims M' 1 (K + 1) /\
      (forall b, j <= b <= K -> mlookup M' 0 b = Some 0%R) /\
      (forall b, b < j ->
         mlookup M' 0 b = Some (0 + sum_f_R0 (fun r => mget U 0 r * mget B r b) K)%R))).
    - lia.
    - split; [apply dims_mzero|]. split; [|intros; lia].
      intros b Hb. rewrite mlookup_mzero by lia. reflexivity.
    - intros j M' [_ Hj] (Hd & Hzero & Hdone).
      destruct (Hinner M' j Hd ltac:(lia)) as (Hd' & Hother & Hcur).
      split; [exact Hd'|]. split.
      + intros b Hb. rewrite Hother by lia. apply Hzero. lia.
      + intros b Hb. destruct (decide (b = j)) as [->|Hne].
        * rewrite Hcur. rewrite (mlookup_mget _ _ _ _ (Hzero j ltac:(lia))). reflexivity.
        * rewrite Hother by done. apply Hdone. lia. }
  cbv zeta in Hcols. destruct Hcols as (_ & _ & Hall).
  change (for_range 0 1 ?body ?s) with (body 0 s). cbv beta.
  rewrite Hall by lia. f_equal. ring.
Qed.

End BasisDerivativesReal.

(** In real arithmetic, for an [operator*] that is the matrix product, a
    degree [K >= 1] whose square fits [std::size_t], and [N] points,
    [polynomial_basis_derivatives<K, N>(B, ts)] holds at [(i, j)] the
    derivative of the basis polynomial [p_i] at [t_j], as documented. *)
Theorem polynomial_basis_derivatives_are_derivatives `{!StaticMatrixOps R}
    (K N : nat) (B : list (list R)) (ts : list R) (i j : nat) :
  (forall U k, dims U 1 (K + 1) -> k <= K ->
     mlookup (mmul 1 (K + 1) (K + 1) U B) 0 k
     = Some (sum_f_R0 (fun r => mget U 0 r * mget B r k)%R K)) ->
  1 <= K -> (N.of_nat K * N.of_nat K < 2 ^ 64)%N ->
  length ts = N -> i <= K -> j < N ->
  exists d,
    mlookup (polynomial_basis_derivatives K N B ts) i j = Some d /\
    derivable_pt_lim (basis_polynomial B K i) (range_at ts j) d.
Proof. apply polynomial_basis_derivatives_derive. Qed.

Lemma polynomial_basis_derivatives_are_derivatives_witness :
  exists d,
    mlookup (polynomial_basis_derivatives (S := R) 2 1
               [[0; 0; 0]; [1; 0; 0]; [0; 1; 0]]%R [3%R]) 1 0 = Some d /\
    derivable_pt_lim (basis_polynomial [[0; 0; 0]; [1; 0; 0]; [0; 1; 0]]%R 2 1)
      (range_at [3%R] 0) d.
Proof.
  apply (polynomial_basis_derivatives_are_derivatives 2 1
           [[0; 0; 0]; [1; 0; 0]; [0; 1; 0]]%R [3%R] 1 0).
  - intros U k _ Hk. by apply triple_loop_mul_row.
  - lia.
  - vm_compute. reflexivity.
  - reflexivity.
  - lia.
  - lia.
Defined.

(** The derivatives of [t] and [t^2] at 3 and 5, in exact arithmetic. *)
Example polynomial_basis_derivatives_monomials :
  polynomial_basis_derivatives (S := Q) 2 2 [[0; 0; 0]; [1; 0; 0]; [0; 1; 0]]%Q [3; 5]%Q
  = [[1; 1]; [6; 10]; [0; 0]]%Q.
Proof. vm_compute. reflexivity. Qed.

(** ** [project_so2] *)

Section ProjectSO2Facts.
Local Open Scope R_scope.

Lemma atan2_sin_cos (a : R) : - PI < a <= PI -> atan2 (sin a) (cos a) = a.
Proof.
  intros [Hlo Hhi]. pose proof PI_RGT_0 as Hpi. unfold atan2.
  destruct (Rlt_dec 0 (cos a)) as [Hc|Hc].
  - (* a lies strictly between -PI/2 and PI/2 *)
    assert (Ha : - PI / 2 < a < PI / 2).
    { split.
      - destruct (Rlt_dec (- PI / 2) a) as [|Hn]; [done|].
        assert (Hle : cos (- a) <= 0) by (apply cos_le_0; lra).
        rewrite cos_neg in Hle. lra.
      - destruct (Rlt_dec a (PI / 2)) as [|Hn]; [done|].
        assert (Hle : cos a <= 0) by (apply cos_le_0; lra). lra. }
    change (sin a / cos a) with (tan a). apply atan_tan. lra.
  - destruct (Rlt_dec (cos a) 0) as [Hc'|Hc'].
    + destruct (Rle_dec 0 (sin a)) as [Hs|Hs].
      * (* PI/2 < a <= PI *)
        assert (Ha : 0 <= a).
        { destruct (Rle_dec 0 a) as [|Hn]; [done|].
          assert (Hlt : 0 < sin (- a)) by (apply sin_gt_0; lra).
          rewrite sin_neg in Hlt. lra. }
        assert (Ha2 : PI / 2 < a).
        { destruct (Rlt_dec (PI / 2) a) as [|Hn]; [done|].
          assert (Hge : 0 <= cos a) by (apply cos_ge_0; lra). lra. }
        replace (sin a / cos a) with (tan (a - PI)).
        2:{ unfold tan. rewrite sin_minus, cos_minus, sin_PI, cos_PI. field. lra. }
        rewrite atan_tan by lra. ring.
      * (* -PI < a < -PI/2 *)
        assert (Ha : a < 0).
        { destruct (Rlt_dec a 0) as [|Hn]; [done|].
          assert (Hge : 0 <= sin a) by (apply sin_ge_0; lra). lra. }
        assert (Ha2 : a < - PI / 2).
        { destruct (Rlt_dec a (- PI / 2)) as [|Hn]; [done|].
          assert (Hge : 0 <= cos a) by (apply cos_ge_0; lra). lra. }
        replace (sin a / cos a) with (tan (a + PI)).
        2:{ unfold tan. rewrite sin_plus, cos_plus, sin_PI, cos_PI. field. lra. }
        rewrite atan_tan by lra. ring.
    + assert (Hc0 : cos a = 0) by lra.
      destruct (Rlt_dec 0 (sin a)) as [Hs|Hs].
      * (* a = PI/2 *)
        assert (Ha : 0 <= a).
        { destruct (Rle_dec 0 a) as [|Hn]; [done|].
          assert (Hlt : 0 < sin (- a)) by (apply sin_gt_0; lra).
          rewrite sin_neg in Hlt. lra. }
        destruct (Rtotal_order a (PI / 2)) as [Hlt|[Heq|Hgt]]; [|lra|].
        -- assert (0 < cos a) by (apply cos_gt_0; lra). lra.
        -- assert (cos a < 0) by (apply cos_lt_0; lra). lra.
      * destruct (Rlt_dec (sin a) 0) as [Hs'|Hs'].
        -- (* a = -PI/2 *)
           assert (Ha : a < 0).
           { destruct (Rlt_dec a 0) as [|Hn]; [done|].
             assert (Hge : 0 <= sin a) by (apply sin_ge_0; lra). lra. }
           destruct (Rtotal_order a (- (PI / 2))) as [Hlt|[Heq|Hgt]]; [|lra|].
           ++ assert (Hneg : cos (- a) < 0) by (apply cos_lt_0; lra).
              rewrite cos_neg in Hneg. lra.
           ++ assert (0 < cos a) by (apply cos_gt_0; lra). lra.
        -- (* sine and cosine cannot vanish together *)
           pose proof (sin2_cos2 a) as Hsc. unfold Rsqr in Hsc.
           assert (sin a = 0) by lra. nra.
Qed.

Lemma project_so2_yaw_rot_z (a : R) : project_so2_yaw (rot_z a) = atan2 (sin a) (cos a).
Proof.
  assert (Hs : sin a = 2 * sin (a / 2) * cos (a / 2)).
  { rewrite <- sin_2a. f_equal. field. }
  assert (Hc : cos a = 1 - 2 * sin (a / 2) * sin (a / 2)).
  { rewrite <- cos_2a_sin. f_equal. field. }
  unfold project_so2_yaw, rot_z. cbv zeta.
  destruct (Rlt_dec _ 0); simpl; rewrite Hs, Hc; f_equal; ring.
Qed.

Lemma project_so2_yaw_rot_x (a : R) : project_so2_yaw (rot_x a) = 0.
Proof.
  unfold project_so2_yaw, rot_x. cbv zeta.
  assert (H1 : atan2 0 1 = 0).
  { unfold atan2. destruct (Rlt_dec 0 1); [|lra].
    replace (0 / 1) with 0 by field. apply atan_0. }
  destruct (Rlt_dec _ 0); simpl;
    (transitivity (atan2 0 1); [f_equal; ring|exact H1]).
Qed.

Lemma project_so2_yaw_rot_y (a : R) :
  project_so2_yaw (rot_y a) = if Rlt_dec (cos a) 0 then PI else 0.
Proof.
  assert (Hc : cos a = 1 - 2 * sin (a / 2) * sin (a / 2)).
  { rewrite <- cos_2a_sin. f_equal. field. }
  assert (Hyaw : project_so2_yaw (rot_y a) = atan2 0 (cos a)).
  { unfold project_so2_yaw, rot_y. cbv zeta.
    destruct (Rlt_dec _ 0); simpl; rewrite Hc; f_equal; ring. }
  rewrite Hyaw. unfold atan2.
  destruct (Rlt_dec 0 (cos a)), (Rlt_dec (cos a) 0); try lra.
  - unfold Rdiv. rewrite Rmult_0_l. apply atan_0.
  - destruct (Rle_dec 0 0); [|lra].
    unfold Rdiv. rewrite Rmult_0_l, atan_0. ring.
  - destruct (Rlt_dec 0 0); [lra|reflexivity].
Qed.

End ProjectSO2Facts.

(** [project_so2] keeps the yaw of a rotation about the z axis: for an
    angle in [(-PI, PI]] the yaw computed from [rot_z(angle)] is the angle
    itself. *)
Theorem project_so2_of_rot_z (angle : R) :
  (- PI < angle <= PI)%R -> project_so2_yaw (rot_z angle) = angle.
Proof.
  intros Ha. rewrite project_so2_yaw_rot_z. by apply atan2_sin_cos.
Qed.

Lemma project_so2_of_rot_z_witness : project_so2_yaw (rot_z 1) = 1%R.
Proof.
  apply project_so2_of_rot_z. pose proof PI_RGT_0. pose proof PI_4.
  pose proof PI2_3_2. unfold PI2 in *. lra.
Defined.

(** In real arithmetic.  A rotation about the x axis has yaw zero.  A
    rotation about the y axis has yaw zero as long as the cosine of its
    angle is not negative; beyond a quarter turn the yaw is a half turn,
    [PI] in absolute value.  (Whether the code returns [PI] or [-PI] there
    depends on the sign of a floating-point zero.) *)
Theorem project_so2_of_rot_x_y (angle : R) :
  project_so2_yaw (rot_x angle) = 0%R /\
  ((0 <= cos angle)%R -> project_so2_yaw (rot_y angle) = 0%R) /\
  ((cos angle < 0)%R -> Rabs (project_so2_yaw (rot_y angle)) = PI).
Proof.
  split; [apply project_so2_yaw_rot_x|].
  rewrite project_so2_yaw_rot_y. split; intros Hc.
  - destruct (Rlt_dec (cos angle) 0); [lra|reflexivity].
  - destruct (Rlt_dec (cos angle) 0); [|lra].
    apply Rabs_pos_eq. pose proof PI_RGT_0. lra.
Qed.

Lemma project_so2_of_rot_x_y_witness :
  Rabs (project_so2_yaw (rot_y 4)) = PI.
Proof.
  apply (proj2 (proj2 (project_so2_of_rot_x_y 4))).
  pose proof PI_4. pose proof PI2_3_2. unfold PI2 in *.
  apply cos_lt_0; lra.
Defined.

(** ** [polynomial_basis]: normalisation of the Chebyshev bases *)

Section ColumnScaling.
Context {S : Type} `{ScalarOps S}.
Implicit Types M N : list (list S).

(** The two loops that rescale the columns: entry [(r, k)] becomes [g k]
    of its old value. *)
Lemma column_scaling_lookup (K : nat) M (g : nat -> S -> S) (r k : nat) :
  dims M (K + 1) (K + 1) -> r <= K -> k <= K ->
  mlookup (for_range 0 (K + 1) (fun k ret =>
             for_range 0 (K + 1) (fun r ret => mset ret r k (g k (mget ret r k))) ret) M)
          r k
  = Some (g k (mget M r k)).
Proof.
  intros HdM Hr Hk.
  assert (Hinner : forall N c, dims N (K + 1) (K + 1) -> c <= K ->
    let N' := for_range 0 (K + 1) (fun r ret => mset ret r c (g c (mget ret r c))) N in
    dims N' (K + 1) (K + 1) /\
    (forall a b, b <> c -> mlookup N' a b = mlookup N a b) /\
    (forall a, K + 1 <= a -> mlookup N' a c = mlookup N a c) /\
    (forall a, a < K + 1 -> mlookup N' a c = Some (g c (mget N a c)))).
  { intros N c HdN Hc.
    apply (for_range_ind (fun n N' =>
      dims N' (K + 1) (K + 1) /\
      (forall a b, b <> c -> mlookup N' a b = mlookup N a b) /\
      (forall a, n <= a -> mlookup N' a c = mlookup N a c) /\
      (forall a, a < n -> mlookup N' a c = Some (g c (mget N a c))))).
    - lia.
    - split; [exact HdN|]. split; [done|]. split; [done|]. intros; lia.
    - intros n N' [_ Hn] (Hd & Hother & Hrest & Hdone).
      split; [by apply dims_mset|]. split; [|split].
      + intros a b Hb. rewrite mlookup_mset_ne by congruence. by apply Hother.
      + intros a Ha. rewrite mlookup_mset_ne by (intros [=]; lia). apply Hrest. lia.
      + intros a Ha. rewrite (mlookup_mset _ (K + 1) (K + 1)) by (done || lia).
        destruct (decide ((a, c) = (n, c))) as [[= ->]|Hne].
        * do 2 f_equal. unfold mget. by rewrite Hrest by lia.
        * apply Hdone. assert (a <> n) by congruence. lia. }
  assert (Houter :
    let M' := for_range 0 (K + 1) (fun k ret =>
                for_range 0 (K + 1) (fun r ret => mset ret r k (g k (mget ret r k))) ret)
                M in
    dims M' (K + 1) (K + 1) /\
    (forall a b, K + 1 <= b -> mlookup M' a b = mlookup M a b) /\
    (forall a b, a <= K -> b < K + 1 -> mlookup M' a b = Some (g b (mget M a b)))).
  { apply (for_range_ind (fun n M' =>
      dims M' (K + 1) (K + 1) /\
      (forall a b, n <= b -> mlookup M' a b = mlookup M a b) /\
      (forall a b, a <= K -> b < n -> mlookup M' a b = Some (g b (mget M a b))))).
    - lia.
    - split; [exact HdM|]. split; [done|]. intros; lia.
    - intros n M' [_ Hn] (Hd & Hrest & Hdone).
      destruct (Hinner M' n Hd ltac:(lia)) as (Hd' & Hother & _ & Hcol).
      split; [exact Hd'|]. split.
      + intros a b Hb. rewrite Hother by lia. apply Hrest. lia.
      + intros a b Ha Hb. destruct (decide (b = n)) as [->|Hne].
        * rewrite Hcol by lia. do 2 f_equal. unfold mget. by rewrite Hrest by lia.
        * rewrite Hother by done. apply Hdone; lia. }
  cbv zeta in Houter. destruct Houter as (_ & _ & Hall). apply Hall; lia.
Qed.

End ColumnScaling.

Section ChebyshevReal.
Context `{!StaticMatrixOps R}.
Implicit Types M N B : list (list R).

(** [monomial_derivative<K>(1.) * B] holds the values at 1 of the
    polynomials of [B]. *)
Lemma monomial_row_product (K : nat) B (k : nat) :
  (forall U B' c, dims U 1 (K + 1) -> c <= K ->
     mlookup (mmul 1 (K + 1) (K + 1) U B') 0 c
     = Some (sum_f_R0 (fun r => mget U 0 r * mget B' r c)%R K)) ->
  (N.of_nat K < 2 ^ 64)%N -> k <= K ->
  mget (mmul 1 (K + 1) (K + 1) (monomial_derivative K (cast 1) 0) B) 0 k
  = basis_polynomial B K k 1.
Proof.
  intros Hmul Hfit Hk. apply mlookup_mget.
  rewrite (Hmul _ B k (monomial_derivative_dims K (cast 1) 0) Hk).
  unfold basis_polynomial. f_equal. apply sum_eq. intros r Hr.
  rewrite (mlookup_mget _ _ _ _
             (monomial_derivative_lookup K (cast 1) 0 r ltac:(lia) ltac:(lia)
                ltac:(cbn [falling_factorial]; lia))).
  destruct (Nat.ltb_spec r 0); [lia|].
  rewrite scalar_pow_real. cbn [s_mul cast R_scalar falling_factorial].
  rewrite !pow1. simpl. ring.
Qed.

Lemma chebyshev_normalisation (K k : nat) :
  (forall U B c, dims U 1 (K + 1) -> c <= K ->
     mlookup (mmul 1 (K + 1) (K + 1) U B) 0 c
     = Some (sum_f_R0 (fun r => mget U 0 r * mget B r c)%R K)) ->
  (N.of_nat K < 2 ^ 64)%N -> k <= K ->
  basis_polynomial
    (jacobi_basis K (s_div (cast (-1)) (cast 2)) (s_div (cast (-1)) (cast 2))) K k 1 <> 0%R ->
  basis_polynomial
    (jacobi_basis K (s_div (cast 1) (cast 2)) (s_div (cast 1) (cast 2))) K k 1 <> 0%R ->
  basis_polynomial (polynomial_basis Chebyshev1st K) K k 1 = 1%R /\
  basis_polynomial (polynomial_basis Chebyshev2nd K) K k 1 = INR (k + 1).
Proof.
  intros Hmul Hfit Hk Hnz1 Hnz2. unfold polynomial_basis. cbv zeta. split.
  - set (J := jacobi_basis K (s_div (cast (-1)) (cast 2)) (s_div (cast (-1)) (cast 2))) in *.
    set (fac := mmul 1 (K + 1) (K + 1) (monomial_derivative K (cast 1) 0) J).
    assert (Hfac : mget fac 0 k = basis_polynomial J K k 1)
      by (by apply monomial_row_product).
    unfold basis_polynomial at 1.
    transitivity (sum_f_R0 (fun r => mget J r k * 1 ^ r * / mget fac 0 k)%R K).
    + apply sum_eq. intros r Hr.
      rewrite (mlookup_mget _ _ _ _
                 (column_scaling_lookup K J (fun c x => s_div x (mget fac 0 c)) r k
                    (dims_jacobi_basis K _ _) Hr Hk)).
      cbn [s_div R_scalar]. unfold Rdiv. ring.
    + rewrite <- scal_sum. fold (basis_polynomial J K k 1). rewrite Hfac.
      field. exact Hnz1.
  - set (J := jacobi_basis K (s_div (cast 1) (cast 2)) (s_div (cast 1) (cast 2))) in *.
    set (fac := mmul 1 (K + 1) (K + 1) (monomial_derivative K (cast 1) 0) J).
    assert (Hfac : mget fac 0 k = basis_polynomial J K k 1)
      by (by apply monomial_row_product).
    unfold basis_polynomial at 1.
    transitivity (sum_f_R0 (fun r => mget J r k * 1 ^ r
                                     * (INR (k + 1) * / mget fac 0 k))%R K).
    + apply sum_eq. intros r Hr.
      rewrite (mlookup_mget _ _ _ _
                 (column_scaling_lookup K J
                    (fun c x => s_mul x (s_div (cast (Z.of_nat (c + 1))) (mget fac 0 c)))
                    r k (dims_jacobi_basis K _ _) Hr Hk)).
      cbn [s_mul s_div cast R_scalar]. rewrite <- INR_IZR_INZ. unfold Rdiv. ring.
    + rewrite <- scal_sum. fold (basis_polynomial J K k 1). rewrite Hfac.
      field. exact Hnz2.
Qed.

End ChebyshevReal.

(** In real arithmetic, for an [operator*] that is the matrix product and
    a degree that fits [std::size_t], the Chebyshev bases of
    [polynomial_basis] are normalised at 1 wherever the Jacobi polynomial
    they are scaled from does not vanish there: the polynomials of the
    first kind take the value 1 at 1, and the polynomial of degree [k] of
    the second kind the value [k + 1]. *)
Theorem chebyshev_basis_normalised `{!StaticMatrixOps R} (K k : nat) :
  (forall U B c, dims U 1 (K + 1) -> c <= K ->
     mlookup (mmul 1 (K + 1) (K + 1) U B) 0 c
     = Some (sum_f_R0 (fun r => mget U 0 r * mget B r c)%R K)) ->
  (N.of_nat K < 2 ^ 64)%N -> k <= K ->
  basis_polynomial
    (jacobi_basis K (s_div (cast (-1)) (cast 2)) (s_div (cast (-1)) (cast 2))) K k 1 <> 0%R ->
  basis_polynomial
    (jacobi_basis K (s_div (cast 1) (cast 2)) (s_div (cast 1) (cast 2))) K k 1 <> 0%R ->
  basis_polynomial (polynomial_basis Chebyshev1st K) K k 1 = 1%R /\
  basis_polynomial (polynomial_basis Chebyshev2nd K) K k 1 = INR (k + 1).
Proof. apply chebyshev_normalisation. Qed.

Lemma chebyshev_basis_normalised_witness :
  basis_polynomial (polynomial_basis (S := R) Chebyshev1st 1) 1 1 1 = 1%R /\
  basis_polynomial (polynomial_basis (S := R) Chebyshev2nd 1) 1 1 1 = INR (1 + 1).
Proof.
  apply (chebyshev_basis_normalised 1 1).
  - intros U B c _ Hc. by apply triple_loop_mul_row.
  - vm_compute. reflexivity.
  - lia.
  - unfold basis_polynomial, jacobi_basis, mget, mlookup. simpl. lra.
  - unfold basis_polynomial, jacobi_basis, mget, mlookup. simpl. lra.
Defined.

(** ** The recurrences of [hermite_basis], [laguerre_basis] and
    [jacobi_basis] as identities of polynomials *)

Section RecurrenceReal.
Implicit Types M : list (list R).

Lemma shifted_sum (f : nat -> R) (x : R) (K : nat) :
  1 <= K -> f K = 0%R ->
  sum_f_R0 (fun r => ((if (0 <? r)%nat then f (r - 1)%nat else 0) * x ^ r)%R) K
  = (x * sum_f_R0 (fun r => f r * x ^ r) K)%R.
Proof.
  intros HK Hlast. destruct K as [|K]; [lia|].
  rewrite decomp_sum by lia. simpl pred.
  destruct (Nat.ltb_spec 0 0); [lia|].
  rewrite Rmult_0_l, Rplus_0_l.
  cbn [sum_f_R0]. rewrite Hlast, Rmult_0_l, Rplus_0_r.
  rewrite scal_sum. apply sum_eq. intros r Hr.
  destruct (Nat.ltb_spec 0 (Datatypes.S r)); [|lia].
  replace (Datatypes.S r - 1) with r by lia. simpl. ring.
Qed.

(** A column given by a three-term recurrence of its coefficients, with
    operations that are linear in real arithmetic, is the corresponding
    combination of the two polynomials before it. *)
Lemma three_term_polynomial (K k : nat) M
    (op1 op2 op3 : R -> R -> R) (g1 g2 g3 : R -> R) (a1 a2 a3 x : R) :
  2 <= k <= K ->
  (forall r, r <= K -> k - 1 < r -> mget M r (k - 1) = 0%R) ->
  (forall r, r <= K -> k - 2 < r -> mget M r (k - 2) = 0%R) ->
  (forall s y, op1 s (g1 y) = (s + a1 * y)%R) ->
  (forall y, op2 (cast 0) (g2 y) = (a2 * y)%R) ->
  (forall e y, op3 e (g3 y) = (e - a3 * y)%R) ->
  (forall r, r <= K ->
     mlookup M r k = Some (three_term_recurrence op1 op2 op3 g1 g2 g3 M r k)) ->
  basis_polynomial M K k x
  = ((a1 + a2 * x) * basis_polynomial M K (k - 1) x
     - a3 * basis_polynomial M K (k - 2) x)%R.
Proof.
  intros Hk Htri1 Htri2 Hop1 Hop2 Hop3 Hrec. unfold basis_polynomial.
  transitivity
    (sum_f_R0 (fun r =>
       ((if (0 <? r)%nat then mget M (r - 1)%nat (k - 1)%nat else 0) * x ^ r * a2
        + mget M r (k - 1)%nat * x ^ r * a1
        - mget M r (k - 2)%nat * x ^ r * a3)%R) K).
  { apply sum_eq. intros r Hr.
    rewrite (mlookup_mget _ _ _ _ (Hrec r Hr)). unfold three_term_recurrence.
    cbn [cast R_scalar].
    destruct (Nat.ltb_spec 0 r) as [Hr0|Hr0].
    - rewrite Hop2.
      destruct (Nat.ltb_spec r k) as [Hrk|Hrk].
      + rewrite Hop1.
        destruct (Nat.ltb_spec r (k - 1)) as [Hrk1|Hrk1].
        * rewrite Hop3. ring.
        * rewrite (Htri2 r Hr ltac:(lia)). ring.
      + rewrite (Htri1 r Hr ltac:(lia)), (Htri2 r Hr ltac:(lia)).
        destruct (Nat.ltb_spec r (k - 1)); [lia|].
        destruct (Nat.eqb_spec r k) as [->|Hne]; [ring|].
        rewrite (Htri1 (r - 1) ltac:(lia) ltac:(lia)). ring.
    - replace r with 0 in * by lia.
      destruct (Nat.ltb_spec 0 k); [|lia].
      rewrite Hop1.
      destruct (Nat.ltb_spec 0 (k - 1)) as [Hk1|Hk1].
      + rewrite Hop3. ring.
      + rewrite (Htri2 0 ltac:(lia) ltac:(lia)). ring. }
  rewrite minus_sum, sum_plus, <- !scal_sum.
  rewrite (shifted_sum (fun r => mget M r (k - 1)) x K) by (lia || (apply Htri1; lia)).
  ring.
Qed.

Lemma three_term_triangular (K : nat) M
    (op1 op2 op3 : R -> R -> R) (g1 g2 g3 : R -> R) (r k : nat) :
  mlookup M r k = Some (three_term_recurrence op1 op2 op3 g1 g2 g3 M r k) ->
  k < r -> mget M r k = 0%R.
Proof.
  intros Hrec Hlt. rewrite (mlookup_mget _ _ _ _ Hrec). unfold three_term_recurrence.
  destruct (Nat.ltb_spec r k); [lia|].
  destruct (Nat.eqb_spec r k); [lia|].
  destruct (Nat.ltb_spec r (k - 1)); [lia|]. reflexivity.
Qed.

Lemma hermite_recurrence_three_term M (r k : nat) :
  hermite_recurrence M r k
  = three_term_recurrence (fun s _ => s) s_add s_sub
      (fun y => y) (fun y => s_mul (cast 2) y)
      (fun y => s_mul (cast (Z.of_nat (2 * (k - 1)))) y) M r k.
Proof.
  unfold hermite_recurrence, three_term_recurrence.
  destruct (Nat.ltb_spec 0 r), (Nat.leb_spec r k), (Nat.ltb_spec r k),
    (Nat.eqb_spec r k); simpl; try lia; reflexivity.
Qed.

Lemma hermite_basis_triangular (K r j : nat) :
  r <= K -> j <= K -> j < r -> mget (hermite_basis (S := R) K) r j = 0%R.
Proof.
  intros Hr Hj Hlt. destruct (hermite_basis_invariant (S := R) K) as (Hd & Hlow & Hrec).
  destruct (decide (j < 2)) as [Hj2|Hj2].
  - apply mlookup_mget. rewrite Hlow by done.
    destruct (Nat.ltb_spec 0 K).
    + rewrite !mlookup_mset_ne by (intros [=]; lia).
      rewrite mlookup_mzero by lia. reflexivity.
    + rewrite !mlookup_mset_ne by (intros [=]; lia).
      rewrite mlookup_mzero by lia. reflexivity.
  - pose proof (Hrec r j Hr ltac:(lia)) as Hrj.
    rewrite hermite_recurrence_three_term in Hrj.
    by apply (three_term_triangular K _ _ _ _ _ _ _ _ _ Hrj).
Qed.

Lemma laguerre_basis_triangular (K r j : nat) :
  r <= K -> j <= K -> j < r -> mget (laguerre_basis (S := R) K) r j = 0%R.
Proof.
  intros Hr Hj Hlt. destruct (laguerre_basis_invariant (S := R) K) as (Hd & Hlow & Hrec).
  destruct (decide (j < 2)) as [Hj2|Hj2].
  - apply mlookup_mget. rewrite Hlow by done.
    destruct (Nat.ltb_spec 0 K).
    + rewrite !mlookup_mset_ne by (intros [=]; lia).
      rewrite mlookup_mzero by lia. reflexivity.
    + rewrite !mlookup_mset_ne by (intros [=]; lia).
      rewrite mlookup_mzero by lia. reflexivity.
  - by apply (three_term_triangular K _ _ _ _ _ _ _ _ _ (Hrec r j Hr ltac:(lia))).
Qed.

Lemma jacobi_basis_triangular (K r j : nat) (alpha beta : R) :
  r <= K -> j <= K -> j < r -> mget (jacobi_basis (S := R) K alpha beta) r j = 0%R.
Proof.
  intros Hr Hj Hlt.
  destruct (jacobi_basis_invariant (S := R) K alpha beta) as (Hd & Hlow & Hrec).
  destruct (decide (j < 2)) as [Hj2|Hj2].
  - apply mlookup_mget. rewrite Hlow by done.
    destruct (Nat.ltb_spec 0 K).
    + rewrite !mlookup_mset_ne by (intros [=]; lia).
      rewrite mlookup_mzero by lia. reflexivity.
    + rewrite !mlookup_mset_ne by (intros [=]; lia).
      rewrite mlookup_mzero by lia. reflexivity.
  - by apply (three_term_triangular K _ _ _ _ _ _ _ _ _ (Hrec r j Hr ltac:(lia))).
Qed.

Lemma hermite_polynomial_recurrence (K k : nat) (x : R) :
  2 <= k <= K ->
  basis_polynomial (hermite_basis K) K k x
  = (2 * x * basis_polynomial (hermite_basis K) K (k - 1) x
     - 2 * INR (k - 1) * basis_polynomial (hermite_basis K) K (k - 2) x)%R.
Proof.
  intros Hk. destruct (hermite_basis_invariant (S := R) K) as (Hd & Hlow & Hrec).
  rewrite (three_term_polynomial K k (hermite_basis K)
             (fun s _ => s) s_add s_sub (fun y => y) (fun y => s_mul (cast 2) y)
             (fun y => s_mul (cast (Z.of_nat (2 * (k - 1)))) y)
             0 2 (2 * INR (k - 1)) x Hk).
  - ring.
  - intros r Hr Hlt. apply hermite_basis_triangular; lia.
  - intros r Hr Hlt. apply hermite_basis_triangular; lia.
  - intros s y. ring.
  - intros y. cbn [s_add s_mul cast R_scalar]. ring.
  - intros e y. cbn [s_sub s_mul cast R_scalar].
    rewrite <- INR_IZR_INZ, mult_INR. simpl INR. ring.
  - intros r Hr. rewrite <- hermite_recurrence_three_term. apply Hrec; lia.
Qed.

Lemma laguerre_polynomial_recurrence (K k : nat) (x : R) :
  2 <= k <= K ->
  (INR k * basis_polynomial (laguerre_basis K) K k x)%R
  = ((INR (2 * k - 1) - x) * basis_polynomial (laguerre_basis K) K (k - 1) x
     - INR (k - 1) * basis_polynomial (laguerre_basis K) K (k - 2) x)%R.
Proof.
  intros Hk. destruct (laguerre_basis_invariant (S := R) K) as (Hd & Hlow & Hrec).
  assert (Hk0 : INR k <> 0%R) by (apply not_0_INR; lia).
  rewrite (three_term_polynomial K k (laguerre_basis K) s_add s_sub s_sub
             (fun y => s_div (s_mul (cast (Z.of_nat (2 * k - 1))) y) (cast (Z.of_nat k)))
             (fun y => s_div y (cast (Z.of_nat k)))
             (fun y => s_div (s_mul (cast (Z.of_nat (k - 1))) y) (cast (Z.of_nat k)))
             (INR (2 * k - 1) / INR k) (- / INR k) (INR (k - 1) / INR k) x Hk).
  - field. exact Hk0.
  - intros r Hr Hlt. apply laguerre_basis_triangular; lia.
  - intros r Hr Hlt. apply laguerre_basis_triangular; lia.
  - intros s y. cbn [s_add s_div s_mul cast R_scalar].
    rewrite <- !INR_IZR_INZ. unfold Rdiv. ring.
  - intros y. cbn [s_sub s_div cast R_scalar].
    rewrite <- !INR_IZR_INZ. unfold Rdiv. ring.
  - intros e y. cbn [s_sub s_div s_mul cast R_scalar].
    rewrite <- !INR_IZR_INZ. unfold Rdiv. ring.
  - intros r Hr. apply Hrec; lia.
Qed.

Lemma jacobi_polynomial_recurrence (K k : nat) (alpha beta x : R) :
  2 <= k <= K ->
  basis_polynomial (jacobi_basis K alpha beta) K k x
  = (jacobi_frac alpha beta k
     * ((jacobi_c1 alpha beta k + jacobi_c2 alpha beta k * x)
        * basis_polynomial (jacobi_basis K alpha beta) K (k - 1) x
        - jacobi_c3 alpha beta k
          * basis_polynomial (jacobi_basis K alpha beta) K (k - 2) x))%R.
Proof.
  intros Hk.
  destruct (jacobi_basis_invariant (S := R) K alpha beta) as (Hd & Hlow & Hrec).
  rewrite (three_term_polynomial K k (jacobi_basis K alpha beta) s_add s_add s_sub
             (fun y => s_mul (s_mul (jacobi_c1 alpha beta k) y) (jacobi_frac alpha beta k))
             (fun y => s_mul (s_mul (jacobi_c2 alpha beta k) y) (jacobi_frac alpha beta k))
             (fun y => s_mul (s_mul (jacobi_c3 alpha beta k) y) (jacobi_frac alpha beta k))
             (jacobi_c1 alpha beta k * jacobi_frac alpha beta k)
             (jacobi_c2 alpha beta k * jacobi_frac alpha beta k)
             (jacobi_c3 alpha beta k * jacobi_frac alpha beta k) x Hk).
  - ring.
  - intros r Hr Hlt. apply jacobi_basis_triangular; lia.
  - intros r Hr Hlt. apply jacobi_basis_triangular; lia.
  - intros s y. cbn [s_add s_mul R_scalar]. ring.
  - intros y. cbn [s_add s_mul cast R_scalar]. ring.
  - intros e y. cbn [s_sub s_mul R_scalar]. ring.
  - intros r Hr. apply Hrec; lia.
Qed.

End RecurrenceReal.

(** In real arithmetic and with the zero-filling constructor, the
    polynomials that the columns of [hermite_basis], [laguerre_basis] and
    [jacobi_basis] stand for satisfy the three-term recurrences of the
    Hermite, Laguerre and Jacobi polynomials, for every argument [x]:
    [H_k = 2 x H_(k-1) - 2 (k-1) H_(k-2)],
    [k L_k = (2k - 1 - x) L_(k-1) - (k-1) L_(k-2)] and
    [P_k = frac ((c1 + c2 x) P_(k-1) - c3 P_(k-2))]. *)
Theorem orthogonal_polynomial_recurrences (K k : nat) (alpha beta x : R) :
  2 <= k <= K ->
  basis_polynomial (hermite_basis K) K k x
  = (2 * x * basis_polynomial (hermite_basis K) K (k - 1) x
     - 2 * INR (k - 1) * basis_polynomial (hermite_basis K) K (k - 2) x)%R /\
  (INR k * basis_polynomial (laguerre_basis K) K k x)%R
  = ((INR (2 * k - 1) - x) * basis_polynomial (laguerre_basis K) K (k - 1) x
     - INR (k - 1) * basis_polynomial (laguerre_basis K) K (k - 2) x)%R /\
  basis_polynomial (jacobi_basis K alpha beta) K k x
  = (jacobi_frac alpha beta k
     * ((jacobi_c1 alpha beta k + jacobi_c2 alpha beta k * x)
        * basis_polynomial (jacobi_basis K alpha beta) K (k - 1) x
        - jacobi_c3 alpha beta k
          * basis_polynomial (jacobi_basis K alpha beta) K (k - 2) x))%R.
Proof.
  intros Hk. split; [|split].
  - by apply hermite_polynomial_recurrence.
  - by apply laguerre_polynomial_recurrence.
  - by apply jacobi_polynomial_recurrence.
Qed.

Lemma orthogonal_polynomial_recurrences_witness :
  basis_polynomial (hermite_basis (S := R) 3) 3 2 5
  = (2 * 5 * basis_polynomial (hermite_basis (S := R) 3) 3 (2 - 1) 5
     - 2 * INR (2 - 1) * basis_polynomial (hermite_basis (S := R) 3) 3 (2 - 2) 5)%R /\
  (INR 2 * basis_polynomial (laguerre_basis (S := R) 3) 3 2 5)%R
  = ((INR (2 * 2 - 1) - 5) * basis_polynomial (laguerre_basis (S := R) 3) 3 (2 - 1) 5
     - INR (2 - 1) * basis_polynomial (laguerre_basis (S := R) 3) 3 (2 - 2) 5)%R /\
  basis_polynomial (jacobi_basis (S := R) 3 0%R 0%R) 3 2 5
  = (jacobi_frac 0%R 0%R 2
     * ((jacobi_c1 0%R 0%R 2 + jacobi_c2 0%R 0%R 2 * 5)
        * basis_polynomial (jacobi_basis (S := R) 3 0%R 0%R) 3 (2 - 1) 5
        - jacobi_c3 0%R 0%R 2 * basis_polynomial (jacobi_basis (S := R) 3 0%R 0%R) 3 (2 - 2) 5))%R.
Proof. apply (orthogonal_polynomial_recurrences 3 2 0%R 0%R 5%R). lia. Defined.
